(** * Parallel lexer table construction (src/lexer/parallel_lexer.cpp)

    A shallow embedding of [ParallelState], [ParallelLexer::MergeTable] and
    of the constructor [ParallelLexer::ParallelLexer], followed by the
    properties of the tables it builds.

    Conventions of the embedding.
    - Indices ([size_t], [StateIndex]) are natural numbers.  The constructor
      only ever asks its table for one state more than it holds, and a table
      of capacity [c] owns [c * c] cells in memory, so the sizes it computes
      stay far below the width of [size_t]: the constructor and the
      [MergeTable] operations it calls are modelled over unbounded naturals.
      [MergeTable::resize] is also a public operation that takes any side;
      for it there is a second model, [MergeTable_resize_size_t], in which
      products and sums wrap modulo [2 ^ 64] as [size_t] does.  The two
      agree as long as the squares of the capacities fit
      ([MergeTable_resize_size_t_unbounded]).
    - Memory is unbounded: an allocation never fails.
    - Every access [v[i]] to a vector or array is a partial lookup: an index
      outside the storage, or a failed [assert], makes the operation return
      [None].  The loops whose bound changes while they run take a bound on
      their iterations and return [None] when it is too small; the section
      on completion gives a bound that is large enough.
    - [seen] is a finite map; the loop over it runs in the order of
      [map_to_list], and its result is shown not to depend on that order.
    - The constants [REJECT], [START], [MAX_SYM], [MIN_SIZE] and
      [GROW_FACTOR] are declared in headers; they are the fields of the
      class [Constants], over which everything below is parametric. *)

From stdpp Require Import gmap list fin_maps strings pretty.
From Stdlib Require Import ZifyNat ZifyN.

(** ** Transitions and parallel states *)

Abbreviation StateIndex := nat (only parsing).

(** [ParallelLexer::Transition] *)
Record Transition := mkTransition {
  result_state : StateIndex;
  produces_lexeme : bool
}.

#[global] Instance Transition_eq_dec : EqDecision Transition.
Proof. solve_decision. Defined.

#[global] Instance Transition_countable : Countable Transition.
Proof.
  apply (inj_countable' (fun t => (result_state t, produces_lexeme t))
                        (fun p => mkTransition p.1 p.2)).
  by intros [].
Defined.

(** [struct ParallelState] has the single field [transitions]; a parallel
    state is represented by that vector. *)
Abbreviation ParallelState := (list Transition) (only parsing).

(** A counted loop [for (k = 0; k < n; ++k) body(k)] over a state that
    may fail. *)
Fixpoint for_upto {S : Type} (n : nat) (body : nat -> S -> option S) (s : S)
  : option S :=
  match n with
  | 0 => Some s
  | S k => match for_upto k body s with
           | Some s' => body k s'
           | None => None
           end
  end.

(** A range-based loop [for (x : xs) body(x)]. *)
Fixpoint for_each {A S : Type} (xs : list A) (body : A -> S -> option S) (s : S)
  : option S :=
  match xs with
  | [] => Some s
  | x :: xs' => match body x s with
                | Some s' => for_each xs' body s'
                | None => None
                end
  end.

(** Checked write [v[i] = x]. *)
Definition store {A : Type} (v : list A) (i : nat) (x : A) : option (list A) :=
  if decide (i < length v) then Some (<[i := x]> v) else None.

(** [ParallelState::merge]: every slot of [self] is replaced by the slot of
    [other] that its result state selects. *)
Definition ParallelState_merge (self other : ParallelState) : option ParallelState :=
  mapM (fun state => other !! result_state state) self.

(** [operator==] on parallel states: [std::equal] over the two ranges, which
    is false for ranges of different lengths and otherwise compares both
    fields of the transitions pairwise. *)
Fixpoint ParallelState_eq (lhs rhs : ParallelState) : bool :=
  match lhs, rhs with
  | [], [] => true
  | l :: lhs', r :: rhs' =>
      (Nat.eqb (result_state l) (result_state r)
       && Bool.eqb (produces_lexeme l) (produces_lexeme r))
      && ParallelState_eq lhs' rhs'
  | _, _ => false
  end.

(** [ParallelState::Hash::operator()]: both fields of every transition are
    folded into the hash, in index order.  [hash_combine] is declared in a
    header; [combine_index] and [combine_flag] stand for its instances at
    the types of the two fields. *)
Definition ParallelState_Hash (combine_index : nat -> nat -> nat)
    (combine_flag : nat -> bool -> nat) (ps : ParallelState) : nat :=
  foldl (fun hash state =>
           combine_flag (combine_index hash (result_state state))
                        (produces_lexeme state))
        0 ps.

(** [ParallelLexer::MergeTable]: the logical side [num_states], the stride
    [capacity] and [cells], the array of [capacity * capacity] transitions
    that the member pointer of the class owns (the pointer is called
    [merge_table] in the source, as is the lexer's member holding the whole
    table; the latter keeps the name below). *)
Record MergeTable := mkMergeTable {
  num_states : nat;
  capacity : nat;
  cells : list Transition
}.

(** [MergeTable::MergeTable()] *)
Definition MergeTable_new : MergeTable := mkMergeTable 0 0 [].

(** [MergeTable::states] *)
Definition MergeTable_states (t : MergeTable) : nat := num_states t.

(** [MergeTable::index], with its two assertions. *)
Definition MergeTable_index (t : MergeTable) (first second : StateIndex)
  : option nat :=
  if decide (first <= num_states t) then
    if decide (second <= num_states t) then Some (first + second * capacity t)
    else None
  else None.

(** [MergeTable::operator()] read. *)
Definition MergeTable_get (t : MergeTable) (first second : StateIndex)
  : option Transition :=
  match MergeTable_index t first second with
  | Some k => cells t !! k
  | None => None
  end.

(** [MergeTable::operator()] followed by an assignment. *)
Definition MergeTable_set (t : MergeTable) (first second : StateIndex)
    (v : Transition) : option MergeTable :=
  match MergeTable_index t first second with
  | Some k =>
      match store (cells t) k v with
      | Some cells => Some (mkMergeTable (num_states t) (capacity t) cells)
      | None => None
      end
  | None => None
  end.

(** ** Arithmetic of [size_t]

    [size_t] has 64 bits on the targets of the lexer.  A product or a sum
    of two values is reduced modulo [2 ^ 64]; the reduction goes through
    binary numbers, so that it evaluates on small arguments. *)
Definition SIZE_BITS : N := 64.

Definition size_t_wrap (n : N) : nat := N.to_nat (n mod 2 ^ SIZE_BITS).

Definition size_t_mul (a b : nat) : nat := size_t_wrap (N.of_nat a * N.of_nat b).

Definition size_t_add (a b : nat) : nat := size_t_wrap (N.of_nat a + N.of_nat b).

(** The number is a value of [size_t]. *)
Definition is_size_t (a : nat) : Prop := (N.of_nat a < 2 ^ SIZE_BITS)%N.

(** The square of the number is a value of [size_t]: a table of that
    capacity has as many cells as [resize] asks for. *)
Definition size_t_square_fits (c : nat) : Prop :=
  (N.of_nat c * N.of_nat c < 2 ^ SIZE_BITS)%N.

(** [MergeTable::index] with the offset computed in [size_t]. *)
Definition MergeTable_index_size_t (t : MergeTable) (first second : StateIndex)
  : option nat :=
  if decide (first <= num_states t) then
    if decide (second <= num_states t) then
      Some (size_t_add first (size_t_mul second (capacity t)))
    else None
  else None.

(** [MergeTable::operator()] read, through that offset. *)
Definition MergeTable_get_size_t (t : MergeTable) (first second : StateIndex)
  : option Transition :=
  match MergeTable_index_size_t t first second with
  | Some k => cells t !! k
  | None => None
  end.

(** Constants of the headers. *)
Class Constants := mkConstants {
  REJECT : StateIndex;
  START : StateIndex;
  MAX_SYM : nat;
  MIN_SIZE : nat;
  GROW_FACTOR : nat
}.

Section Lexer.

Context {consts : Constants}.

(** Lexeme handles attached to DFA states. *)
Context {Lexeme : Type}.

(** [Transition::Transition()] *)
Definition Transition_default : Transition := mkTransition REJECT false.

(** [ParallelState::ParallelState(states)] *)
Definition ParallelState_new (n : nat) : ParallelState :=
  replicate n Transition_default.

(** The loop [while (new_capacity < new_num_states) new_capacity *= GROW_FACTOR]
    over unbounded sizes, as the constructor runs it.
    [fuel] bounds the number of multiplications; [None] stands for a loop
    that does not end within the bound. *)
Fixpoint grow_capacity (fuel new_capacity new_num_states : nat) : option nat :=
  if decide (new_capacity < new_num_states) then
    match fuel with
    | 0 => None
    | S fuel' => grow_capacity fuel' (new_capacity * GROW_FACTOR) new_num_states
    end
  else Some new_capacity.

(** Body of the copy loops of [resize]:
    the cell read through [operator()] at [(first, second)] is written to
    [new_ptr] at [first + second * new_capacity]. *)
Definition resize_copy (t : MergeTable) (new_capacity second first : nat)
    (new_ptr : list Transition) : option (list Transition) :=
  match MergeTable_get t first second with
  | Some v => store new_ptr (first + second * new_capacity) v
  | None => None
  end.

(** [MergeTable::resize] over unbounded sizes, as the constructor calls it.
    The growth loop runs at most [new_num_states] times when it ends at
    all, which is the bound given to it. *)
Definition MergeTable_resize (t : MergeTable) (new_num_states : nat)
  : option MergeTable :=
  if decide (new_num_states <= capacity t) then
    Some (mkMergeTable new_num_states (capacity t) (cells t))
  else
    match grow_capacity new_num_states (Nat.max MIN_SIZE (capacity t))
                        new_num_states with
    | Some new_capacity =>
        match for_upto (num_states t) (fun second =>
                for_upto (num_states t) (resize_copy t new_capacity second))
                (replicate (new_capacity * new_capacity) Transition_default) with
        | Some new_ptr => Some (mkMergeTable new_num_states new_capacity new_ptr)
        | None => None
        end
    | None => None
    end.

(** The growth loop of [resize] in [size_t]: the product
    [new_capacity *= GROW_FACTOR] wraps.  [fuel] bounds the number of
    multiplications; [None] stands for a loop that does not end within the
    bound. *)
Fixpoint grow_capacity_size_t (fuel new_capacity new_num_states : nat)
  : option nat :=
  if decide (new_capacity < new_num_states) then
    match fuel with
    | 0 => None
    | S fuel' =>
        grow_capacity_size_t fuel' (size_t_mul new_capacity GROW_FACTOR)
                             new_num_states
    end
  else Some new_capacity.

(** Body of the copy loops of [resize] in [size_t]: the offset
    [first + second * new_capacity] into [new_ptr] wraps, and so does the
    offset of the read through [operator()]. *)
Definition resize_copy_size_t (t : MergeTable) (new_capacity second first : nat)
    (new_ptr : list Transition) : option (list Transition) :=
  match MergeTable_get_size_t t first second with
  | Some v =>
      store new_ptr (size_t_add first (size_t_mul second new_capacity)) v
  | None => None
  end.

(** [MergeTable::resize] in [size_t]: the array that [make_unique] allocates
    has [new_capacity * new_capacity] cells modulo [2 ^ 64]. *)
Definition MergeTable_resize_size_t (fuel : nat) (t : MergeTable)
    (new_num_states : nat) : option MergeTable :=
  if decide (new_num_states <= capacity t) then
    Some (mkMergeTable new_num_states (capacity t) (cells t))
  else
    match grow_capacity_size_t fuel (Nat.max MIN_SIZE (capacity t))
                               new_num_states with
    | Some new_capacity =>
        match for_upto (num_states t) (fun second =>
                for_upto (num_states t)
                         (resize_copy_size_t t new_capacity second))
                (replicate (size_t_mul new_capacity new_capacity)
                           Transition_default) with
        | Some new_ptr => Some (mkMergeTable new_num_states new_capacity new_ptr)
        | None => None
        end
    | None => None
    end.

(** ** The automaton read by the constructor *)

(** One outgoing transition of a DFA state, as the constructor destructures
    it: an optional symbol, the destination and the lexeme flag. *)
Record FsaTransition := mkFsaTransition {
  maybe_sym : option nat;
  dst : StateIndex;
  fsa_produces_lexeme : bool
}.

(** A DFA state: its outgoing transitions and the lexeme attached to it
    (a null pointer when there is none). *)
Record FsaState := mkFsaState {
  transitions : list FsaTransition;
  lexeme : option Lexeme
}.

(** The automaton is the vector of its states: [dfa.num_states()] is the
    length, [dfa[s]] the lookup. *)
Local Abbreviation FiniteStateAutomaton := (list FsaState) (only parsing).

(** ** The lexer and the state of its construction *)

Record ParallelLexer := mkParallelLexer {
  initial_states : list Transition;
  merge_table : MergeTable;
  identity_state_index : StateIndex;
  final_states : list (option Lexeme)
}.

(** [ParallelLexer::dump_sizes]: the text that the three calls of [printf]
    write to the standard output (the stream passed as argument is not
    used). *)
Definition dump_sizes (lx : ParallelLexer) : string :=
  ("Initial states table: " +:+ pretty (length (initial_states lx))
   +:+ " element
")
  +:+ ("Merge table: " +:+ pretty (MergeTable_states (merge_table lx))
       +:+ "² elements = "
       +:+ pretty (MergeTable_states (merge_table lx)
                   * MergeTable_states (merge_table lx))
       +:+ " elements
")
  +:+ ("Final states table: " +:+ pretty (length (final_states lx))
       +:+ " elements
").

(** The object under construction together with the locals [seen] and
    [states] that the lambdas [enqueue] and [merge] capture by reference. *)
Record Construction := mkConstruction {
  this : ParallelLexer;
  seen : gmap ParallelState StateIndex;
  states : list ParallelState
}.

Definition with_merge_table (c : Construction) (t : MergeTable) : Construction :=
  mkConstruction
    (mkParallelLexer (initial_states (this c)) t
                     (identity_state_index (this c)) (final_states (this c)))
    (seen c) (states c).

Definition with_initial_states (c : Construction) (v : list Transition)
  : Construction :=
  mkConstruction
    (mkParallelLexer v (merge_table (this c))
                     (identity_state_index (this c)) (final_states (this c)))
    (seen c) (states c).

Definition with_identity_state_index (c : Construction) (k : StateIndex)
  : Construction :=
  mkConstruction
    (mkParallelLexer (initial_states (this c)) (merge_table (this c))
                     k (final_states (this c)))
    (seen c) (states c).

Definition with_final_states (c : Construction) (v : list (option Lexeme))
  : Construction :=
  mkConstruction
    (mkParallelLexer (initial_states (this c)) (merge_table (this c))
                     (identity_state_index (this c)) v)
    (seen c) (states c).

(** The lambda [enqueue]: [seen.insert] with the next index; on a real
    insertion the state is appended to [states] and the table resized. *)
Definition enqueue (ps : ParallelState) (c : Construction)
  : option (StateIndex * Construction) :=
  match seen c !! ps with
  | Some k => Some (k, c)
  | None =>
      let k := length (states c) in
      t ← MergeTable_resize (merge_table (this c)) (k + 1);
      Some (k, mkConstruction (this (with_merge_table c t))
                              (<[ps := k]> (seen c)) (states c ++ [ps]))
  end.

(** Body of the seeding loops: the assertion on the symbol, then the two
    field writes to [initial_states[sym].transitions[src]]. *)
Definition seed_transition (src : nat) (tr : FsaTransition)
    (initial : list ParallelState) : option (list ParallelState) :=
  sym ← maybe_sym tr;
  ps ← initial !! sym;
  ps' ← store ps src (mkTransition (dst tr) (fsa_produces_lexeme tr));
  store initial sym ps'.

Definition seed_initial_states (dfa : FiniteStateAutomaton)
  : option (list ParallelState) :=
  for_upto (length dfa)
    (fun src initial =>
       st ← dfa !! src;
       for_each (transitions st) (seed_transition src) initial)
    (replicate (MAX_SYM + 1) (ParallelState_new (length dfa))).

(** Body of the loop that interns the initial states: the START flag is
    read from the state, the state is enqueued, and both fields of
    [this->initial_states[sym]] are written. *)
Definition intern_initial (initial : list ParallelState) (sym : nat)
    (c : Construction) : option Construction :=
  state ← initial !! sym;
  t ← state !! START;
  '(k, c') ← enqueue state c;
  v ← store (initial_states (this c')) sym (mkTransition k (produces_lexeme t));
  Some (with_initial_states c' v).

(** The identity mapping: a fresh state whose slot [i] gets result state [i]. *)
Definition identity_state (n : nat) : ParallelState :=
  imap (fun i t => mkTransition i (produces_lexeme t)) (ParallelState_new n).

(** The lambda [merge], first part: the choice of [result], with the
    states next to the identity passed through and the other pairs composed
    and enqueued. *)
Definition merge_result (i j : StateIndex) (c : Construction)
  : option (StateIndex * Construction) :=
  if decide (i = identity_state_index (this c)) then Some (j, c)
  else if decide (j = identity_state_index (this c)) then Some (i, c)
  else
    ps ← states c !! i;
    other ← states c !! j;
    ps' ← ParallelState_merge ps other;
    enqueue ps' c.

(** The lambda [merge]: the result, its START flag, and the write to the
    table. *)
Definition merge (i j : StateIndex) (c : Construction) : option Construction :=
  '(result, c') ← merge_result i j c;
  sr ← states c' !! result;
  t ← sr !! START;
  mt ← MergeTable_set (merge_table (this c')) i j
         (mkTransition result (produces_lexeme t));
  Some (with_merge_table c' mt).

(** The inner loop [for (j = 0; j < states.size(); ++j)], whose bound is
    read again at every iteration. *)
Fixpoint saturate_inner (fuel : nat) (i j : StateIndex) (c : Construction)
  : option Construction :=
  if decide (j < length (states c)) then
    match fuel with
    | 0 => None
    | S fuel' =>
        c1 ← merge i j c;
        c2 ← merge j i c1;
        saturate_inner fuel' i (S j) c2
    end
  else Some c.

(** The outer loop [for (i = 0; i < states.size(); ++i)].  The progress
    output and the unused copy [first] of [states[i]] leave the state as it
    is and are left out. *)
Fixpoint saturate (fuel : nat) (i : StateIndex) (c : Construction)
  : option Construction :=
  if decide (i < length (states c)) then
    match fuel with
    | 0 => None
    | S fuel' =>
        c' ← saturate_inner fuel' i 0 c;
        saturate fuel' (S i) c'
    end
  else Some c.

(** The final state mapping, one write per entry of [seen]. *)
Definition fill_final_states (dfa : FiniteStateAutomaton) (c : Construction)
  : option (list (option Lexeme)) :=
  for_each (map_to_list (seen c))
    (fun entry final =>
       t ← entry.1 !! START;
       st ← dfa !! result_state t;
       store final entry.2 (lexeme st))
    (replicate (size (seen c)) None).

(** [ParallelLexer::ParallelLexer], from the DFA on.  [fuel] bounds the
    iterations of the saturation loops. *)
Definition ParallelLexer_new (fuel : nat) (dfa : FiniteStateAutomaton)
  : option Construction :=
  initial ← seed_initial_states dfa;
  c1 ← for_upto (length initial) (intern_initial initial)
         (mkConstruction
            (mkParallelLexer (replicate (length initial) Transition_default)
                             MergeTable_new 0 [])
            ∅ []);
  '(k, c2) ← enqueue (identity_state (length dfa)) c1;
  c3 ← saturate fuel 0 (with_identity_state_index c2 k);
  final ← fill_final_states dfa c3;
  Some (with_final_states c3 final).

End Lexer.

Arguments FsaState : clear implicits.

Abbreviation FiniteStateAutomaton Lexeme := (list (FsaState Lexeme)) (only parsing).
Arguments ParallelLexer : clear implicits.
Arguments Construction : clear implicits.


(** ** The sequential reading of the automaton and the fold of the scan

    The scan that consumes the tables is outside the constructor; the two
    definitions below state what a consumer computes, in the words of the
    specification. *)

Section Reference.

Context {consts : Constants} {Lexeme : Type}.

(** One step of the sequential automaton: the transition of [s] on byte [b],
    [REJECT] when there is none. *)
Definition dfa_step (dfa : FiniteStateAutomaton Lexeme) (s : StateIndex)
    (b : nat) : StateIndex :=
  match dfa !! s with
  | Some st =>
      match find (fun tr => bool_decide (maybe_sym tr = Some b)) (transitions st) with
      | Some tr => dst tr
      | None => REJECT
      end
  | None => REJECT
  end.

(** The sequential automaton run from [s] over a byte sequence. *)
Definition dfa_run (dfa : FiniteStateAutomaton Lexeme) (s : StateIndex)
    (bytes : list nat) : StateIndex :=
  foldl (dfa_step dfa) s bytes.

(** [dfa.lexeme_at(s)] *)
Definition lexeme_at (dfa : FiniteStateAutomaton Lexeme) (s : StateIndex)
  : option Lexeme :=
  match dfa !! s with
  | Some st => lexeme st
  | None => None
  end.

(** A DFA has at most one transition per state and symbol. *)
Definition deterministic (dfa : FiniteStateAutomaton Lexeme) : Prop :=
  Forall (fun st => NoDup (maybe_sym <$> transitions st)) dfa.

(** One step of the fold: the running index is merged with the entry of the
    next byte. *)
Definition scan_step (lx : ParallelLexer Lexeme) (r : StateIndex) (b : nat)
  : option StateIndex :=
  t ← initial_states lx !! b;
  m ← MergeTable_get (merge_table lx) r (result_state t);
  Some (result_state m).

(** The fold of [initial_states[b]] through the merge table, from the
    identity state. *)
Definition scan (lx : ParallelLexer Lexeme) (bytes : list nat)
  : option StateIndex :=
  foldl (fun acc b => r ← acc; scan_step lx r b)
        (Some (identity_state_index lx)) bytes.

(** A scan that merges in any order: the bytes at the leaves, a merge of the
    two partial results at every node. *)
Inductive Bracketing : Type :=
| bracket_byte (b : nat)
| bracket_merge (l r : Bracketing).

(** The bytes of a bracketing, left to right. *)
Fixpoint bracket_bytes (t : Bracketing) : list nat :=
  match t with
  | bracket_byte b => [b]
  | bracket_merge l r => bracket_bytes l ++ bracket_bytes r
  end.

(** The index a scan computes along a bracketing: the entry of
    [initial_states] at a leaf, the entry of the merge table at a node. *)
Fixpoint scan_bracketed (lx : ParallelLexer Lexeme) (t : Bracketing)
  : option StateIndex :=
  match t with
  | bracket_byte b => result_state <$> initial_states lx !! b
  | bracket_merge l r =>
      i ← scan_bracketed lx l;
      j ← scan_bracketed lx r;
      result_state <$> MergeTable_get (merge_table lx) i j
  end.

(** The class invariant of [MergeTable]. *)
Definition MergeTable_wf (t : MergeTable) : Prop :=
  num_states t <= capacity t /\ length (cells t) = capacity t * capacity t.

(** The invariant of the interner: the three containers have one
    cardinality and [seen] maps each state to its place in [states]. *)
Definition interner_inv (c : Construction Lexeme) : Prop :=
  size (seen c) = length (states c) /\
  length (states c) = MergeTable_states (merge_table (this c)) /\
  forall ps k, seen c !! ps = Some k <-> states c !! k = Some ps.

(** The states the construction goes through: the empty interner, and what
    [enqueue], [merge] and the writes to the other members make of it. *)
Inductive constructing : Construction Lexeme -> Prop :=
| constructing_start v :
    constructing (mkConstruction (mkParallelLexer v MergeTable_new 0 []) ∅ [])
| constructing_enqueue ps c k c' :
    constructing c -> enqueue ps c = Some (k, c') -> constructing c'
| constructing_merge i j c c' :
    constructing c -> merge i j c = Some c' -> constructing c'
| constructing_initial_states c v :
    constructing c -> constructing (with_initial_states c v)
| constructing_identity c k :
    constructing c -> constructing (with_identity_state_index c k)
| constructing_final_states c v :
    constructing c -> constructing (with_final_states c v).

(** No slot of the state carries the lexeme flag. *)
Definition no_lexeme_flag (ps : ParallelState) : Prop :=
  Forall (fun t => produces_lexeme t = false) ps.

End Reference.

(** ** Invariants of the construction *)

Section Invariants.

Context {consts : Constants} {Lexeme : Type}.
Implicit Types dfa : FiniteStateAutomaton Lexeme.
Implicit Types c : Construction Lexeme.
Implicit Types initial : list (list Transition).

(** The invariant of the construction for an automaton of [N] states. *)
Definition build_inv (N : nat) c : Prop :=
  interner_inv c /\ MergeTable_wf (merge_table (this c)) /\
  Forall (fun ps : list Transition => length ps = N) (states c).

(** [r] is what [merge(i, j)] stores as result: the other operand next to
    the identity, the index of the composed state otherwise. *)
Definition merged c (i j r : StateIndex) : Prop :=
  if decide (i = identity_state_index (this c)) then r = j
  else if decide (j = identity_state_index (this c)) then r = i
  else exists ps other ps',
      states c !! i = Some ps /\ states c !! j = Some other /\
      ParallelState_merge ps other = Some ps' /\ states c !! r = Some ps'.

(** The cell [(i, j)] of the table holds what [merge(i, j)] writes. *)
Definition cell_ok c (i j : StateIndex) : Prop :=
  i < length (states c) /\ j < length (states c) /\
  exists r sr t,
    MergeTable_get (merge_table (this c)) i j
    = Some (mkTransition r (produces_lexeme t)) /\
    merged c i j r /\ states c !! r = Some sr /\ sr !! START = Some t.

(** [c'] is a later state of the construction than [c]. *)
Definition grows c c' : Prop :=
  identity_state_index (this c') = identity_state_index (this c) /\
  initial_states (this c') = initial_states (this c) /\
  states c `prefix_of` states c' /\
  forall i j, cell_ok c i j -> cell_ok c' i j.

(** The slot [s] of the state for byte [b]. *)
Definition slot initial (b s : nat) : option Transition :=
  initial !! b ≫= (fun ps => ps !! s).

(** The outgoing transitions of [dfa[s]]. *)
Definition transitions_of dfa (s : StateIndex) : list FsaTransition :=
  match dfa !! s with
  | Some st => transitions st
  | None => []
  end.

(** What the writes for the transitions [trs] leave in a slot for byte [b]
    that held [init]: the last transition on [b] wins. *)
Definition seeded_slot (trs : list FsaTransition) (b : nat) (init : Transition)
  : Transition :=
  foldl (fun acc tr =>
           if decide (maybe_sym tr = Some b)
           then mkTransition (dst tr) (fsa_produces_lexeme tr) else acc)
        init trs.

Definition uniform (N : nat) initial : Prop :=
  Forall (fun ps : list Transition => length ps = N) initial.

(** What holds of a completed construction for [dfa]. *)
Definition built dfa c : Prop :=
  build_inv (length dfa) c /\
  states c !! identity_state_index (this c)
  = Some (identity_state (length dfa)) /\
  (forall a b, a < length (states c) -> b < length (states c) ->
     cell_ok c a b) /\
  length (initial_states (this c)) = MAX_SYM + 1 /\
  (forall b, b <= MAX_SYM ->
     exists ps t k,
       ps !! START = Some t /\
       initial_states (this c) !! b
       = Some (mkTransition k (produces_lexeme t)) /\
       states c !! k = Some ps /\
       forall s, s < length dfa ->
         ps !! s
         = Some (seeded_slot (transitions_of dfa s) b Transition_default)) /\
  length (final_states (this c)) = length (states c) /\
  (forall i ps, states c !! i = Some ps ->
     exists t st,
       ps !! START = Some t /\ dfa !! result_state t = Some st /\
       final_states (this c) !! i = Some (lexeme st)).

(** The result index stored in the cell [(i, j)] of the lexer's table. *)
Definition table_merge c (i j : StateIndex) : option StateIndex :=
  result_state <$> MergeTable_get (merge_table (this c)) i j.

(** Every result state of the parallel state is below [N]. *)
Definition in_range (N : nat) (ps : list Transition) : Prop :=
  Forall (fun t => result_state t < N) ps.

(** An automaton the constructor processes without a failed assertion or an
    access outside a vector: START and the reject state are states, every
    transition is on a symbol of the alphabet and leads to a state. *)
Definition well_formed dfa : Prop :=
  START < length dfa /\ REJECT < length dfa /\
  Forall (fun st =>
            Forall (fun tr =>
                      (exists sym, maybe_sym tr = Some sym /\ sym <= MAX_SYM) /\
                      dst tr < length dfa)
                   (transitions st)) dfa.

(** The slot [REJECT] of the state holds [(REJECT, false)]. *)
Definition reject_slot (ps : list Transition) : Prop :=
  ps !! REJECT = Some Transition_default.

(** The state with every slot rejected, which a byte without transitions
    gets. *)
Definition dead_state (N : nat) : list Transition :=
  replicate N Transition_default.

(** The state with the lexeme flags cleared. *)
Definition clear_flags (ps : list Transition) : list Transition :=
  (fun t => mkTransition (result_state t) false) <$> ps.

(** All transitions with a result state below [M]. *)
Definition all_transitions (M : nat) : list Transition :=
  s ← seq 0 M; [mkTransition s false; mkTransition s true].

(** All parallel states of width [n] with result states below [M]. *)
Fixpoint all_states (M n : nat) : list (list Transition) :=
  match n with
  | 0 => [[]]
  | S n' => t ← all_transitions M; ps ← all_states M n'; [t :: ps]
  end.

End Invariants.

(** ** Concrete inputs *)

(** Constants with the reject state a state of the automaton. *)
Definition small_constants : Constants := mkConstants 1 0 0 8 2.

(** START is state 0, the reject state 1; one transition on byte 0 from
    START to the accepting state 2, which completes a lexeme. *)
Definition accept_dfa : FiniteStateAutomaton nat :=
  [ mkFsaState [mkFsaTransition (Some 0) 2 true] None;
    mkFsaState [] None;
    mkFsaState [] (Some 7) ].

(** A table of side and capacity two, with four different entries, none of
    them the default cell. *)
Definition small_table : MergeTable :=
  mkMergeTable 2 2 [ mkTransition 0 true; mkTransition 2 false;
                     mkTransition 2 true; mkTransition 3 false ].

(** The same constants with two bytes. *)
Definition two_byte_constants : Constants := mkConstants 1 0 1 8 2.

(** START is state 0, the reject state 1.  Byte 0 swaps START and state 2;
    byte 1 keeps each of them and completes a lexeme at START. *)
Definition swap_dfa : FiniteStateAutomaton nat :=
  [ mkFsaState [mkFsaTransition (Some 0) 2 false;
                mkFsaTransition (Some 1) 0 true] None;
    mkFsaState [] None;
    mkFsaState [mkFsaTransition (Some 0) 0 false;
                mkFsaTransition (Some 1) 2 false] (Some 5) ].

(** ** Properties of [MergeTable] *)

Section MergeTableProperties.

Context {consts : Constants}.

Lemma for_upto_S {S : Type} n (body : nat -> S -> option S) s :
  for_upto (S:=S) (Datatypes.S n) body s
  = match for_upto n body s with Some s' => body n s' | None => None end.
Proof. reflexivity. Qed.

Lemma coord_inj n f s f' s' :
  f < n -> f' < n -> f + s * n = f' + s' * n -> f = f' /\ s = s'.
Proof.
  intros Hf Hf' E.
  destruct (lt_eq_lt_dec s s') as [[H|H]|H]; [nia | subst; lia | nia].
Qed.

Lemma store_Some {A : Type} (v : list A) i x v' :
  store v i x = Some v' <-> i < length v /\ v' = <[i := x]> v.
Proof.
  unfold store. case_decide; split; intros H'.
  - inversion H'. auto.
  - destruct H' as [_ ->]. reflexivity.
  - discriminate.
  - destruct H' as [? _]. lia.
Qed.

Lemma grow_capacity_spec fuel c n :
  0 < c -> 1 < GROW_FACTOR -> n <= c + fuel ->
  exists k, grow_capacity fuel c n = Some (c * GROW_FACTOR ^ k) /\
            n <= c * GROW_FACTOR ^ k /\
            forall k', k' < k -> c * GROW_FACTOR ^ k' < n.
Proof.
  intros Hc Hg. revert c Hc.
  induction fuel as [|fuel IH]; intros c Hc Hn.
  - exists 0. simpl. case_decide; [lia|].
    rewrite Nat.mul_1_r. split; [done|]. split; [lia|]. intros; lia.
  - simpl. case_decide as Hlt.
    + destruct (IH (c * GROW_FACTOR)) as (k & E & Hle & Hmin); [nia | nia |].
      exists (S k). rewrite Nat.pow_succ_r', Nat.mul_assoc.
      split; [done|]. split; [done|].
      intros [|k'] Hk; [rewrite Nat.mul_1_r; done|].
      rewrite Nat.pow_succ_r', Nat.mul_assoc. apply Hmin. lia.
    + exists 0. rewrite Nat.mul_1_r. split; [done|]. split; [lia|]. intros; lia.
Qed.

Lemma MergeTable_get_in_range t first second :
  MergeTable_wf t -> first < num_states t -> second < num_states t ->
  exists v, MergeTable_get t first second = Some v /\
            cells t !! (first + second * capacity t) = Some v.
Proof.
  intros [Hc Hl] Hf Hs. unfold MergeTable_get, MergeTable_index.
  rewrite !decide_True by lia.
  destruct (lookup_lt_is_Some_2 (cells t) (first + second * capacity t)) as [v Hv];
    [rewrite Hl; nia|].
  eauto.
Qed.

(** The inner copy loop of [resize], run over the first [w] columns of row
    [second]. *)
Lemma resize_copy_row t nc second w p :
  MergeTable_wf t -> num_states t <= nc -> length p = nc * nc ->
  second < num_states t -> w <= num_states t ->
  exists p', for_upto w (resize_copy t nc second) p = Some p' /\
    length p' = nc * nc /\
    forall f s, f < nc ->
      p' !! (f + s * nc)
      = if decide (s = second /\ f < w) then MergeTable_get t f s
        else p !! (f + s * nc).
Proof.
  intros Hwf Hnc Hp Hs. induction w as [|w IH]; intros Hw.
  - exists p. split; [done|]. split; [done|]. intros f s Hf.
    rewrite decide_False by lia. done.
  - destruct IH as (p1 & E & Hl & Hget); [lia|].
    rewrite for_upto_S, E. unfold resize_copy.
    destruct (MergeTable_get_in_range t w second) as (v & Hv & _); [done|lia|done|].
    rewrite Hv.
    exists (<[w + second * nc := v]> p1).
    split; [apply store_Some; split; [rewrite Hl; nia | done]|].
    split; [by rewrite length_insert|].
    intros f s Hf.
    destruct (decide (f + s * nc = w + second * nc)) as [Heq|Hne].
    + apply coord_inj in Heq as [-> ->]; [|lia..].
      rewrite list_lookup_insert_eq by (rewrite Hl; nia).
      rewrite decide_True by lia. done.
    + rewrite list_lookup_insert_ne by done. rewrite Hget by done.
      destruct (decide (s = second /\ f < w)) as [[-> ?]|Hn].
      * rewrite decide_True by lia. done.
      * rewrite decide_False; [done|]. intros [-> ?].
        assert (f = w) as -> by lia. done.
Qed.

(** Both copy loops of [resize]. *)
Lemma resize_copy_rows t nc m p :
  MergeTable_wf t -> num_states t <= nc -> length p = nc * nc ->
  m <= num_states t ->
  exists p',
    for_upto m (fun second =>
      for_upto (num_states t) (resize_copy t nc second)) p = Some p' /\
    length p' = nc * nc /\
    forall f s, f < nc ->
      p' !! (f + s * nc)
      = if decide (s < m /\ f < num_states t) then MergeTable_get t f s
        else p !! (f + s * nc).
Proof.
  intros Hwf Hnc Hp. induction m as [|m IH]; intros Hm.
  - exists p. split; [done|]. split; [done|]. intros f s Hf.
    rewrite decide_False by lia. done.
  - destruct IH as (p1 & E & Hl & Hget); [lia|].
    rewrite for_upto_S, E.
    destruct (resize_copy_row t nc m (num_states t) p1)
      as (p2 & E2 & Hl2 & Hget2); [done..|lia|lia|].
    exists p2. split; [done|]. split; [done|].
    intros f s Hf. rewrite Hget2 by done.
    destruct (decide (s = m /\ f < num_states t)) as [[-> ?]|Hn].
    + rewrite decide_True by lia. done.
    + rewrite Hget by done.
      destruct (decide (s < m /\ f < num_states t)) as [[? ?]|Hn'].
      * rewrite decide_True by lia. done.
      * rewrite decide_False; [done|]. intros [? ?]. apply Hn. lia.
Qed.

Lemma grow_capacity_done fuel c n :
  ~ c < n -> grow_capacity fuel c n = Some c.
Proof. intros H. destruct fuel; simpl; by rewrite decide_False. Qed.

Lemma grow_capacity_more_fuel fuel fuel' c n r :
  grow_capacity fuel c n = Some r -> fuel <= fuel' ->
  grow_capacity fuel' c n = Some r.
Proof.
  revert fuel' c. induction fuel as [|fuel IH]; intros fuel' c; simpl;
    case_decide; try discriminate.
  - intros [= <-] _. by apply grow_capacity_done.
  - intros E Hle. destruct fuel' as [|fuel']; [lia|]. simpl.
    rewrite decide_True by done. apply IH; [done|lia].
  - intros [= <-] _. by apply grow_capacity_done.
Qed.

Lemma grow_capacity_stuck fuel c n :
  c < n -> c * GROW_FACTOR = c -> grow_capacity fuel c n = None.
Proof.
  intros Hlt Hfix. induction fuel as [|fuel IH]; simpl;
    rewrite decide_True by done; [done|]. by rewrite Hfix.
Qed.

(** The bound that [resize] gives to the growth loop loses no result:
    whenever the loop ends, it ends within [new_num_states] rounds. *)
Lemma grow_capacity_enough fuel c n r :
  grow_capacity fuel c n = Some r -> grow_capacity n c n = Some r.
Proof.
  intros E. destruct (decide (c < n)) as [Hlt|Hge].
  2:{ rewrite grow_capacity_done in E by done. inversion E; subst.
      by apply grow_capacity_done. }
  destruct (decide (c = 0)) as [->|Hc].
  { rewrite grow_capacity_stuck in E by (done || lia). discriminate. }
  destruct (decide (GROW_FACTOR = 0)) as [H0|H0].
  { destruct fuel; simpl in E; rewrite decide_True in E by done;
      [discriminate|].
    rewrite H0, Nat.mul_0_r in E.
    rewrite grow_capacity_stuck in E by lia. discriminate. }
  destruct (decide (GROW_FACTOR = 1)) as [H1|H1].
  { rewrite grow_capacity_stuck in E by (done || lia). discriminate. }
  destruct (grow_capacity_spec n c n) as (k & En & _); [lia..|].
  pose proof (grow_capacity_more_fuel _ (Nat.max fuel n) _ _ _ E
                (Nat.le_max_l _ _)) as E1.
  pose proof (grow_capacity_more_fuel _ (Nat.max fuel n) _ _ _ En
                (Nat.le_max_r _ _)) as E2.
  congruence.
Qed.

Lemma grow_capacity_result fuel c n nc :
  grow_capacity fuel c n = Some nc -> n <= nc.
Proof.
  revert c. induction fuel as [|fuel IH]; intros c; simpl; case_decide;
    intros E; try discriminate; eauto; inversion E; subst; lia.
Qed.

(** What [resize] leaves in the table when it reallocates. *)
Lemma MergeTable_resize_realloc t n nc :
  MergeTable_wf t -> capacity t < n ->
  grow_capacity n (Nat.max MIN_SIZE (capacity t)) n = Some nc ->
  exists p, MergeTable_resize t n = Some (mkMergeTable n nc p) /\
    length p = nc * nc /\
    forall f s, f < nc -> s < nc ->
      p !! (f + s * nc)
      = if decide (s < num_states t /\ f < num_states t)
        then MergeTable_get t f s else Some Transition_default.
Proof.
  intros Hwf Hlt E. pose proof (grow_capacity_result _ _ _ _ E) as Hn.
  destruct Hwf as [Hc Hl].
  destruct (resize_copy_rows t nc (num_states t)
              (replicate (nc * nc) Transition_default))
    as (p & Ep & Hlp & Hget); [done|lia|by rewrite length_replicate|done|].
  exists p. unfold MergeTable_resize. rewrite decide_False by lia.
  rewrite E, Ep. split; [done|]. split; [done|].
  intros f s Hf Hs. rewrite Hget by done.
  case_decide; [done|]. apply lookup_replicate_2. nia.
Qed.

(** Growing the logical side keeps the class invariant and every entry of
    the old logical table. *)
Lemma MergeTable_resize_grow t n t' :
  MergeTable_wf t -> num_states t <= n -> MergeTable_resize t n = Some t' ->
  MergeTable_wf t' /\ num_states t' = n /\
  forall first second, first < num_states t -> second < num_states t ->
    MergeTable_get t' first second = MergeTable_get t first second.
Proof.
  intros Hwf Hn E. destruct (decide (n <= capacity t)) as [Hle|Hgt].
  - unfold MergeTable_resize in E. rewrite decide_True in E by done.
    inversion E; subst; clear E. destruct Hwf as [Hc Hl].
    split; [split; done|]. split; [done|].
    intros f s Hf Hs. unfold MergeTable_get, MergeTable_index; simpl.
    rewrite !decide_True by lia. done.
  - destruct (grow_capacity n (Nat.max MIN_SIZE (capacity t)) n) as [nc|] eqn:Eg.
    2:{ unfold MergeTable_resize in E. rewrite decide_False, Eg in E by done.
        discriminate. }
    destruct (MergeTable_resize_realloc t n nc) as (p & E' & Hl & Hget);
      [done|lia|done|].
    rewrite E' in E. inversion E; subst; clear E.
    pose proof (grow_capacity_result _ _ _ _ Eg) as Hnc.
    split; [split; simpl; [done|done]|]. split; [done|].
    intros f s Hf Hs. destruct Hwf as [Hc _].
    unfold MergeTable_get at 1. unfold MergeTable_index; simpl.
    rewrite !decide_True by lia. rewrite Hget by lia.
    rewrite decide_True by lia. done.
Qed.

(** *** [size_t] arithmetic within its range *)

Lemma size_t_mul_fits a b :
  (N.of_nat a * N.of_nat b < 2 ^ SIZE_BITS)%N -> size_t_mul a b = a * b.
Proof.
  intros H. unfold size_t_mul, size_t_wrap. rewrite N.mod_small by exact H. lia.
Qed.

Lemma size_t_add_fits a b :
  (N.of_nat a + N.of_nat b < 2 ^ SIZE_BITS)%N -> size_t_add a b = a + b.
Proof.
  intros H. unfold size_t_add, size_t_wrap. rewrite N.mod_small by exact H. lia.
Qed.

Lemma size_t_square_fits_le a b :
  a <= b -> size_t_square_fits b -> size_t_square_fits a.
Proof. unfold size_t_square_fits. intros Hle Hb. nia. Qed.

(** Below a capacity whose square fits, the offset of a cell does not wrap. *)
Lemma size_t_offset_fits c f s :
  size_t_square_fits c -> f < c -> s < c ->
  size_t_add f (size_t_mul s c) = f + s * c.
Proof.
  unfold size_t_square_fits. intros Hc Hf Hs.
  rewrite size_t_mul_fits by nia. apply size_t_add_fits. nia.
Qed.

Lemma MergeTable_get_size_t_unbounded t first second :
  size_t_square_fits (capacity t) ->
  first < capacity t -> second < capacity t ->
  MergeTable_get_size_t t first second = MergeTable_get t first second.
Proof.
  intros Hc Hf Hs.
  unfold MergeTable_get_size_t, MergeTable_get, MergeTable_index_size_t,
    MergeTable_index.
  by rewrite size_t_offset_fits.
Qed.

Lemma for_upto_ext {S : Type} n (body body' : nat -> S -> option S) s :
  (forall k s', k < n -> body k s' = body' k s') ->
  for_upto n body s = for_upto n body' s.
Proof.
  induction n as [|n IH]; intros H; [done|].
  rewrite !for_upto_S, IH by (intros; apply H; lia).
  destruct (for_upto n body' s); [apply H; lia|done].
Qed.

Lemma resize_copy_size_t_unbounded t nc second first p :
  MergeTable_wf t -> size_t_square_fits nc -> capacity t <= nc ->
  first < num_states t -> second < num_states t ->
  resize_copy_size_t t nc second first p = resize_copy t nc second first p.
Proof.
  intros [Hc Hl] Hnc Hle Hf Hs. unfold resize_copy_size_t, resize_copy.
  rewrite MergeTable_get_size_t_unbounded
    by (try apply (size_t_square_fits_le _ nc); done || lia).
  by rewrite size_t_offset_fits by (done || lia).
Qed.


Lemma grow_capacity_size_t_result fuel c n nc :
  grow_capacity_size_t fuel c n = Some nc -> n <= nc.
Proof.
  revert c. induction fuel as [|fuel IH]; intros c; simpl; case_decide;
    intros E; try discriminate; eauto; inversion E; subst; lia.
Qed.






(** C9. The assertions of [MergeTable::index] let the coordinate
    [states()] through: at [first = second = states()] the call returns an
    offset instead of failing. *)
Theorem MergeTable_index_at_states t :
  MergeTable_index t (MergeTable_states t) (MergeTable_states t)
  = Some (MergeTable_states t + MergeTable_states t * capacity t).
Proof.
  unfold MergeTable_index, MergeTable_states. rewrite !decide_True by lia. done.
Qed.

End MergeTableProperties.

(** ** Properties of [ParallelState::merge] *)

Section ParallelStateProperties.

Context {consts : Constants}.

Lemma ParallelState_merge_lookup self other r s :
  ParallelState_merge self other = Some r ->
  r !! s = self !! s ≫= (fun t => other !! result_state t).
Proof.
  intros E. apply mapM_Some_1 in E.
  destruct (self !! s) as [t|] eqn:Hs; simpl.
  - destruct (Forall2_lookup_l _ _ _ _ _ E Hs) as (y & Hy & Hoy).
    congruence.
  - apply Forall2_length in E. apply lookup_ge_None in Hs.
    apply lookup_ge_None. lia.
Qed.

Lemma ParallelState_merge_length self other r :
  ParallelState_merge self other = Some r -> length r = length self.
Proof. intros E. symmetry. exact (length_mapM _ _ _ E). Qed.

Lemma ParallelState_merge_defined self other :
  Forall (fun t => result_state t < length other) self ->
  exists r, ParallelState_merge self other = Some r.
Proof.
  intros H. apply (mapM_is_Some_2 (fun t => other !! result_state t)).
  eapply Forall_impl; [exact H|]. intros t Ht. simpl.
  by apply lookup_lt_is_Some_2.
Qed.

Lemma ParallelState_merge_in_range self other r :
  ParallelState_merge self other = Some r ->
  Forall (fun t => result_state t < length other) self.
Proof.
  intros E. apply mapM_Some_1 in E. apply Forall_lookup_2. intros s t Hs.
  destruct (Forall2_lookup_l _ _ _ _ _ E Hs) as (y & _ & Hoy).
  by apply lookup_lt_Some in Hoy.
Qed.

(** Composition of parallel states is associative, as far as it is defined. *)
Lemma ParallelState_merge_assoc p q r pq qr x :
  ParallelState_merge p q = Some pq ->
  ParallelState_merge q r = Some qr ->
  ParallelState_merge pq r = Some x ->
  ParallelState_merge p qr = Some x.
Proof.
  intros Epq Eqr Ex. apply mapM_Some_2. apply Forall2_same_length_lookup_2.
  - rewrite <- (ParallelState_merge_length _ _ _ Epq).
    by rewrite (ParallelState_merge_length _ _ _ Ex).
  - intros s t y Hs Hy.
    rewrite (ParallelState_merge_lookup _ _ _ s Ex) in Hy.
    rewrite (ParallelState_merge_lookup _ _ _ s Epq), Hs in Hy. simpl in Hy.
    rewrite (ParallelState_merge_lookup _ _ _ (result_state t) Eqr).
    destruct (q !! result_state t) as [u|]; simpl in *; [done|discriminate].
Qed.

(** C3, as the code has it.  [merge] has no branch for [REJECT]: when every
    result state of [self] is a slot of [other] and the slot [REJECT] of
    [other] holds [(REJECT, false)], the merge is defined and every slot of
    [self] whose result state is [REJECT] holds [(REJECT, false)] after it. *)
Theorem ParallelState_merge_reject self other :
  Forall (fun t => result_state t < length other) self ->
  other !! REJECT = Some Transition_default ->
  exists r, ParallelState_merge self other = Some r /\
    forall s t, self !! s = Some t -> result_state t = REJECT ->
      r !! s = Some Transition_default.
Proof.
  intros Hdef Hrej. destruct (ParallelState_merge_defined _ _ Hdef) as [r E].
  exists r. split; [done|]. intros s t Hs Ht.
  rewrite (ParallelState_merge_lookup _ _ _ s E), Hs. simpl. by rewrite Ht.
Qed.

End ParallelStateProperties.

(** C3, as the claim states it, fails whatever the value of [REJECT] is:
    for two states of width [REJECT + 1], the slot of [self] that holds
    [REJECT] receives the slot [REJECT] of [other], here [(0, true)]. *)
Lemma ParallelState_merge_reject_not_absorbing :
  ~ exists consts : Constants,
      forall (self other : ParallelState) (s : nat) (t : Transition),
        length self = length other ->
        self !! s = Some t -> result_state t = REJECT ->
        exists r, ParallelState_merge self other = Some r /\
                  r !! s = Some Transition_default.
Proof.
  intros [consts H].
  destruct (H (replicate (S REJECT) Transition_default)
              (replicate (S REJECT) (mkTransition 0 true))
              0 Transition_default) as (r & E & Hr).
  - by rewrite !length_replicate.
  - done.
  - done.
  - rewrite (ParallelState_merge_lookup _ _ _ 0 E) in Hr.
    change (replicate (S REJECT) (mkTransition 0 true) !! REJECT
            = Some Transition_default) in Hr.
    rewrite lookup_replicate_2 in Hr by lia. discriminate.
Qed.


(** ** The interner *)

Section InternerProperties.

Context {consts : Constants} {Lexeme : Type}.
Implicit Types c : Construction Lexeme.

Lemma MergeTable_resize_states t n t' :
  MergeTable_resize t n = Some t' -> num_states t' = n.
Proof.
  unfold MergeTable_resize. case_decide.
  - intros E. by inversion E.
  - destruct (grow_capacity _ _ _); [|discriminate].
    destruct (for_upto _ _ _); [|discriminate].
    intros E. by inversion E.
Qed.

Lemma MergeTable_set_states t i j v t' :
  MergeTable_set t i j v = Some t' ->
  num_states t' = num_states t /\ capacity t' = capacity t /\
  length (cells t') = length (cells t).
Proof.
  unfold MergeTable_set. destruct (MergeTable_index t i j); [|discriminate].
  destruct (store _ _ _) as [p|] eqn:Es; [|discriminate].
  intros E. inversion E; subst; simpl. apply store_Some in Es as [_ ->].
  by rewrite length_insert.
Qed.

(** An interned state is found again: same index, nothing changes. *)
Lemma enqueue_seen ps c k :
  seen c !! ps = Some k -> enqueue ps c = Some (k, c).
Proof. intros H. unfold enqueue. by rewrite H. Qed.

(** A new state gets the next index and is appended. *)
Lemma enqueue_fresh ps c k c' :
  seen c !! ps = None -> enqueue ps c = Some (k, c') ->
  k = length (states c) /\
  seen c' = <[ps := k]> (seen c) /\
  states c' = states c ++ [ps] /\
  initial_states (this c') = initial_states (this c) /\
  identity_state_index (this c') = identity_state_index (this c) /\
  final_states (this c') = final_states (this c) /\
  MergeTable_resize (merge_table (this c)) (length (states c) + 1)
  = Some (merge_table (this c')).
Proof.
  intros H. unfold enqueue. rewrite H.
  destruct (MergeTable_resize _ _) as [t|]; [|discriminate].
  simpl. intros E. inversion E; subst. done.
Qed.

Lemma interner_inv_start (v : list Transition) :
  interner_inv (Lexeme:=Lexeme)
    (mkConstruction (mkParallelLexer v MergeTable_new 0 []) ∅ []).
Proof.
  split; [done|]. split; [done|]. intros ps k. simpl.
  rewrite lookup_empty. split; [discriminate|].
  by rewrite lookup_nil.
Qed.

Lemma enqueue_interner_inv ps c k c' :
  interner_inv c -> enqueue ps c = Some (k, c') ->
  interner_inv c' /\ states c' !! k = Some ps.
Proof.
  intros (Hsz & Hmt & Hbij) E.
  destruct (seen c !! ps) as [k0|] eqn:Hs.
  - rewrite (enqueue_seen _ _ _ Hs) in E. inversion E; subst.
    split; [done|]. by apply Hbij.
  - destruct (enqueue_fresh _ _ _ _ Hs E)
      as (-> & Hseen & Hst & _ & _ & _ & Hr).
    apply MergeTable_resize_states in Hr.
    split; [|rewrite Hst; by apply list_lookup_middle].
    split; [|split].
    + rewrite Hseen, Hst, length_app, map_size_insert_None by done.
      simpl. lia.
    + unfold MergeTable_states. rewrite Hr, Hst, length_app. done.
    + intros ps' k'. rewrite Hseen, Hst.
      destruct (decide (ps = ps')) as [<-|Hne].
      * rewrite lookup_insert_eq. split.
        -- intros [= <-]. by apply list_lookup_middle.
        -- intros Hk. f_equal.
           destruct (decide (k' < length (states c))) as [Hlt|Hge].
           ++ rewrite lookup_app_l in Hk by done.
              apply Hbij in Hk. congruence.
           ++ apply lookup_lt_Some in Hk. rewrite length_app in Hk.
              simpl in Hk. lia.
      * rewrite lookup_insert_ne by done. rewrite Hbij. split.
        -- intros Hk. rewrite lookup_app_l; [done|]. by eapply lookup_lt_Some.
        -- intros Hk.
           destruct (decide (k' < length (states c))) as [Hlt|Hge].
           ++ by rewrite lookup_app_l in Hk.
           ++ pose proof (lookup_lt_Some _ _ _ Hk) as Hlen.
              rewrite length_app in Hlen. simpl in Hlen.
              assert (k' = length (states c)) as -> by lia.
              rewrite list_lookup_middle in Hk by done. congruence.
Qed.

Lemma merge_unfold i j c c' :
  merge i j c = Some c' <->
  exists result c1 sr t mt,
    merge_result i j c = Some (result, c1) /\
    states c1 !! result = Some sr /\ sr !! START = Some t /\
    MergeTable_set (merge_table (this c1)) i j
      (mkTransition result (produces_lexeme t)) = Some mt /\
    c' = with_merge_table c1 mt.
Proof.
  unfold merge.
  destruct (merge_result i j c) as [[result c1]|]; simpl.
  2:{ split; [discriminate|]. intros (?&?&?&?&?&?&_). discriminate. }
  destruct (states c1 !! result) as [sr|] eqn:Hsr; simpl.
  2:{ split; [discriminate|]. intros (?&?&?&?&?&E&E2&_).
      inversion E; subst. congruence. }
  destruct (sr !! START) as [t|] eqn:Ht; simpl.
  2:{ split; [discriminate|]. intros (?&?&?&?&?&E&E2&E3&_).
      inversion E; subst. congruence. }
  destruct (MergeTable_set _ _ _ _) as [mt|] eqn:Hmt; simpl.
  2:{ split; [discriminate|]. intros (?&?&?&?&?&E&E2&E3&E4&_).
      inversion E; subst. congruence. }
  split.
  - intros [= <-]. by exists result, c1, sr, t, mt.
  - intros (?&?&?&?&?&E&E2&E3&E4&->). inversion E; subst.
    rewrite Hsr in E2. inversion E2; subst. rewrite Ht in E3.
    inversion E3; subst. congruence.
Qed.

Lemma merge_result_interner_inv i j c result c1 :
  interner_inv c -> merge_result i j c = Some (result, c1) ->
  interner_inv c1.
Proof.
  intros Hinv. unfold merge_result. repeat case_decide.
  - by intros [= _ <-].
  - by intros [= _ <-].
  - destruct (states c !! i); [|discriminate].
    destruct (states c !! j); [|discriminate]. simpl.
    destruct (ParallelState_merge _ _); [|discriminate]. simpl.
    intros E. by destruct (enqueue_interner_inv _ _ _ _ Hinv E).
Qed.

Lemma merge_interner_inv i j c c' :
  interner_inv c -> merge i j c = Some c' -> interner_inv c'.
Proof.
  intros Hinv E. apply merge_unfold in E
    as (result & c1 & sr & t & mt & Er & _ & _ & Hset & ->).
  destruct (merge_result_interner_inv _ _ _ _ _ Hinv Er) as (Hsz & Hmt & Hbij).
  apply MergeTable_set_states in Hset as (Hn & _ & _).
  split; [done|]. split; [|done].
  unfold MergeTable_states in *. simpl. by rewrite Hn.
Qed.

Lemma for_upto_preserves {S : Type} (P : S -> Prop) n
    (body : nat -> S -> option S) s s' :
  (forall k s1 s2, P s1 -> body k s1 = Some s2 -> P s2) ->
  P s -> for_upto n body s = Some s' -> P s'.
Proof.
  intros Hbody Hs. revert s'. induction n as [|n IH]; intros s'.
  - by intros [= <-].
  - rewrite for_upto_S. destruct (for_upto n body s) as [s1|]; [|discriminate].
    intros E. eapply Hbody; [|exact E]. by apply IH.
Qed.

Lemma intern_initial_constructing initial sym c c' :
  constructing c -> intern_initial initial sym c = Some c' -> constructing c'.
Proof.
  intros Hc. unfold intern_initial.
  destruct (initial !! sym) as [state|]; [|discriminate]. simpl.
  destruct (state !! START) as [t|]; [|discriminate]. simpl.
  destruct (enqueue state c) as [[k c1]|] eqn:E; [|discriminate]. simpl.
  destruct (store _ _ _) as [v|]; [|discriminate]. simpl.
  intros [= <-]. apply constructing_initial_states.
  by eapply constructing_enqueue.
Qed.

Lemma saturate_inner_constructing fuel : forall i j c c',
  constructing c -> saturate_inner fuel i j c = Some c' -> constructing c'.
Proof.
  induction fuel as [|fuel IH]; intros i j c c' Hc; simpl; case_decide;
    try discriminate; try (by intros [= <-]).
  destruct (merge i j c) as [c1|] eqn:E1; [|discriminate]. simpl.
  destruct (merge j i c1) as [c2|] eqn:E2; [|discriminate]. simpl.
  apply IH. eapply constructing_merge; [|exact E2].
  by eapply constructing_merge.
Qed.

Lemma saturate_constructing fuel : forall i c c',
  constructing c -> saturate fuel i c = Some c' -> constructing c'.
Proof.
  induction fuel as [|fuel IH]; intros i c c' Hc; simpl; case_decide;
    try discriminate; try (by intros [= <-]).
  destruct (saturate_inner fuel i 0 c) as [c1|] eqn:E1; [|discriminate].
  simpl. apply IH. by eapply saturate_inner_constructing.
Qed.

(** The constructor only passes through states of [constructing]. *)
Lemma ParallelLexer_new_constructing fuel
    (dfa : FiniteStateAutomaton Lexeme) c :
  ParallelLexer_new fuel dfa = Some c -> constructing c.
Proof.
  unfold ParallelLexer_new.
  destruct (seed_initial_states dfa) as [initial|]; [|discriminate]. simpl.
  destruct (for_upto _ _ _) as [c1|] eqn:E1; [|discriminate]. simpl.
  destruct (enqueue _ c1) as [[k c2]|] eqn:E2; [|discriminate]. simpl.
  destruct (saturate _ _ _) as [c3|] eqn:E3; [|discriminate]. simpl.
  destruct (fill_final_states dfa c3) as [final|]; [|discriminate]. simpl.
  intros [= <-]. apply constructing_final_states.
  eapply saturate_constructing; [|exact E3].
  apply constructing_identity. eapply constructing_enqueue; [|exact E2].
  eapply (for_upto_preserves constructing); [|apply constructing_start|exact E1].
  intros sym s1 s2. apply intern_initial_constructing.
Qed.

(** C10. In every state the construction goes through, [seen], [states]
    and the merge table have the same cardinality and [seen] maps a state to
    [k] exactly when [states[k]] is that state; enqueueing a state that is
    already interned returns its index and changes nothing. *)
Theorem interner_consistent c :
  constructing c ->
  (size (seen c) = length (states c) /\
   length (states c) = MergeTable_states (merge_table (this c)) /\
   forall ps k, seen c !! ps = Some k <-> states c !! k = Some ps) /\
  forall ps k, states c !! k = Some ps -> enqueue ps c = Some (k, c).
Proof.
  intros Hc. assert (interner_inv c) as Hinv.
  { induction Hc as [v|ps c k c' _ IH E|i j c c' _ IH E|c v _ IH|c k _ IH|c v _ IH].
    - apply interner_inv_start.
    - by destruct (enqueue_interner_inv _ _ _ _ IH E).
    - by eapply merge_interner_inv.
    - exact IH.
    - exact IH.
    - exact IH. }
  split; [exact Hinv|]. intros ps k Hk. apply enqueue_seen.
  by apply Hinv.
Qed.

End InternerProperties.

(** ** The saturation *)

Section SaturationProperties.

Context {consts : Constants} {Lexeme : Type}.
Implicit Types c : Construction Lexeme.

Lemma grows_refl c : grows c c.
Proof. split; [done|]. split; [done|]. split; [done|]. auto. Qed.

Lemma grows_trans c1 c2 c3 : grows c1 c2 -> grows c2 c3 -> grows c1 c3.
Proof.
  intros (Hi & Hin & Hp & Hc) (Hi' & Hin' & Hp' & Hc').
  split; [congruence|]. split; [congruence|].
  split; [by etrans|]. eauto.
Qed.

Lemma grows_lookup c c' k ps :
  grows c c' -> states c !! k = Some ps -> states c' !! k = Some ps.
Proof. intros (_ & _ & Hp & _) H. by eapply prefix_lookup_Some. Qed.

Lemma grows_length c c' : grows c c' -> length (states c) <= length (states c').
Proof. intros (_ & _ & Hp & _). by apply prefix_length. Qed.

Lemma merged_mono c c' i j r :
  identity_state_index (this c') = identity_state_index (this c) ->
  states c `prefix_of` states c' ->
  merged c i j r -> merged c' i j r.
Proof.
  intros Hid Hp. unfold merged. rewrite Hid. repeat case_decide; try done.
  intros (ps & other & ps' & H1 & H2 & H3 & H4).
  exists ps, other, ps'.
  split; [by eapply prefix_lookup_Some|].
  split; [by eapply prefix_lookup_Some|].
  split; [done|by eapply prefix_lookup_Some].
Qed.

Lemma MergeTable_set_spec t i j v t' :
  MergeTable_wf t -> i < num_states t -> j < num_states t ->
  MergeTable_set t i j v = Some t' ->
  MergeTable_wf t' /\ num_states t' = num_states t /\
  MergeTable_get t' i j = Some v /\
  forall a b, a < num_states t -> b < num_states t -> (a, b) <> (i, j) ->
    MergeTable_get t' a b = MergeTable_get t a b.
Proof.
  intros [Hc Hl] Hi Hj. unfold MergeTable_set, MergeTable_index.
  rewrite !decide_True by lia.
  destruct (store _ _ _) as [p|] eqn:Es; [|discriminate].
  apply store_Some in Es as [Hlt ->]. intros E. inversion E; subst; clear E.
  split; [split; simpl; [done|by rewrite length_insert]|].
  split; [done|]. unfold MergeTable_get, MergeTable_index. simpl. split.
  - rewrite !decide_True by lia. by apply list_lookup_insert_eq.
  - intros a b Ha Hb Hne. rewrite !decide_True by lia.
    apply list_lookup_insert_ne. intros Heq.
    apply coord_inj in Heq as [-> ->]; [done|lia..].
Qed.

Lemma enqueue_grows N ps c k c' :
  build_inv N c -> length ps = N -> enqueue ps c = Some (k, c') ->
  build_inv N c' /\ grows c c' /\ states c' !! k = Some ps.
Proof.
  intros (Hinv & Hwf & Hlen) Hps E.
  destruct (enqueue_interner_inv _ _ _ _ Hinv E) as [Hinv' Hk].
  destruct (seen c !! ps) as [k0|] eqn:Hs.
  { rewrite (enqueue_seen _ _ _ Hs) in E. inversion E; subst.
    split; [done|]. split; [apply grows_refl|done]. }
  destruct (enqueue_fresh _ _ _ _ Hs E)
    as (-> & Hseen & Hst & Hin & Hid & _ & Hr).
  destruct Hinv as (_ & Hmt & _). unfold MergeTable_states in Hmt.
  destruct (MergeTable_resize_grow _ (length (states c) + 1) _ Hwf
              ltac:(lia) Hr) as (Hwf' & Hn' & Hget).
  split; [|split; [|done]].
  - split; [done|]. split; [done|]. rewrite Hst.
    apply Forall_app. split; [done|]. by apply Forall_singleton.
  - split; [done|]. split; [done|].
    assert (states c `prefix_of` states c') as Hp
      by (rewrite Hst; by apply prefix_app_r).
    split; [done|].
    intros i j (Hi & Hj & r & sr & t & Hg & Hm & Hsr & Ht).
    pose proof (prefix_length _ _ Hp).
    split; [lia|]. split; [lia|]. exists r, sr, t.
    split; [rewrite Hget by lia; done|].
    split; [by eapply merged_mono|].
    split; [by eapply prefix_lookup_Some|done].
Qed.

Lemma merge_result_grows N i j c result c1 :
  build_inv N c -> merge_result i j c = Some (result, c1) ->
  build_inv N c1 /\ grows c c1 /\ merged c1 i j result.
Proof.
  intros Hb. unfold merge_result. repeat case_decide.
  - intros [= <- <-]. split; [done|]. split; [apply grows_refl|].
    unfold merged. rewrite decide_True by done. done.
  - intros [= <- <-]. split; [done|]. split; [apply grows_refl|].
    unfold merged. rewrite decide_False, decide_True by done. done.
  - destruct (states c !! i) as [ps|] eqn:Hi; [|discriminate].
    destruct (states c !! j) as [other|] eqn:Hj; [|discriminate]. simpl.
    destruct (ParallelState_merge ps other) as [ps'|] eqn:Em; [|discriminate].
    simpl. intros E.
    assert (length ps' = N) as Hlen.
    { rewrite (ParallelState_merge_length _ _ _ Em).
      destruct Hb as (_ & _ & Hall).
      by apply (Forall_lookup_1 _ _ _ _ Hall Hi). }
    destruct (enqueue_grows _ _ _ _ _ Hb Hlen E) as (Hb' & Hg & Hr).
    split; [done|]. split; [done|].
    destruct Hg as (Hid & _ & Hp & _). unfold merged. rewrite Hid.
    rewrite !decide_False by done.
    exists ps, other, ps'.
  split; [by eapply prefix_lookup_Some|].
  split; [by eapply prefix_lookup_Some|].
  split; [done|by eapply prefix_lookup_Some].
Qed.

(** One call of [merge]: the invariant is kept, every cell that was right
    stays right, and the cell [(i, j)] is right. *)
Lemma merge_grows N i j c c' :
  build_inv N c -> i < length (states c) -> j < length (states c) ->
  merge i j c = Some c' ->
  build_inv N c' /\ grows c c' /\ cell_ok c' i j.
Proof.
  intros Hb Hi Hj E. apply merge_unfold in E
    as (result & c1 & sr & t & mt & Er & Hsr & Ht & Hset & ->).
  destruct (merge_result_grows _ _ _ _ _ _ Hb Er) as (Hb1 & Hg1 & Hm).
  pose proof (grows_length _ _ Hg1) as Hlen1.
  destruct Hb1 as (Hinv1 & Hwf1 & Hall1).
  pose proof Hinv1 as (_ & Hmt1 & _). unfold MergeTable_states in Hmt1.
  assert (i < num_states (merge_table (this c1))) as Hi1 by lia.
  assert (j < num_states (merge_table (this c1))) as Hj1 by lia.
  destruct (MergeTable_set_spec _ _ _ _ _ Hwf1 Hi1 Hj1 Hset)
    as (Hwf' & Hn' & Hget & Hframe).
  assert (cell_ok (with_merge_table c1 mt) i j) as Hok.
  { split; [simpl; lia|]. split; [simpl; lia|].
    exists result, sr, t. simpl. done. }
  split; [|split; [|done]].
  - split; [|split; [done|done]].
    destruct Hinv1 as (Hsz & _ & Hbij). split; [done|]. split; [|done].
    unfold MergeTable_states. simpl. lia.
  - eapply grows_trans; [exact Hg1|].
    split; [done|]. split; [done|]. split; [done|].
    intros a b Hab. destruct (decide ((a, b) = (i, j))) as [[= -> ->]|Hne].
    + exact Hok.
    + destruct Hab as (Ha & Hb' & r & sr' & t' & Hg & Hm' & Hsr' & Ht').
      split; [done|]. split; [done|]. exists r, sr', t'. simpl.
      rewrite Hframe by (done || lia). done.
Qed.

Lemma saturate_inner_spec N fuel : forall i j c c',
  build_inv N c -> i < length (states c) ->
  (forall b, b < j -> cell_ok c i b /\ cell_ok c b i) ->
  saturate_inner fuel i j c = Some c' ->
  build_inv N c' /\ grows c c' /\
  forall b, b < length (states c') -> cell_ok c' i b /\ cell_ok c' b i.
Proof.
  induction fuel as [|fuel IH]; intros i j c c' Hb Hi Hdone; simpl;
    case_decide as Hj; try discriminate.
  - intros [= <-]. split; [done|]. split; [apply grows_refl|].
    intros b Hlt. apply Hdone. lia.
  - destruct (merge i j c) as [c1|] eqn:E1; [|discriminate]. simpl.
    destruct (merge_grows _ _ _ _ _ Hb Hi Hj E1) as (Hb1 & Hg1 & Hok1).
    pose proof (grows_length _ _ Hg1) as Hl1.
    destruct (merge j i c1) as [c2|] eqn:E2; [|discriminate]. simpl.
    assert (j < length (states c1)) as Hj1 by lia.
    assert (i < length (states c1)) as Hi1 by lia.
    destruct (merge_grows _ _ _ _ _ Hb1 Hj1 Hi1 E2) as (Hb2 & Hg2 & Hok2).
    pose proof (grows_length _ _ Hg2) as Hl2.
    intros E. apply IH in E as (Hb' & Hg' & Hall); [|done|lia|].
    + split; [done|]. split; [|done].
      eapply grows_trans; [exact Hg1|]. by eapply grows_trans.
    + intros b Hlt. destruct (decide (b = j)) as [->|Hne].
      * split; [|done]. by apply Hg2.
      * destruct (Hdone b ltac:(lia)) as [H1 H2].
        split; apply Hg2, Hg1; done.
  - intros [= <-]. split; [done|]. split; [apply grows_refl|].
    intros b Hlt. apply Hdone. lia.
Qed.

(** The single growing sweep writes every cell: when the outer loop ends,
    every pair of interned indices has its cell right. *)
Lemma saturate_spec N fuel : forall i c c',
  build_inv N c ->
  (forall a b, a < i -> b < i -> cell_ok c a b) ->
  saturate fuel i c = Some c' ->
  build_inv N c' /\ grows c c' /\
  forall a b, a < length (states c') -> b < length (states c') ->
    cell_ok c' a b.
Proof.
  induction fuel as [|fuel IH]; intros i c c' Hb Hdone; simpl;
    case_decide as Hi; try discriminate.
  - intros [= <-]. split; [done|]. split; [apply grows_refl|].
    intros a b Ha Hlt. apply Hdone; lia.
  - destruct (saturate_inner fuel i 0 c) as [c1|] eqn:E1; [|discriminate].
    simpl.
    assert (forall b, b < 0 -> cell_ok c i b /\ cell_ok c b i) as H0
      by (intros; lia).
    destruct (saturate_inner_spec _ _ _ _ _ _ Hb Hi H0 E1)
      as (Hb1 & Hg1 & Hrow).
    pose proof (grows_length _ _ Hg1) as Hl1.
    intros E. apply IH in E as (Hb' & Hg' & Hall); [|done|].
    + split; [done|]. split; [by eapply grows_trans|done].
    + intros a b Ha Hlt.
      destruct (decide (a = i)) as [->|Hna]; [apply Hrow; lia|].
      destruct (decide (b = i)) as [->|Hnb]; [apply Hrow; lia|].
      apply Hg1, Hdone; lia.
  - intros [= <-]. split; [done|]. split; [apply grows_refl|].
    intros a b Ha Hlt. apply Hdone; lia.
Qed.

End SaturationProperties.

(** ** Seeding the initial states *)

Section SeedProperties.

Context {consts : Constants} {Lexeme : Type}.
Implicit Types dfa : FiniteStateAutomaton Lexeme.
Implicit Types initial : list (list Transition).

Lemma seed_transition_spec N src tr initial initial' :
  uniform N initial -> seed_transition src tr initial = Some initial' ->
  length initial' = length initial /\ uniform N initial' /\
  forall b s t, slot initial b s = Some t ->
    slot initial' b s
    = Some (if decide (s = src /\ maybe_sym tr = Some b)
            then mkTransition (dst tr) (fsa_produces_lexeme tr) else t).
Proof.
  intros Hu. unfold seed_transition.
  destruct (maybe_sym tr) as [sym|]; [|discriminate]. simpl.
  destruct (initial !! sym) as [ps|] eqn:Hps; [|discriminate]. simpl.
  destruct (store ps src _) as [ps'|] eqn:Es; [|discriminate]. simpl.
  apply store_Some in Es as [Hsrc ->].
  intros E. apply store_Some in E as [Hsym ->].
  split; [by rewrite length_insert|]. split.
  - apply Forall_insert; [done|]. rewrite length_insert.
    by apply (Forall_lookup_1 _ _ _ _ Hu Hps).
  - intros b s t. unfold slot.
    destruct (decide (b = sym)) as [->|Hb].
    + rewrite list_lookup_insert_eq by done. rewrite Hps. simpl.
      destruct (decide (s = src)) as [->|Hs].
      * intros _. rewrite list_lookup_insert_eq by done.
        rewrite decide_True by done. done.
      * intros Ht. rewrite list_lookup_insert_ne by done.
        rewrite decide_False by (intros [? _]; done). done.
    + rewrite list_lookup_insert_ne by done. intros Ht.
      rewrite decide_False; [done|]. intros [_ [= ->]]. done.
Qed.

Lemma seed_state_spec N src trs : forall initial initial',
  uniform N initial ->
  for_each trs (seed_transition src) initial = Some initial' ->
  length initial' = length initial /\ uniform N initial' /\
  forall b s t, slot initial b s = Some t ->
    slot initial' b s
    = Some (if decide (s = src) then seeded_slot trs b t else t).
Proof.
  induction trs as [|tr trs IH]; intros initial initial' Hu; simpl.
  - intros [= <-]. split; [done|]. split; [done|]. intros b s t Ht.
    by case_decide.
  - destruct (seed_transition src tr initial) as [initial1|] eqn:E1;
      [|discriminate].
    destruct (seed_transition_spec _ _ _ _ _ Hu E1) as (Hl1 & Hu1 & Hs1).
    intros E. destruct (IH _ _ Hu1 E) as (Hl & Hu' & Hs).
    split; [congruence|]. split; [done|]. intros b s t Ht.
    rewrite (Hs _ _ _ (Hs1 _ _ _ Ht)). f_equal.
    destruct (decide (s = src)) as [->|Hne].
    + destruct (decide (maybe_sym tr = Some b)) as [Hb|Hb].
      * rewrite decide_True by done. done.
      * rewrite decide_False by (intros [_ ?]; done). done.
    + rewrite decide_False by (intros [? _]; done). done.
Qed.

Lemma seed_rows_spec N dfa m : forall initial0 initial,
  uniform N initial0 -> m <= length dfa ->
  for_upto m
    (fun src initial =>
       st ← dfa !! src;
       for_each (transitions st) (seed_transition src) initial)
    initial0 = Some initial ->
  length initial = length initial0 /\ uniform N initial /\
  forall b s t, slot initial0 b s = Some t ->
    slot initial b s
    = Some (if decide (s < m) then seeded_slot (transitions_of dfa s) b t
            else t).
Proof.
  induction m as [|m IH]; intros initial0 initial Hu Hm.
  - intros [= <-]. split; [done|]. split; [done|]. intros b s t Ht.
    rewrite decide_False by lia. done.
  - rewrite for_upto_S.
    destruct (for_upto m _ initial0) as [initial1|] eqn:E1; [|discriminate].
    destruct (IH _ _ Hu ltac:(lia) E1) as (Hl1 & Hu1 & Hs1).
    destruct (dfa !! m) as [st|] eqn:Hst; [|discriminate]. simpl.
    intros E. destruct (seed_state_spec _ _ _ _ _ Hu1 E) as (Hl & Hu' & Hs).
    split; [congruence|]. split; [done|]. intros b s t Ht.
    rewrite (Hs _ _ _ (Hs1 _ _ _ Ht)). f_equal.
    destruct (decide (s = m)) as [->|Hne].
    + rewrite decide_False, decide_True by lia.
      unfold transitions_of. by rewrite Hst.
    + destruct (decide (s < m)).
      * rewrite decide_True by lia. done.
      * rewrite decide_False by lia. done.
Qed.

(** The seeded vector: one state of width [N] per byte, whose slot [s]
    holds the transition of [dfa[s]] on that byte, the default when there
    is none. *)
Lemma seed_initial_states_spec dfa initial :
  seed_initial_states dfa = Some initial ->
  length initial = MAX_SYM + 1 /\ uniform (length dfa) initial /\
  forall b s, b <= MAX_SYM -> s < length dfa ->
    slot initial b s
    = Some (seeded_slot (transitions_of dfa s) b Transition_default).
Proof.
  unfold seed_initial_states. intros E.
  assert (uniform (length dfa)
            (replicate (MAX_SYM + 1) (ParallelState_new (length dfa)))) as Hu.
  { apply Forall_replicate. unfold ParallelState_new.
    by rewrite length_replicate. }
  destruct (seed_rows_spec _ _ _ _ _ Hu (le_n _) E) as (Hl & Hu' & Hs).
  rewrite length_replicate in Hl. split; [done|]. split; [done|].
  intros b s Hb Hlt.
  rewrite (Hs b s Transition_default).
  - rewrite decide_True by done. done.
  - unfold slot. rewrite lookup_replicate_2 by lia. simpl.
    unfold ParallelState_new. by apply lookup_replicate_2.
Qed.

Lemma seeded_slot_absent trs b init :
  Forall (fun tr => maybe_sym tr <> Some b) trs ->
  seeded_slot trs b init = init.
Proof.
  revert init. induction trs as [|tr trs IH]; intros init H; [done|].
  inversion H; subst. unfold seeded_slot in *. simpl.
  rewrite decide_False by done. by apply IH.
Qed.

(** With one transition per symbol, the seeded slot is the step of the
    sequential automaton. *)
Lemma seeded_slot_find trs b init :
  NoDup (maybe_sym <$> trs) ->
  result_state (seeded_slot trs b init)
  = match find (fun tr => bool_decide (maybe_sym tr = Some b)) trs with
    | Some tr => dst tr
    | None => result_state init
    end.
Proof.
  revert init. induction trs as [|tr trs IH]; intros init Hnd; [done|].
  rewrite fmap_cons in Hnd. apply NoDup_cons in Hnd as [Hnotin Hnd].
  simpl. destruct (decide (maybe_sym tr = Some b)) as [Hb|Hb].
  - rewrite bool_decide_eq_true_2 by done.
    rewrite seeded_slot_absent; [done|].
    apply Forall_forall. intros tr' Hin Heq. apply Hnotin.
    rewrite Hb, <- Heq. by apply list_elem_of_fmap_2.
  - rewrite bool_decide_eq_false_2 by done. by apply IH.
Qed.

Lemma seeded_slot_step dfa s b :
  deterministic dfa -> s < length dfa ->
  result_state (seeded_slot (transitions_of dfa s) b Transition_default)
  = dfa_step dfa s b.
Proof.
  intros Hdet Hs. unfold transitions_of, dfa_step.
  destruct (lookup_lt_is_Some_2 dfa s Hs) as [st Hst]. rewrite Hst.
  rewrite seeded_slot_find; [done|].
  by apply (Forall_lookup_1 _ _ _ _ Hdet Hst).
Qed.

End SeedProperties.

(** ** The constructor *)

Section ConstructorProperties.

Context {consts : Constants} {Lexeme : Type}.
Implicit Types dfa : FiniteStateAutomaton Lexeme.
Implicit Types c : Construction Lexeme.

Lemma intern_loop_spec N (initial : list (list Transition)) m : forall c0 c1,
  build_inv N c0 -> uniform N initial -> m <= length initial ->
  length (initial_states (this c0)) = length initial ->
  for_upto m (intern_initial initial) c0 = Some c1 ->
  build_inv N c1 /\ length (initial_states (this c1)) = length initial /\
  forall b, b < m ->
    exists ps t k,
      initial !! b = Some ps /\ ps !! START = Some t /\
      initial_states (this c1) !! b
      = Some (mkTransition k (produces_lexeme t)) /\
      states c1 !! k = Some ps.
Proof.
  induction m as [|m IH]; intros c0 c1 Hb Hu Hm Hl.
  - intros [= <-]. split; [done|]. split; [done|]. intros; lia.
  - rewrite for_upto_S.
    destruct (for_upto m _ c0) as [cm|] eqn:Em; [|discriminate].
    destruct (IH _ _ Hb Hu ltac:(lia) Hl Em) as (Hbm & Hlm & Hdone).
    unfold intern_initial.
    destruct (initial !! m) as [state|] eqn:Hstate; [|discriminate]. simpl.
    destruct (state !! START) as [t|] eqn:Ht; [|discriminate]. simpl.
    destruct (enqueue state cm) as [[k c']|] eqn:Eq; [|discriminate]. simpl.
    assert (length state = N) as Hlen
      by apply (Forall_lookup_1 _ _ _ _ Hu Hstate).
    destruct (enqueue_grows _ _ _ _ _ Hbm Hlen Eq)
      as (Hb' & (Hid & Hin & Hp & _) & Hk).
    destruct (store _ _ _) as [v|] eqn:Es; [|discriminate]. simpl.
    apply store_Some in Es as [Hlt ->]. intros [= <-].
    split; [exact Hb'|]. simpl.
    split; [rewrite length_insert; congruence|].
    intros b Hlt'. destruct (decide (b = m)) as [->|Hne].
    + exists state, t, k. rewrite list_lookup_insert_eq by done. done.
    + destruct (Hdone b ltac:(lia)) as (ps & t' & k' & H1 & H2 & H3 & H4).
      exists ps, t', k'. rewrite list_lookup_insert_ne by done.
      rewrite Hin. split; [done|]. split; [done|]. split; [done|].
      by eapply prefix_lookup_Some.
Qed.

Lemma final_loop_spec dfa (l : list (list Transition * StateIndex)) :
  forall final0 final,
  for_each l
    (fun entry final =>
       t ← entry.1 !! START;
       st ← dfa !! result_state t;
       store final entry.2 (lexeme st)) final0 = Some final ->
  length final = length final0 /\
  forall i,
    (exists ps t st,
        (ps, i) ∈ l /\ ps !! START = Some t /\
        dfa !! result_state t = Some st /\ final !! i = Some (lexeme st)) \/
    ((forall ps, (ps, i) ∉ l) /\ final !! i = final0 !! i).
Proof.
  induction l as [|[ps0 i0] l IH]; intros final0 final; simpl.
  - intros [= <-]. split; [done|]. intros i. right. split; [|done].
    intros ps. apply not_elem_of_nil.
  - destruct (ps0 !! START) as [t0|] eqn:Ht0; [|discriminate]. simpl.
    destruct (dfa !! result_state t0) as [st0|] eqn:Hst0; [|discriminate].
    simpl. destruct (store final0 i0 (lexeme st0)) as [final1|] eqn:Es;
      [|discriminate].
    apply store_Some in Es as [Hlt ->].
    intros E. destruct (IH _ _ E) as (Hl & Hall).
    rewrite length_insert in Hl. split; [done|]. intros i.
    destruct (Hall i) as [(ps & t & st & Hin & Ht & Hst & Hf)|[Hnone Hf]].
    + left. exists ps, t, st. split; [by apply list_elem_of_further|done].
    + destruct (decide (i = i0)) as [->|Hne].
      * left. exists ps0, t0, st0. split; [apply list_elem_of_here|].
        rewrite Hf, list_lookup_insert_eq by done. done.
      * right. split.
        -- intros ps Hin. apply elem_of_cons in Hin as [[= -> ->]|Hin];
             [done|]. by apply (Hnone ps).
        -- rewrite Hf. by apply list_lookup_insert_ne.
Qed.

Lemma fill_final_states_spec dfa c final :
  interner_inv c -> fill_final_states dfa c = Some final ->
  length final = length (states c) /\
  forall i ps, states c !! i = Some ps ->
    exists t st,
      ps !! START = Some t /\ dfa !! result_state t = Some st /\
      final !! i = Some (lexeme st).
Proof.
  intros (Hsz & _ & Hbij) E. unfold fill_final_states in E.
  destruct (final_loop_spec _ _ _ _ E) as (Hl & Hall).
  rewrite length_replicate in Hl. split; [congruence|].
  intros i ps Hi. apply Hbij in Hi as Hseen.
  destruct (Hall i) as [(ps' & t & st & Hin & Ht & Hst & Hf)|[Hnone _]].
  - apply elem_of_map_to_list in Hin. apply Hbij in Hin.
    assert (ps' = ps) as -> by congruence. eauto.
  - exfalso. apply (Hnone ps). by apply elem_of_map_to_list.
Qed.

Lemma identity_state_lookup N s :
  s < N -> identity_state N !! s = Some (mkTransition s false).
Proof.
  intros Hs. unfold identity_state, ParallelState_new.
  rewrite list_lookup_imap, lookup_replicate_2 by done. done.
Qed.

Lemma identity_state_length N : length (identity_state N) = N.
Proof.
  unfold identity_state, ParallelState_new.
  by rewrite length_imap, length_replicate.
Qed.

(** The constructor establishes [built]. *)
Lemma ParallelLexer_new_built fuel dfa c :
  ParallelLexer_new fuel dfa = Some c -> built dfa c.
Proof.
  unfold ParallelLexer_new.
  destruct (seed_initial_states dfa) as [initial|] eqn:Eseed; [|discriminate].
  simpl.
  destruct (seed_initial_states_spec _ _ Eseed) as (Hli & Hu & Hslot).
  destruct (for_upto _ _ _) as [c1|] eqn:E1; [|discriminate]. simpl.
  assert (build_inv (Lexeme:=Lexeme) (length dfa)
            (mkConstruction
               (mkParallelLexer (replicate (length initial) Transition_default)
                                MergeTable_new 0 [])
               ∅ [])) as Hb0.
  { split; [apply interner_inv_start|]. split; [done|apply Forall_nil_2]. }
  destruct (intern_loop_spec _ _ _ _ _ Hb0 Hu (le_n _)
              (length_replicate _ _) E1) as (Hb1 & Hl1 & Hinit).
  destruct (enqueue _ c1) as [[k c2]|] eqn:E2; [|discriminate]. simpl.
  destruct (enqueue_grows _ _ _ _ _ Hb1 (identity_state_length _) E2)
    as (Hb2 & (_ & Hin2 & Hp2 & _) & Hk).
  destruct (saturate _ _ _) as [c3|] eqn:E3; [|discriminate]. simpl.
  assert (build_inv (length dfa) (with_identity_state_index c2 k)) as Hb2'
    by exact Hb2.
  assert (forall a b, a < 0 -> b < 0 ->
            cell_ok (with_identity_state_index c2 k) a b) as H0
    by (intros; lia).
  destruct (saturate_spec _ _ _ _ _ Hb2' H0 E3)
    as (Hb3 & (Hid3 & Hin3 & Hp3 & _) & Hcells).
  simpl in Hid3, Hin3, Hp3.
  destruct (fill_final_states dfa c3) as [final|] eqn:E4; [|discriminate].
  simpl. intros [= <-].
  destruct (fill_final_states_spec _ _ _ (proj1 Hb3) E4) as (Hlf & Hfin).
  split; [exact Hb3|]. simpl.
  split; [rewrite Hid3; by eapply prefix_lookup_Some|].
  split; [exact Hcells|].
  split; [congruence|].
  split; [|split; [done|done]].
  intros b Hb. destruct (Hinit b ltac:(lia)) as (ps & t & k' & H1 & H2 & H3 & H4).
  exists ps, t, k'. split; [done|].
  split; [rewrite Hin3, Hin2; done|].
  split; [eapply prefix_lookup_Some; [|exact Hp3];
          by eapply prefix_lookup_Some|].
  intros s Hs. specialize (Hslot b s Hb Hs). unfold slot in Hslot.
  rewrite H1 in Hslot. exact Hslot.
Qed.

End ConstructorProperties.

(** ** The completed artifact *)

Section ArtifactProperties.

Context {consts : Constants} {Lexeme : Type}.
Implicit Types dfa : FiniteStateAutomaton Lexeme.
Implicit Types c : Construction Lexeme.

Lemma built_identity_interned dfa c :
  built dfa c -> identity_state_index (this c) < length (states c).
Proof. intros (_ & Hid & _). by eapply lookup_lt_Some. Qed.

Lemma built_width dfa c i (ps : list Transition) :
  built dfa c -> states c !! i = Some ps -> length ps = length dfa.
Proof.
  intros ((_ & _ & Hall) & _) Hi. by apply (Forall_lookup_1 _ _ _ _ Hall Hi).
Qed.

Lemma built_injective dfa c i j (ps : list Transition) :
  built dfa c -> states c !! i = Some ps -> states c !! j = Some ps -> i = j.
Proof.
  intros (((_ & _ & Hbij) & _) & _) Hi Hj.
  apply Hbij in Hi, Hj. congruence.
Qed.

Lemma built_START dfa c : built dfa c -> START < length dfa.
Proof.
  intros Hb. pose proof (built_identity_interned _ _ Hb) as Hlt.
  pose proof Hb as (_ & Hid & Hcells & _).
  destruct (Hcells _ _ Hlt Hlt) as (_ & _ & r & sr & t & _ & Hm & Hsr & Ht).
  unfold merged in Hm. rewrite decide_True in Hm by done. subst r.
  rewrite Hid in Hsr. inversion Hsr; subst.
  apply lookup_lt_Some in Ht. by rewrite identity_state_length in Ht.
Qed.

(** Every result state stored in an interned state is a state of the
    automaton: each state is composed with itself by the sweep. *)
Lemma built_in_range dfa c i (ps : list Transition) :
  built dfa c -> states c !! i = Some ps ->
  Forall (fun t => result_state t < length dfa) ps.
Proof.
  intros Hb Hi. pose proof (lookup_lt_Some _ _ _ Hi) as Hlt.
  pose proof Hb as (_ & Hid & Hcells & _).
  destruct (decide (i = identity_state_index (this c))) as [->|Hne].
  - rewrite Hid in Hi. inversion Hi; subst. apply Forall_lookup_2.
    intros s t Hs. pose proof (lookup_lt_Some _ _ _ Hs) as Hs'.
    rewrite identity_state_length in Hs'.
    rewrite identity_state_lookup in Hs by done. inversion Hs; subst. done.
  - destruct (Hcells _ _ Hlt Hlt) as (_ & _ & r & sr & t & _ & Hm & _).
    unfold merged in Hm. rewrite !decide_False in Hm by done.
    destruct Hm as (ps1 & ps2 & ps' & H1 & H2 & Em & _).
    rewrite Hi in H1, H2. inversion H1; inversion H2; subst.
    apply ParallelState_merge_in_range in Em.
    by rewrite (built_width _ _ _ _ Hb Hi) in Em.
Qed.

(** The identity state is a left unit of the composition. *)
Lemma ParallelState_merge_identity_l N (ps : list Transition) :
  length ps = N -> ParallelState_merge (identity_state N) ps = Some ps.
Proof.
  intros Hl. apply mapM_Some_2. apply Forall2_same_length_lookup_2.
  - by rewrite identity_state_length.
  - intros s t y Hs Hy. pose proof (lookup_lt_Some _ _ _ Hy) as Hlt.
    rewrite identity_state_lookup in Hs by lia. inversion Hs; subst. done.
Qed.

(** Composed with the identity on the right, a state without flags is
    itself. *)
Lemma ParallelState_merge_identity_r N (ps : list Transition) :
  Forall (fun t => result_state t < N) ps -> no_lexeme_flag ps ->
  ParallelState_merge ps (identity_state N) = Some ps.
Proof.
  intros Hr Hf. apply mapM_Some_2. apply Forall2_same_length_lookup_2; [done|].
  intros s t y Hs Hy. rewrite Hs in Hy. inversion Hy; subst.
  rewrite identity_state_lookup by apply (Forall_lookup_1 _ _ _ _ Hr Hs).
  pose proof (Forall_lookup_1 _ _ _ _ Hf Hs) as Hflag. simpl in Hflag.
  destruct y as [r f]. simpl in *. by subst.
Qed.

(** The table entry of a pair, read as a composition: it holds unless the
    right operand alone is the identity. *)
Lemma built_cell dfa c i j :
  built dfa c -> i < length (states c) -> j < length (states c) ->
  exists m sr t,
    MergeTable_get (merge_table (this c)) i j = Some m /\
    states c !! result_state m = Some sr /\ sr !! START = Some t /\
    produces_lexeme m = produces_lexeme t /\
    (i = identity_state_index (this c) -> result_state m = j) /\
    (j = identity_state_index (this c) -> result_state m = i) /\
    (i = identity_state_index (this c) \/
     j <> identity_state_index (this c) ->
     exists ps other ps',
       states c !! i = Some ps /\ states c !! j = Some other /\
       ParallelState_merge ps other = Some ps' /\
       states c !! result_state m = Some ps').
Proof.
  intros Hb Hi Hj. pose proof Hb as (_ & Hid & Hcells & _).
  destruct (Hcells _ _ Hi Hj) as (_ & _ & r & sr & t & Hg & Hm & Hsr & Ht).
  exists (mkTransition r (produces_lexeme t)), sr, t. simpl.
  split; [done|]. split; [done|]. split; [done|]. split; [done|].
  unfold merged in Hm.
  destruct (decide (i = identity_state_index (this c))) as [Hi'|Hi'].
  - subst r. split; [done|]. split; [congruence|]. intros _.
    exists (identity_state (length dfa)), sr, sr.
    split; [by rewrite Hi'|]. split; [done|]. split; [|done].
    apply ParallelState_merge_identity_l. by eapply built_width.
  - destruct (decide (j = identity_state_index (this c))) as [Hj'|Hj'].
    + subst r. split; [done|]. split; [done|]. intros [?|?]; done.
    + split; [done|]. split; [done|]. intros _. exact Hm.
Qed.

(** C7. On a completed artifact [final_states] has one entry per interned
    state, and entry [i] is the lexeme of the DFA state into which state
    [i] takes START ([None] when that DFA state has no lexeme). *)
Theorem final_states_spec fuel dfa c :
  ParallelLexer_new fuel dfa = Some c ->
  length (final_states (this c)) = length (states c) /\
  forall i, i < length (states c) ->
    exists ps t,
      states c !! i = Some ps /\ ps !! START = Some t /\
      final_states (this c) !! i = Some (lexeme_at dfa (result_state t)).
Proof.
  intros E. apply ParallelLexer_new_built in E as Hb.
  destruct Hb as (_ & _ & _ & _ & _ & Hl & Hfin). split; [done|].
  intros i Hi. destruct (lookup_lt_is_Some_2 _ _ Hi) as [ps Hps].
  destruct (Hfin _ _ Hps) as (t & st & Ht & Hst & Hf).
  exists ps, t. split; [done|]. split; [done|].
  unfold lexeme_at. by rewrite Hst.
Qed.

(** C4. On a completed artifact the entries of the table next to the
    identity index return the other operand, on both sides, and the state
    interned at the identity index maps every DFA state [s] to
    [(s, false)]. *)
Theorem identity_unit fuel dfa c :
  ParallelLexer_new fuel dfa = Some c ->
  (forall i, i < length (states c) ->
     table_merge c (identity_state_index (this c)) i = Some i /\
     table_merge c i (identity_state_index (this c)) = Some i) /\
  exists I,
    states c !! identity_state_index (this c) = Some I /\
    length I = length dfa /\
    forall s, s < length dfa -> I !! s = Some (mkTransition s false).
Proof.
  intros E. apply ParallelLexer_new_built in E as Hb.
  pose proof (built_identity_interned _ _ Hb) as Hid. split.
  - intros i Hi. unfold table_merge. split.
    + destruct (built_cell _ _ _ _ Hb Hid Hi)
        as (m & sr & t & Hg & _ & _ & _ & H & _).
      rewrite Hg. simpl. by rewrite H.
    + destruct (built_cell _ _ _ _ Hb Hi Hid)
        as (m & sr & t & Hg & _ & _ & _ & _ & H & _).
      rewrite Hg. simpl. by rewrite H.
  - exists (identity_state (length dfa)).
    split; [by destruct Hb as (_ & ? & _)|].
    split; [apply identity_state_length|]. apply identity_state_lookup.
Qed.

(** C6. On a completed artifact the flag stored in the cell [(i, j)] is the
    START flag of the state the cell points to; when [i] is the identity
    that is the START flag of state [j], and when [j] is the identity it is
    the START flag of state [i]. *)
Theorem produces_lexeme_consistent fuel dfa c i j :
  ParallelLexer_new fuel dfa = Some c ->
  i < length (states c) -> j < length (states c) ->
  exists m,
    MergeTable_get (merge_table (this c)) i j = Some m /\
    (exists sr t,
        states c !! result_state m = Some sr /\ sr !! START = Some t /\
        produces_lexeme m = produces_lexeme t) /\
    (i = identity_state_index (this c) ->
     exists sj t,
       states c !! j = Some sj /\ sj !! START = Some t /\
       produces_lexeme m = produces_lexeme t) /\
    (j = identity_state_index (this c) ->
     exists si t,
       states c !! i = Some si /\ si !! START = Some t /\
       produces_lexeme m = produces_lexeme t).
Proof.
  intros E Hi Hj. apply ParallelLexer_new_built in E as Hb.
  destruct (built_cell _ _ _ _ Hb Hi Hj)
    as (m & sr & t & Hg & Hsr & Ht & Hpl & Hl & Hr & _).
  exists m. split; [done|]. split; [by exists sr, t|]. split.
  - intros Hid. exists sr, t. by rewrite <- (Hl Hid).
  - intros Hid. exists sr, t. by rewrite <- (Hr Hid).
Qed.

Lemma table_merge_spec dfa c i j :
  built dfa c -> i < length (states c) -> j < length (states c) ->
  exists r,
    table_merge c i j = Some r /\ r < length (states c) /\
    (i = identity_state_index (this c) -> r = j) /\
    (j = identity_state_index (this c) -> r = i) /\
    (i = identity_state_index (this c) \/
     j <> identity_state_index (this c) ->
     exists ps other ps',
       states c !! i = Some ps /\ states c !! j = Some other /\
       ParallelState_merge ps other = Some ps' /\ states c !! r = Some ps').
Proof.
  intros Hb Hi Hj.
  destruct (built_cell _ _ _ _ Hb Hi Hj)
    as (m & sr & t & Hg & Hsr & _ & _ & Hl & Hr & Hc).
  exists (result_state m). unfold table_merge. rewrite Hg.
  split; [done|]. split; [by eapply lookup_lt_Some|done].
Qed.

(** C2, as the code has it.  On a completed artifact the table is square
    of side [K], the number of interned states, and every entry [(i, j)]
    with [i, j < K] holds a result index below [K].  When [j] is the
    identity the entry is [i] itself.  When [i] is the identity or [j] is
    not, the entry is the index at which the composition of the states [i]
    and [j] is interned. *)
Theorem merge_table_closed fuel dfa c i j :
  ParallelLexer_new fuel dfa = Some c ->
  i < length (states c) -> j < length (states c) ->
  MergeTable_states (merge_table (this c)) = length (states c) /\
  exists r,
    table_merge c i j = Some r /\ r < length (states c) /\
    (j = identity_state_index (this c) -> r = i) /\
    (i = identity_state_index (this c) \/
     j <> identity_state_index (this c) ->
     exists ps other ps',
       states c !! i = Some ps /\ states c !! j = Some other /\
       ParallelState_merge ps other = Some ps' /\ states c !! r = Some ps').
Proof.
  intros E Hi Hj. apply ParallelLexer_new_built in E as Hb.
  split; [by destruct Hb as (((_ & <- & _) & _) & _)|].
  destruct (table_merge_spec _ _ _ _ Hb Hi Hj) as (r & Hr & Hlt & _ & H1 & H2).
  exists r. done.
Qed.

(** C5, as the code has it.  On a completed artifact the table is
    associative at [(i, j, k)] when one of the three is the identity, when
    the entry [(j, k)] is not the identity, or when state [i] carries no
    lexeme flag. *)
Theorem merge_table_assoc fuel dfa c i j k :
  ParallelLexer_new fuel dfa = Some c ->
  i < length (states c) -> j < length (states c) -> k < length (states c) ->
  i = identity_state_index (this c) \/
  j = identity_state_index (this c) \/
  k = identity_state_index (this c) \/
  table_merge c j k <> Some (identity_state_index (this c)) \/
  (exists ps, states c !! i = Some ps /\ no_lexeme_flag ps) ->
  exists a b r,
    table_merge c i j = Some a /\ table_merge c j k = Some b /\
    table_merge c a k = Some r /\ table_merge c i b = Some r.
Proof.
  intros E Hi Hj Hk Hside. apply ParallelLexer_new_built in E as Hb.
  destruct (table_merge_spec _ _ _ _ Hb Hi Hj) as (a & Ha & Hal & Ha1 & Ha2 & Ha3).
  destruct (table_merge_spec _ _ _ _ Hb Hj Hk) as (b & Hbb & Hbl & Hb1 & Hb2 & Hb3).
  destruct (table_merge_spec _ _ _ _ Hb Hal Hk) as (l & Hl & Hll & Hl1 & Hl2 & Hl3).
  destruct (table_merge_spec _ _ _ _ Hb Hi Hbl) as (r & Hr & Hrl & Hr1 & Hr2 & Hr3).
  exists a, b, l. split; [done|]. split; [done|]. split; [done|].
  rewrite Hr. f_equal.
  destruct (decide (i = identity_state_index (this c))) as [Hi'|Hi'].
  { rewrite (Hr1 Hi'). rewrite (Ha1 Hi') in Hl. congruence. }
  destruct (decide (k = identity_state_index (this c))) as [Hk'|Hk'].
  { rewrite (Hl2 Hk'). rewrite (Hb2 Hk') in Hr. congruence. }
  destruct (decide (j = identity_state_index (this c))) as [Hj'|Hj'].
  { rewrite (Ha2 Hj') in Hl. rewrite (Hb1 Hj') in Hr. congruence. }
  destruct (Ha3 ltac:(by right)) as (si & sj & sa & Hsi & Hsj & Ea & Hsa).
  destruct (Hb3 ltac:(by right)) as (sj' & sk & sb & Hsj' & Hsk & Eb & Hsb).
  destruct (Hl3 ltac:(by right)) as (sa' & sk' & sl & Hsa' & Hsk' & El & Hsl).
  assert (sj' = sj) as -> by congruence.
  assert (sa' = sa) as -> by congruence.
  assert (sk' = sk) as -> by congruence.
  pose proof (ParallelState_merge_assoc _ _ _ _ _ _ Ea Eb El) as Eassoc.
  destruct (decide (b = identity_state_index (this c))) as [Hb'|Hb'].
  - rewrite (Hr2 Hb').
    destruct Hside as [?|[?|[?|[Hne|(si' & Hsi' & Hflag)]]]]; try done.
    { exfalso. apply Hne. by rewrite Hbb, Hb'. }
    assert (si' = si) as -> by congruence.
    assert (sb = identity_state (length dfa)) as ->.
    { destruct Hb as (_ & Hid & _). rewrite Hb' in Hsb. congruence. }
    rewrite (ParallelState_merge_identity_r _ si) in Eassoc;
      [|by eapply built_in_range|done].
    inversion Eassoc; subst. by eapply built_injective.
  - destruct (Hr3 ltac:(by right)) as (si' & sb' & sr & Hsi' & Hsb' & Er & Hsr).
    assert (si' = si) as -> by congruence.
    assert (sb' = sb) as -> by congruence.
    assert (sr = sl) as -> by congruence.
    symmetry. by eapply built_injective.
Qed.

Lemma ParallelState_merge_identity_r_inv N (ps : list Transition) :
  ParallelState_merge ps (identity_state N) = Some ps -> no_lexeme_flag ps.
Proof.
  intros E. apply Forall_lookup_2. intros s t Hs.
  pose proof (ParallelState_merge_lookup _ _ _ s E) as Hl.
  rewrite Hs in Hl. simpl in Hl. symmetry in Hl.
  pose proof (lookup_lt_Some _ _ _ Hl) as Hlt.
  rewrite identity_state_length in Hlt.
  rewrite identity_state_lookup in Hl by done. by inversion Hl.
Qed.

(** X18. The side condition of C5 is the exact one: when [j] and [k] are
    not the identity but the entry [(j, k)] is, and state [i], not the
    identity either, carries a flag, the two sides of the associativity
    equation differ. *)
Lemma merge_table_not_assoc fuel dfa c i j k (ps : list Transition) :
  ParallelLexer_new fuel dfa = Some c ->
  i < length (states c) -> j < length (states c) -> k < length (states c) ->
  i <> identity_state_index (this c) ->
  j <> identity_state_index (this c) ->
  k <> identity_state_index (this c) ->
  table_merge c j k = Some (identity_state_index (this c)) ->
  states c !! i = Some ps -> ~ no_lexeme_flag ps ->
  exists a l,
    table_merge c i j = Some a /\ table_merge c a k = Some l /\
    table_merge c i (identity_state_index (this c)) = Some i /\ l <> i.
Proof.
  intros E Hi Hj Hk Hi' Hj' Hk' Hjk Hps Hflag.
  apply ParallelLexer_new_built in E as Hb.
  pose proof (built_identity_interned _ _ Hb) as Hid.
  destruct (table_merge_spec _ _ _ _ Hb Hi Hj) as (a & Ha & Hal & _ & _ & Ha3).
  destruct (table_merge_spec _ _ _ _ Hb Hj Hk) as (b & Hbb & _ & _ & _ & Hb3).
  destruct (table_merge_spec _ _ _ _ Hb Hal Hk) as (l & Hl & _ & _ & _ & Hl3).
  destruct (table_merge_spec _ _ _ _ Hb Hi Hid) as (r & Hr & _ & _ & Hr2 & _).
  exists a, l. split; [done|]. split; [done|].
  split; [by rewrite Hr, Hr2|]. intros ->.
  assert (b = identity_state_index (this c)) as -> by congruence.
  destruct (Ha3 ltac:(by right)) as (si & sj & sa & Hsi & Hsj & Ea & Hsa).
  destruct (Hb3 ltac:(by right)) as (sj' & sk & sb & Hsj' & Hsk & Eb & Hsb).
  destruct (Hl3 ltac:(by right)) as (sa' & sk' & sl & Hsa' & Hsk' & El & Hsl).
  assert (sj' = sj) as -> by congruence.
  assert (sa' = sa) as -> by congruence.
  assert (sk' = sk) as -> by congruence.
  assert (si = ps) as -> by congruence.
  assert (sl = ps) as -> by congruence.
  assert (sb = identity_state (length dfa)) as ->.
  { destruct Hb as (_ & Hidst & _). congruence. }
  apply Hflag. eapply ParallelState_merge_identity_r_inv.
  by eapply ParallelState_merge_assoc.
Qed.

Lemma dfa_run_snoc dfa s bytes b :
  dfa_run dfa s (bytes ++ [b]) = dfa_step dfa (dfa_run dfa s bytes) b.
Proof. unfold dfa_run. by rewrite foldl_app. Qed.

Lemma scan_snoc (lx : ParallelLexer Lexeme) bytes b :
  scan lx (bytes ++ [b]) = scan lx bytes ≫= (fun r => scan_step lx r b).
Proof. unfold scan. by rewrite foldl_app. Qed.

(** The fold keeps an index whose state maps every DFA state [s] to the
    state the sequential automaton reaches from [s]. *)
Lemma scan_tracks dfa c bytes :
  built dfa c -> deterministic dfa ->
  Forall (fun b => b <= MAX_SYM) bytes ->
  exists r ps,
    scan (this c) bytes = Some r /\ states c !! r = Some ps /\
    forall s, s < length dfa ->
      exists t, ps !! s = Some t /\ result_state t = dfa_run dfa s bytes.
Proof.
  intros Hb Hdet. induction bytes as [|b bytes IH] using rev_ind; intros Hbytes.
  - exists (identity_state_index (this c)), (identity_state (length dfa)).
    split; [done|]. split; [by destruct Hb as (_ & ? & _)|].
    intros s Hs. exists (mkTransition s false).
    split; [by apply identity_state_lookup|done].
  - apply Forall_app in Hbytes as [Hbytes Hlast].
    apply Forall_inv in Hlast.
    destruct (IH Hbytes) as (r & ps & Hscan & Hps & Htrack).
    pose proof Hb as (_ & Hid & _ & _ & Hinit & _).
    destruct (Hinit b Hlast) as (pb & t0 & x & _ & Hx & Hpb & Hseed).
    pose proof (lookup_lt_Some _ _ _ Hps) as Hr.
    pose proof (lookup_lt_Some _ _ _ Hpb) as Hxl.
    destruct (built_cell _ _ _ _ Hb Hr Hxl)
      as (m & sr & tm & Hg & Hsr & _ & _ & Hl1 & Hl2 & Hl3).
    exists (result_state m), sr.
    split; [|split; [done|]].
    { rewrite scan_snoc, Hscan. simpl. unfold scan_step.
      rewrite Hx. simpl. rewrite Hg. done. }
    intros s Hs. rewrite dfa_run_snoc.
    destruct (Htrack s Hs) as (t & Ht & Hrun). rewrite <- Hrun.
    assert (result_state t < length dfa) as Hu
      by apply (Forall_lookup_1 _ _ _ _ (built_in_range _ _ _ _ Hb Hps) Ht).
    assert (forall u, u < length dfa ->
              exists v, pb !! u = Some v /\ result_state v = dfa_step dfa u b)
      as Hstep.
    { intros u Hu'. eexists. split; [by apply Hseed|].
      by apply seeded_slot_step. }
    destruct (decide (r = identity_state_index (this c))) as [Hr'|Hr'].
    { rewrite (Hl1 Hr') in Hsr. assert (sr = pb) as -> by congruence.
      rewrite Hr', Hid in Hps. inversion Hps; subst ps.
      rewrite identity_state_lookup in Ht by done. inversion Ht; subst t.
      simpl. by apply Hstep. }
    destruct (decide (x = identity_state_index (this c))) as [Hx'|Hx'].
    { rewrite (Hl2 Hx') in Hsr. assert (sr = ps) as -> by congruence.
      exists t. split; [done|].
      rewrite Hx', Hid in Hpb. inversion Hpb; subst pb.
      destruct (Hstep _ Hu) as (v & Hv & <-).
      rewrite identity_state_lookup in Hv by done. by inversion Hv. }
    destruct (Hl3 ltac:(by right)) as (ps1 & pb1 & ps' & H1 & H2 & Em & H3).
    assert (ps1 = ps) as -> by congruence.
    assert (pb1 = pb) as -> by congruence.
    assert (ps' = sr) as -> by congruence.
    rewrite (ParallelState_merge_lookup _ _ _ s Em), Ht. simpl.
    by apply Hstep.
Qed.

Lemma scan_final dfa c bytes :
  built dfa c -> deterministic dfa ->
  Forall (fun b => b <= MAX_SYM) bytes ->
  exists r,
    scan (this c) bytes = Some r /\
    final_states (this c) !! r
    = Some (lexeme_at dfa (dfa_run dfa START bytes)).
Proof.
  intros Hb Hdet Hbytes.
  destruct (scan_tracks _ _ _ Hb Hdet Hbytes) as (r & ps & Hscan & Hps & Htrack).
  exists r. split; [done|].
  destruct (Htrack START (built_START _ _ Hb)) as (t & Ht & <-).
  destruct Hb as (_ & _ & _ & _ & _ & _ & Hfin).
  destruct (Hfin _ _ Hps) as (t' & st & Ht' & Hst & Hf).
  assert (t' = t) as -> by congruence.
  unfold lexeme_at. by rewrite Hst.
Qed.

(** C1. On a completed artifact for a deterministic DFA, folding the
    per-byte entries of [initial_states] through the merge table, from the
    identity index, ends at an index whose [final_states] entry is the lexeme
    of the state the sequential automaton reaches from START on the same
    bytes. *)
Theorem scan_sound fuel dfa c bytes :
  ParallelLexer_new fuel dfa = Some c ->
  deterministic dfa ->
  Forall (fun b => b <= MAX_SYM) bytes ->
  exists r,
    scan (this c) bytes = Some r /\
    final_states (this c) !! r
    = Some (lexeme_at dfa (dfa_run dfa START bytes)).
Proof.
  intros E Hdet Hbytes. apply ParallelLexer_new_built in E.
  by apply scan_final.
Qed.

End ArtifactProperties.

(** ** The reject state through the construction

    When the reject state is a state of the automaton without outgoing
    transitions, every interned state keeps [(REJECT, false)] in its slot
    [REJECT]: the merges of the constructor meet the condition under which
    [ParallelState::merge] leaves rejected slots rejected. *)

Section RejectSlot.

Context {consts : Constants} {Lexeme : Type}.
Implicit Types c : Construction Lexeme.

Lemma enqueue_Forall (Q : list Transition -> Prop) ps c k c' :
  Forall Q (states c) -> Q ps -> enqueue ps c = Some (k, c') ->
  Forall Q (states c').
Proof.
  intros Hall Hps E. destruct (seen c !! ps) as [k0|] eqn:Hs.
  - rewrite (enqueue_seen _ _ _ Hs) in E. by inversion E; subst.
  - destruct (enqueue_fresh _ _ _ _ Hs E) as (_ & _ & -> & _).
    apply Forall_app. split; [done|]. by apply Forall_singleton.
Qed.

Lemma ParallelState_merge_reject_slot (ps other ps' : list Transition) :
  reject_slot ps -> reject_slot other ->
  ParallelState_merge ps other = Some ps' -> reject_slot ps'.
Proof.
  unfold reject_slot. intros Hps Hother E.
  by rewrite (ParallelState_merge_lookup _ _ _ REJECT E), Hps.
Qed.

Lemma merge_reject_slot i j c c' :
  Forall reject_slot (states c) -> merge i j c = Some c' ->
  Forall reject_slot (states c').
Proof.
  intros Hall E. apply merge_unfold in E
    as (result & c1 & sr & t & mt & Er & _ & _ & _ & ->). simpl.
  unfold merge_result in Er. repeat case_decide.
  - by inversion Er; subst.
  - by inversion Er; subst.
  - destruct (states c !! i) as [ps|] eqn:Hi; [|discriminate].
    destruct (states c !! j) as [other|] eqn:Hj; [|discriminate]. simpl in Er.
    destruct (ParallelState_merge ps other) as [ps'|] eqn:Em; [|discriminate].
    simpl in Er. eapply enqueue_Forall; [exact Hall| |exact Er].
    eapply ParallelState_merge_reject_slot; [| |exact Em].
    + apply (Forall_lookup_1 _ _ _ _ Hall Hi).
    + apply (Forall_lookup_1 _ _ _ _ Hall Hj).
Qed.

Lemma saturate_inner_reject_slot fuel : forall i j c c',
  Forall reject_slot (states c) -> saturate_inner fuel i j c = Some c' ->
  Forall reject_slot (states c').
Proof.
  induction fuel as [|fuel IH]; intros i j c c' Hall; simpl; case_decide;
    try discriminate; try (by intros [= <-]).
  destruct (merge i j c) as [c1|] eqn:E1; [|discriminate]. simpl.
  destruct (merge j i c1) as [c2|] eqn:E2; [|discriminate]. simpl.
  apply IH. eapply merge_reject_slot; [|exact E2].
  by eapply merge_reject_slot.
Qed.

Lemma saturate_reject_slot fuel : forall i c c',
  Forall reject_slot (states c) -> saturate fuel i c = Some c' ->
  Forall reject_slot (states c').
Proof.
  induction fuel as [|fuel IH]; intros i c c' Hall; simpl; case_decide;
    try discriminate; try (by intros [= <-]).
  destruct (saturate_inner fuel i 0 c) as [c1|] eqn:E1; [|discriminate].
  simpl. apply IH. by eapply saturate_inner_reject_slot.
Qed.

Lemma intern_initial_reject_slot (initial : list (list Transition)) sym c c' :
  Forall reject_slot initial -> Forall reject_slot (states c) ->
  intern_initial initial sym c = Some c' -> Forall reject_slot (states c').
Proof.
  intros Hinit Hall. unfold intern_initial.
  destruct (initial !! sym) as [state|] eqn:Hstate; [|discriminate]. simpl.
  destruct (state !! START) as [t|]; [|discriminate]. simpl.
  destruct (enqueue state c) as [[k c1]|] eqn:E; [|discriminate]. simpl.
  destruct (store _ _ _) as [v|]; [|discriminate]. simpl.
  intros [= <-]. simpl. eapply enqueue_Forall; [exact Hall| |exact E].
  apply (Forall_lookup_1 _ _ _ _ Hinit Hstate).
Qed.

Lemma reject_slot_throughout fuel (dfa : FiniteStateAutomaton Lexeme) c :
  REJECT < length dfa -> transitions_of dfa REJECT = [] ->
  ParallelLexer_new fuel dfa = Some c ->
  Forall reject_slot (states c).
Proof.
  intros Hrej Hnone. unfold ParallelLexer_new.
  destruct (seed_initial_states dfa) as [initial|] eqn:Eseed; [|discriminate].
  simpl. destruct (seed_initial_states_spec _ _ Eseed) as (Hli & Hu & Hslot).
  assert (Forall reject_slot initial) as Hinit.
  { apply Forall_lookup_2. intros b ps Hps.
    pose proof (lookup_lt_Some _ _ _ Hps) as Hb.
    assert (b <= MAX_SYM) as Hb' by lia.
    specialize (Hslot b REJECT Hb' Hrej). unfold slot in Hslot.
    rewrite Hps, Hnone in Hslot. exact Hslot. }
  destruct (for_upto _ _ _) as [c1|] eqn:E1; [|discriminate]. simpl.
  assert (Forall reject_slot (states c1)) as H1.
  { revert E1.
    apply (for_upto_preserves
             (fun c : Construction Lexeme => Forall reject_slot (states c))).
    - intros sym s1 s2. by apply intern_initial_reject_slot.
    - apply Forall_nil_2. }
  destruct (enqueue _ c1) as [[k c2]|] eqn:E2; [|discriminate]. simpl.
  assert (Forall reject_slot (states c2)) as H2.
  { eapply enqueue_Forall; [exact H1| |exact E2].
    unfold reject_slot. rewrite identity_state_lookup by exact Hrej.
    reflexivity. }
  destruct (saturate _ _ _) as [c3|] eqn:E3; [|discriminate]. simpl.
  destruct (fill_final_states dfa c3) as [final|]; [|discriminate]. simpl.
  intros [= <-]. simpl.
  eapply saturate_reject_slot; [|exact E3]. exact H2.
Qed.

End RejectSlot.

(** ** The bound on the saturation loops

    The bound only cuts the loops short: with a larger one the constructor
    returns the same construction. *)

Section Fuel.

Context {consts : Constants} {Lexeme : Type}.
Implicit Types c : Construction Lexeme.

Lemma saturate_inner_more_fuel fuel : forall fuel' i j c c',
  saturate_inner fuel i j c = Some c' -> fuel <= fuel' ->
  saturate_inner fuel' i j c = Some c'.
Proof.
  induction fuel as [|fuel IH]; intros fuel' i j c c'; simpl; case_decide;
    try discriminate.
  - intros [= <-] _. destruct fuel'; simpl; by rewrite decide_False.
  - intros E Hle. destruct fuel' as [|fuel']; [lia|]. simpl.
    rewrite decide_True by done.
    destruct (merge i j c) as [c1|]; [|discriminate]. simpl in *.
    destruct (merge j i c1) as [c2|]; [|discriminate]. simpl in *.
    apply IH; [done|lia].
  - intros [= <-] _. destruct fuel'; simpl; by rewrite decide_False.
Qed.

Lemma saturate_more_fuel fuel : forall fuel' i c c',
  saturate fuel i c = Some c' -> fuel <= fuel' ->
  saturate fuel' i c = Some c'.
Proof.
  induction fuel as [|fuel IH]; intros fuel' i c c'; simpl; case_decide;
    try discriminate.
  - intros [= <-] _. destruct fuel'; simpl; by rewrite decide_False.
  - intros E Hle. destruct fuel' as [|fuel']; [lia|]. simpl.
    rewrite decide_True by done.
    destruct (saturate_inner fuel i 0 c) as [c1|] eqn:E1; [|discriminate].
    rewrite (saturate_inner_more_fuel _ fuel' _ _ _ _ E1) by lia.
    simpl in *. apply IH; [done|lia].
  - intros [= <-] _. destruct fuel'; simpl; by rewrite decide_False.
Qed.

Lemma ParallelLexer_new_more_fuel fuel fuel'
    (dfa : FiniteStateAutomaton Lexeme) c :
  ParallelLexer_new fuel dfa = Some c -> fuel <= fuel' ->
  ParallelLexer_new fuel' dfa = Some c.
Proof.
  unfold ParallelLexer_new. intros E Hle.
  destruct (seed_initial_states dfa) as [initial|]; [|discriminate].
  simpl in *.
  destruct (for_upto _ _ _) as [c1|]; [|discriminate]. simpl in *.
  destruct (enqueue _ c1) as [[k c2]|]; [|discriminate]. simpl in *.
  destruct (saturate fuel _ _) as [c3|] eqn:E3; [|discriminate].
  by rewrite (saturate_more_fuel _ fuel' _ _ _ E3).
Qed.

End Fuel.

(** ** Counting the parallel states *)

Section Counting.

Context {consts : Constants} {Lexeme : Type}.
Implicit Types c : Construction Lexeme.

Lemma all_transitions_complete M t :
  result_state t < M -> t ∈ all_transitions M.
Proof.
  intros Ht. unfold all_transitions. apply list_elem_of_bind.
  exists (result_state t). split; [|apply elem_of_seq; lia].
  destruct t as [s []]; simpl.
  - apply list_elem_of_further, list_elem_of_here.
  - apply list_elem_of_here.
Qed.

Lemma all_states_S M n :
  all_states M (S n)
  = t ← all_transitions M; ps ← all_states M n; [t :: ps].
Proof. reflexivity. Qed.

Lemma all_states_complete M (ps : list Transition) :
  in_range M ps -> ps ∈ all_states M (length ps).
Proof.
  induction ps as [|t ps IH]; intros H.
  - apply list_elem_of_singleton. done.
  - inversion H as [|? ? Ht Hps]; subst.
    change (length (t :: ps)) with (S (length ps)). rewrite all_states_S.
    apply list_elem_of_bind. exists t.
    split; [|by apply all_transitions_complete].
    apply list_elem_of_bind. exists ps. split; [|by apply IH].
    by apply list_elem_of_ret.
Qed.

(** The interner holds distinct states, all among the finitely many states
    of width [N] over [N] result states. *)
Lemma states_bounded N c :
  build_inv N c -> Forall (in_range N) (states c) ->
  length (states c) <= length (all_states N N).
Proof.
  intros ((_ & _ & Hbij) & _ & Hw) Hrange. apply submseteq_length.
  apply NoDup_submseteq.
  - apply NoDup_alt. intros i j ps Hi Hj. apply Hbij in Hi, Hj. congruence.
  - intros ps Hin. apply list_elem_of_lookup_1 in Hin as [i Hi].
    pose proof (all_states_complete N ps
                  (Forall_lookup_1 _ _ _ _ Hrange Hi)) as Hin.
    by rewrite (Forall_lookup_1 _ _ _ _ Hw Hi) in Hin.
Qed.

End Counting.

(** ** Completion of the construction *)

Section Completion.

Context {consts : Constants} {Lexeme : Type}.
Implicit Types dfa : FiniteStateAutomaton Lexeme.
Implicit Types c : Construction Lexeme.

Hypothesis MIN_SIZE_pos : 0 < MIN_SIZE.
Hypothesis GROW_FACTOR_gt : 1 < GROW_FACTOR.

Lemma MergeTable_resize_total t n :
  MergeTable_wf t -> exists t', MergeTable_resize t n = Some t'.
Proof.
  intros Hwf. destruct (decide (n <= capacity t)) as [Hle|Hgt].
  - unfold MergeTable_resize. rewrite decide_True by done. eauto.
  - destruct (grow_capacity_spec n (Nat.max MIN_SIZE (capacity t)) n)
      as (k & Eg & _); [lia|done|lia|].
    destruct (MergeTable_resize_realloc t n _ Hwf ltac:(lia) Eg) as (p & E & _).
    eauto.
Qed.

Lemma MergeTable_set_total t i j v :
  MergeTable_wf t -> i < num_states t -> j < num_states t ->
  exists t', MergeTable_set t i j v = Some t'.
Proof.
  intros [Hc Hl] Hi Hj. unfold MergeTable_set, MergeTable_index, store.
  rewrite !decide_True by lia. rewrite decide_True by (rewrite Hl; nia).
  eauto.
Qed.

Lemma enqueue_total N ps c :
  build_inv N c -> exists k c', enqueue ps c = Some (k, c').
Proof.
  intros (_ & Hwf & _). unfold enqueue.
  destruct (seen c !! ps) as [k|]; [eauto|].
  destruct (MergeTable_resize_total (merge_table (this c))
              (length (states c) + 1) Hwf) as [t ->].
  simpl. eauto.
Qed.

Lemma enqueue_states ps c k c' :
  enqueue ps c = Some (k, c') ->
  states c' = states c \/ states c' = states c ++ [ps].
Proof.
  intros E. destruct (seen c !! ps) as [k0|] eqn:Hs.
  - rewrite (enqueue_seen _ _ _ Hs) in E. inversion E. by left.
  - destruct (enqueue_fresh _ _ _ _ Hs E) as (_ & _ & -> & _). by right.
Qed.

Lemma ParallelState_merge_range N (ps other ps' : list Transition) :
  in_range N other -> ParallelState_merge ps other = Some ps' ->
  in_range N ps'.
Proof.
  intros Ho E. apply Forall_lookup_2. intros s y Hy.
  rewrite (ParallelState_merge_lookup _ _ _ s E) in Hy.
  destruct (ps !! s) as [t|]; simpl in Hy; [|discriminate].
  by apply (Forall_lookup_1 _ _ _ _ Ho Hy).
Qed.

(** [merge] on interned indices returns. *)
Lemma merge_total N i j c :
  build_inv N c -> Forall (in_range N) (states c) -> START < N ->
  i < length (states c) -> j < length (states c) ->
  exists c', merge i j c = Some c' /\ Forall (in_range N) (states c').
Proof.
  intros Hb Hrange HS Hi Hj.
  assert (exists result c1,
             merge_result i j c = Some (result, c1) /\
             Forall (in_range N) (states c1)) as (result & c1 & Er & Hrange1).
  { unfold merge_result. repeat case_decide; [eauto..|].
    destruct (lookup_lt_is_Some_2 _ _ Hi) as [ps Hps].
    destruct (lookup_lt_is_Some_2 _ _ Hj) as [other Hother].
    rewrite Hps, Hother. simpl.
    pose proof Hb as (_ & _ & Hw).
    destruct (ParallelState_merge_defined ps other) as [ps' Em].
    { rewrite (Forall_lookup_1 _ _ _ _ Hw Hother).
      apply (Forall_lookup_1 _ _ _ _ Hrange Hps). }
    rewrite Em. simpl.
    destruct (enqueue_total N ps' c Hb) as (k & c1 & E).
    exists k, c1. split; [done|].
    eapply (enqueue_Forall (in_range N)); [done| |done].
    eapply ParallelState_merge_range; [|exact Em].
    apply (Forall_lookup_1 _ _ _ _ Hrange Hother). }
  destruct (merge_result_grows _ _ _ _ _ _ Hb Er) as (Hb1 & Hg1 & Hm).
  pose proof (grows_length _ _ Hg1) as Hl1.
  assert (exists sr, states c1 !! result = Some sr) as [sr Hsr].
  { unfold merged in Hm. repeat case_decide; subst.
    - apply lookup_lt_is_Some_2. lia.
    - apply lookup_lt_is_Some_2. lia.
    - destruct Hm as (_ & _ & ps' & _ & _ & _ & ?). eauto. }
  pose proof Hb1 as ((_ & Hmt & _) & Hwf1 & Hw1).
  unfold MergeTable_states in Hmt.
  destruct (lookup_lt_is_Some_2 sr START) as [t Ht].
  { by rewrite (Forall_lookup_1 _ _ _ _ Hw1 Hsr). }
  destruct (MergeTable_set_total (merge_table (this c1)) i j
              (mkTransition result (produces_lexeme t)) Hwf1)
    as [mt Hset]; [lia|lia|].
  exists (with_merge_table c1 mt). split; [|done].
  apply merge_unfold. by exists result, c1, sr, t, mt.
Qed.

Lemma saturate_inner_total N fuel : forall i j c,
  build_inv N c -> Forall (in_range N) (states c) -> START < N ->
  i < length (states c) -> length (all_states N N) - j <= fuel ->
  exists c', saturate_inner fuel i j c = Some c' /\
             Forall (in_range N) (states c').
Proof.
  induction fuel as [|fuel IH]; intros i j c Hb Hrange HS Hi Hfuel;
    pose proof (states_bounded _ _ Hb Hrange) as Hbound; simpl;
    case_decide as Hj; try lia; [eauto| |eauto].
  destruct (merge_total _ _ _ _ Hb Hrange HS Hi Hj) as (c1 & E1 & Hrange1).
  destruct (merge_grows _ _ _ _ _ Hb Hi Hj E1) as (Hb1 & Hg1 & _).
  pose proof (grows_length _ _ Hg1) as Hl1.
  assert (j < length (states c1)) as Hj1 by lia.
  assert (i < length (states c1)) as Hi1 by lia.
  destruct (merge_total _ _ _ _ Hb1 Hrange1 HS Hj1 Hi1) as (c2 & E2 & Hrange2).
  destruct (merge_grows _ _ _ _ _ Hb1 Hj1 Hi1 E2) as (Hb2 & Hg2 & _).
  pose proof (grows_length _ _ Hg2) as Hl2.
  rewrite E1. simpl. rewrite E2. simpl.
  apply IH; [done|done|done|lia|lia].
Qed.

Lemma saturate_total N fuel : forall i c,
  build_inv N c -> Forall (in_range N) (states c) -> START < N ->
  (forall a b, a < i -> b < i -> cell_ok c a b) ->
  2 * length (all_states N N) + 1 - i <= fuel ->
  exists c', saturate fuel i c = Some c' /\
             Forall (in_range N) (states c').
Proof.
  induction fuel as [|fuel IH]; intros i c Hb Hrange HS Hdone Hfuel;
    pose proof (states_bounded _ _ Hb Hrange) as Hbound; simpl;
    case_decide as Hi; try lia; [eauto| |eauto].
  destruct (saturate_inner_total N fuel i 0 c)
    as (c1 & E1 & Hrange1); [done|done|done|done|lia|].
  assert (forall b, b < 0 -> cell_ok c i b /\ cell_ok c b i) as H0
    by (intros; lia).
  destruct (saturate_inner_spec _ _ _ _ _ _ Hb Hi H0 E1) as (Hb1 & Hg1 & Hrow).
  pose proof (grows_length _ _ Hg1) as Hl1.
  rewrite E1. simpl. apply IH; [done|done|done| |lia].
  intros a b Ha Hlt.
  destruct (decide (a = i)) as [->|Hna]; [apply Hrow; lia|].
  destruct (decide (b = i)) as [->|Hnb]; [apply Hrow; lia|].
  apply Hg1, Hdone; lia.
Qed.

Lemma seed_transition_total N src tr (initial : list (list Transition)) :
  uniform N initial -> src < N ->
  (exists sym, maybe_sym tr = Some sym /\ sym < length initial) ->
  exists initial', seed_transition src tr initial = Some initial'.
Proof.
  intros Hu Hsrc (sym & Hsym & Hlt). unfold seed_transition. rewrite Hsym.
  simpl. destruct (lookup_lt_is_Some_2 _ _ Hlt) as [ps Hps]. rewrite Hps.
  simpl. unfold store.
  rewrite decide_True by (by rewrite (Forall_lookup_1 _ _ _ _ Hu Hps)).
  simpl. rewrite decide_True by done. eauto.
Qed.

Lemma seed_state_total N src trs : forall (initial : list (list Transition)),
  uniform N initial -> src < N ->
  Forall (fun tr => exists sym, maybe_sym tr = Some sym /\ sym < length initial)
         trs ->
  exists initial', for_each trs (seed_transition src) initial = Some initial'.
Proof.
  induction trs as [|tr trs IH]; intros initial Hu Hsrc Hall; simpl; [eauto|].
  inversion Hall as [|? ? Htr Hrest]; subst.
  destruct (seed_transition_total _ _ _ _ Hu Hsrc Htr) as [initial1 E1].
  rewrite E1. destruct (seed_transition_spec _ _ _ _ _ Hu E1) as (Hl1 & Hu1 & _).
  apply IH; [done|done|]. by rewrite Hl1.
Qed.

Lemma seed_rows_total dfa m : forall (initial0 : list (list Transition)),
  uniform (length dfa) initial0 -> length initial0 = MAX_SYM + 1 ->
  well_formed dfa -> m <= length dfa ->
  exists initial,
    for_upto m
      (fun src initial =>
         st ← dfa !! src;
         for_each (transitions st) (seed_transition src) initial)
      initial0 = Some initial.
Proof.
  intros initial0 Hu Hl (_ & _ & Hwf).
  induction m as [|m IH]; intros Hm; [by exists initial0|].
  destruct IH as [initial1 E1]; [lia|]. rewrite for_upto_S, E1.
  assert (m <= length dfa) as Hm' by lia.
  destruct (seed_rows_spec _ _ _ _ _ Hu Hm' E1) as (Hl1 & Hu1 & _).
  destruct (lookup_lt_is_Some_2 dfa m) as [st Hst]; [lia|]. rewrite Hst.
  simpl. apply (seed_state_total (length dfa)); [done|lia|].
  pose proof (Forall_lookup_1 _ _ _ _ Hwf Hst) as Htrs. simpl in Htrs.
  eapply Forall_impl; [exact Htrs|]. intros tr ((sym & Hsym & Hle) & _).
  exists sym. split; [done|]. lia.
Qed.

Lemma seeded_slot_in_range N trs b init :
  Forall (fun tr => dst tr < N) trs -> result_state init < N ->
  result_state (seeded_slot trs b init) < N.
Proof.
  revert init. induction trs as [|tr trs IH]; intros init Hall Hinit; [done|].
  inversion Hall; subst. unfold seeded_slot in *. simpl.
  apply IH; [done|]. by case_decide.
Qed.

Lemma seed_initial_states_in_range dfa (initial : list (list Transition)) :
  well_formed dfa -> seed_initial_states dfa = Some initial ->
  Forall (in_range (length dfa)) initial.
Proof.
  intros (_ & Hrej & Hwf) E.
  destruct (seed_initial_states_spec _ _ E) as (Hl & Hu & Hslot).
  apply Forall_lookup_2. intros b ps Hps. apply Forall_lookup_2.
  intros s t Ht.
  pose proof (lookup_lt_Some _ _ _ Hps) as Hb.
  pose proof (lookup_lt_Some _ _ _ Ht) as Hs.
  rewrite (Forall_lookup_1 _ _ _ _ Hu Hps) in Hs.
  assert (b <= MAX_SYM) as Hb' by lia.
  specialize (Hslot b s Hb' Hs). unfold slot in Hslot.
  rewrite Hps in Hslot. simpl in Hslot. rewrite Ht in Hslot.
  inversion Hslot as [Heq]. apply seeded_slot_in_range; [|done].
  unfold transitions_of. destruct (dfa !! s) as [st|] eqn:Hst; [|done].
  pose proof (Forall_lookup_1 _ _ _ _ Hwf Hst) as Htrs. simpl in Htrs.
  eapply Forall_impl; [exact Htrs|]. by intros tr [_ ?].
Qed.

Lemma intern_loop_total N (initial : list (list Transition)) m : forall c0,
  build_inv N c0 -> Forall (in_range N) (states c0) ->
  uniform N initial -> Forall (in_range N) initial -> START < N ->
  m <= length initial ->
  length (initial_states (this c0)) = length initial ->
  exists c1, for_upto m (intern_initial initial) c0 = Some c1 /\
             Forall (in_range N) (states c1).
Proof.
  intros c0 Hb0 Hr0 Hu Hri HS. induction m as [|m IH]; intros Hm Hl0.
  - by exists c0.
  - destruct IH as (cm & Em & Hrm); [lia|done|].
    assert (m <= length initial) as Hm' by lia.
    destruct (intern_loop_spec _ _ _ _ _ Hb0 Hu Hm' Hl0 Em)
      as (Hbm & Hlm & _).
    rewrite for_upto_S, Em. unfold intern_initial.
    destruct (lookup_lt_is_Some_2 initial m) as [state Hstate]; [lia|].
    rewrite Hstate. simpl.
    destruct (lookup_lt_is_Some_2 state START) as [t Ht].
    { by rewrite (Forall_lookup_1 _ _ _ _ Hu Hstate). }
    rewrite Ht. simpl.
    destruct (enqueue_total N state cm Hbm) as (k & c' & E). rewrite E. simpl.
    destruct (enqueue_grows _ _ _ _ _ Hbm
                (Forall_lookup_1 _ _ _ _ Hu Hstate) E)
      as (_ & (_ & Hin & _) & _).
    unfold store. rewrite decide_True by (rewrite Hin; lia). simpl.
    eexists. split; [done|]. simpl.
    eapply (enqueue_Forall (in_range N)); [done| |done].
    apply (Forall_lookup_1 _ _ _ _ Hri Hstate).
Qed.

Lemma final_loop_total dfa (l : list (list Transition * StateIndex)) :
  forall final0 : list (option Lexeme),
  Forall (fun entry =>
            (exists t st, entry.1 !! START = Some t /\
                          dfa !! result_state t = Some st) /\
            entry.2 < length final0) l ->
  exists final,
    for_each l
      (fun entry final =>
         t ← entry.1 !! START;
         st ← dfa !! result_state t;
         store final entry.2 (lexeme st)) final0 = Some final.
Proof.
  induction l as [|[ps i] l IH]; intros final0 Hall; simpl; [eauto|].
  inversion Hall as [|? ? [(t & st & Ht & Hst) Hi] Hrest]; subst.
  simpl in *. rewrite Ht. simpl. rewrite Hst. simpl. unfold store.
  rewrite decide_True by done. apply IH.
  eapply Forall_impl; [exact Hrest|]. intros entry [? ?].
  split; [done|]. by rewrite length_insert.
Qed.

Lemma fill_final_states_total dfa c :
  build_inv (length dfa) c -> Forall (in_range (length dfa)) (states c) ->
  START < length dfa ->
  exists final, fill_final_states dfa c = Some final.
Proof.
  intros ((Hsz & _ & Hbij) & _ & Hw) Hrange HS. unfold fill_final_states.
  apply final_loop_total. apply Forall_forall. intros [ps i] Hin.
  apply elem_of_map_to_list in Hin. apply Hbij in Hin. simpl.
  rewrite length_replicate, Hsz. split; [|by eapply lookup_lt_Some].
  destruct (lookup_lt_is_Some_2 ps START) as [t Ht].
  { by rewrite (Forall_lookup_1 _ _ _ _ Hw Hin). }
  destruct (lookup_lt_is_Some_2 dfa (result_state t)) as [st Hst].
  { apply (Forall_lookup_1 _ _ _ _ (Forall_lookup_1 _ _ _ _ Hrange Hin) Ht). }
  eauto.
Qed.

Lemma identity_state_in_range N : in_range N (identity_state N).
Proof.
  apply Forall_lookup_2. intros s t Hs.
  pose proof (lookup_lt_Some _ _ _ Hs) as Hlt.
  rewrite identity_state_length in Hlt.
  rewrite identity_state_lookup in Hs by done. by inversion Hs.
Qed.

(** On a well-formed automaton the constructor returns: no assertion fails,
    no access leaves a vector, and the saturation ends within a number of
    sweeps bounded by the number of parallel states. *)
Theorem ParallelLexer_new_completes dfa :
  well_formed dfa ->
  exists c,
    ParallelLexer_new
      (2 * length (all_states (length dfa) (length dfa)) + 1) dfa = Some c.
Proof.
  intros Hwf. pose proof Hwf as (HS & Hrej & _).
  remember (2 * length (all_states (length dfa) (length dfa)) + 1) as fuel
    eqn:Hfuel.
  unfold ParallelLexer_new.
  destruct (seed_rows_total dfa (length dfa)
              (replicate (MAX_SYM + 1) (ParallelState_new (length dfa))))
    as [initial Eseed]; [|by rewrite length_replicate|done|done|].
  { apply Forall_replicate. unfold ParallelState_new.
    by rewrite length_replicate. }
  fold (seed_initial_states dfa) in Eseed. rewrite Eseed. simpl.
  destruct (seed_initial_states_spec _ _ Eseed) as (Hli & Hu & _).
  pose proof (seed_initial_states_in_range _ _ Hwf Eseed) as Hri.
  assert (build_inv (Lexeme:=Lexeme) (length dfa)
            (mkConstruction
               (mkParallelLexer (replicate (length initial) Transition_default)
                                MergeTable_new 0 [])
               ∅ [])) as Hb0.
  { split; [apply interner_inv_start|]. split; [done|apply Forall_nil_2]. }
  destruct (intern_loop_total _ _ (length initial) _ Hb0 (Forall_nil_2 _)
              Hu Hri HS (le_n _) (length_replicate _ _)) as (c1 & E1 & Hr1).
  rewrite E1. simpl.
  destruct (intern_loop_spec _ _ _ _ _ Hb0 Hu (le_n _)
              (length_replicate _ _) E1) as (Hb1 & _).
  destruct (enqueue_total _ (identity_state (length dfa)) c1 Hb1)
    as (k & c2 & E2).
  rewrite E2. simpl.
  destruct (enqueue_grows _ _ _ _ _ Hb1 (identity_state_length _) E2)
    as (Hb2 & _).
  pose proof (enqueue_Forall (in_range (length dfa)) _ _ _ _ Hr1
                (identity_state_in_range _) E2) as Hr2.
  assert (build_inv (length dfa) (with_identity_state_index c2 k)) as Hb2'
    by exact Hb2.
  assert (forall a b, a < 0 -> b < 0 ->
            cell_ok (with_identity_state_index c2 k) a b) as H0
    by (intros; lia).
  destruct (saturate_total (length dfa) fuel 0
              (with_identity_state_index c2 k) Hb2' Hr2 HS H0)
    as (c3 & E3 & Hr3); [lia|].
  rewrite E3. simpl.
  destruct (saturate_spec _ _ _ _ _ Hb2' H0 E3) as (Hb3 & _).
  destruct (fill_final_states_total dfa c3 Hb3 Hr3 HS) as [final E4].
  rewrite E4. simpl. eauto.
Qed.

(** On a well-formed deterministic automaton the constructor returns an
    artifact on which the fold agrees with the sequential automaton. *)
Corollary scan_sound_on_well_formed dfa :
  well_formed dfa -> deterministic dfa ->
  exists fuel c,
    ParallelLexer_new fuel dfa = Some c /\
    forall bytes, Forall (fun b => b <= MAX_SYM) bytes ->
      exists r,
        scan (this c) bytes = Some r /\
        final_states (this c) !! r
        = Some (lexeme_at dfa (dfa_run dfa START bytes)).
Proof.
  intros Hwf Hdet. destruct (ParallelLexer_new_completes dfa Hwf) as [c E].
  eexists _, c. split; [exact E|]. intros bytes Hbytes.
  apply scan_final; [by eapply ParallelLexer_new_built|done..].
Qed.

End Completion.

(** ** Further properties of parallel states and of the merge table *)

Section StateAndTableProperties.

Context {consts : Constants}.

Lemma ParallelState_eq_true (lhs : list Transition) : forall rhs,
  ParallelState_eq lhs rhs = true <-> lhs = rhs.
Proof.
  induction lhs as [|[r1 f1] lhs IH]; intros [|[r2 f2] rhs]; simpl;
    try (split; [discriminate|done]); [done|].
  rewrite !andb_true_iff, Nat.eqb_eq, Bool.eqb_true_iff, IH. split.
  - by intros [[-> ->] ->].
  - intros [= -> -> ->]. done.
Qed.

(** X1. [operator==] holds exactly of parallel states that are the same
    sequence of transitions (states of different widths are never equal),
    and the hash of equal states is the same, whatever [hash_combine] is:
    the two meet the contract of the map [seen]. *)
Theorem ParallelState_eq_spec (combine_index : nat -> nat -> nat)
    (combine_flag : nat -> bool -> nat) (lhs rhs : list Transition) :
  (ParallelState_eq lhs rhs = true <-> lhs = rhs) /\
  (length lhs <> length rhs -> ParallelState_eq lhs rhs = false) /\
  (ParallelState_eq lhs rhs = true ->
   ParallelState_Hash combine_index combine_flag lhs
   = ParallelState_Hash combine_index combine_flag rhs).
Proof.
  split; [apply ParallelState_eq_true|]. split.
  - intros Hlen. destruct (ParallelState_eq lhs rhs) eqn:E; [|done].
    apply ParallelState_eq_true in E. by subst.
  - intros E. apply ParallelState_eq_true in E. by subst.
Qed.

(** X2. [ParallelState::merge] stays inside [other] exactly when every
    result state of [self] is a slot of [other]; it then keeps the width of
    [self] and puts [other[self[s].result_state]] in every slot [s]. *)
Theorem ParallelState_merge_defined_iff (self other : list Transition) :
  (is_Some (ParallelState_merge self other) <->
   Forall (fun t => result_state t < length other) self) /\
  forall r, ParallelState_merge self other = Some r ->
    length r = length self /\
    forall s t, self !! s = Some t -> r !! s = other !! result_state t.
Proof.
  split.
  - split.
    + intros [r E]. by eapply ParallelState_merge_in_range.
    + intros H. destruct (ParallelState_merge_defined _ _ H) as [r E]. eauto.
  - intros r E. split; [by eapply ParallelState_merge_length|].
    intros s t Hs. by rewrite (ParallelState_merge_lookup _ _ _ s E), Hs.
Qed.

Lemma ParallelState_merge_assoc_rev (p q r pq qr x : list Transition) :
  ParallelState_merge p q = Some pq ->
  ParallelState_merge q r = Some qr ->
  ParallelState_merge p qr = Some x ->
  ParallelState_merge pq r = Some x.
Proof.
  intros Epq Eqr Ex. apply mapM_Some_2. apply Forall2_same_length_lookup_2.
  - rewrite (ParallelState_merge_length _ _ _ Epq).
    by rewrite (ParallelState_merge_length _ _ _ Ex).
  - intros s t y Hs Hy.
    rewrite (ParallelState_merge_lookup _ _ _ s Ex) in Hy.
    rewrite (ParallelState_merge_lookup _ _ _ s Epq) in Hs.
    destruct (p !! s) as [u|]; simpl in *; [|discriminate].
    rewrite (ParallelState_merge_lookup _ _ _ (result_state u) Eqr) in Hy.
    rewrite Hs in Hy. exact Hy.
Qed.

(** X3. Composition by [ParallelState::merge] is associative: for states
    [p], [q], [r] whose compositions [p;q] and [q;r] are defined, merging
    [p;q] with [r] and merging [p] with [q;r] give the same result, and one
    is defined exactly when the other is. *)
Theorem ParallelState_merge_associative (p q r pq qr : list Transition) :
  ParallelState_merge p q = Some pq ->
  ParallelState_merge q r = Some qr ->
  ParallelState_merge pq r = ParallelState_merge p qr.
Proof.
  intros Epq Eqr.
  destruct (ParallelState_merge pq r) as [x|] eqn:E1.
  - symmetry. by eapply ParallelState_merge_assoc.
  - destruct (ParallelState_merge p qr) as [y|] eqn:E2; [|done].
    pose proof (ParallelState_merge_assoc_rev _ _ _ _ _ _ Epq Eqr E2).
    congruence.
Qed.

(** X4. The identity mapping is a left unit of [ParallelState::merge], but
    on the right it only keeps the result states: the merge copies the
    lexeme flags of its right operand, and those of the identity are all
    clear. *)
Theorem ParallelState_merge_identity N (ps : list Transition) :
  length ps = N -> in_range N ps ->
  ParallelState_merge (identity_state N) ps = Some ps /\
  ParallelState_merge ps (identity_state N) = Some (clear_flags ps).
Proof.
  intros Hl Hr. split.
  - apply mapM_Some_2. apply Forall2_same_length_lookup_2.
    + unfold identity_state, ParallelState_new.
      by rewrite length_imap, length_replicate.
    + intros s t y Hs Hy. pose proof (lookup_lt_Some _ _ _ Hy) as Hlt.
      unfold identity_state, ParallelState_new in Hs.
      rewrite list_lookup_imap, lookup_replicate_2 in Hs by lia.
      inversion Hs; subst. done.
  - apply mapM_Some_2. apply Forall2_same_length_lookup_2.
    + unfold clear_flags. by rewrite length_fmap.
    + intros s t y Hs Hy. unfold clear_flags in Hy.
      rewrite list_lookup_fmap, Hs in Hy. inversion Hy; subst.
      pose proof (Forall_lookup_1 _ _ _ _ Hr Hs) as Hlt. simpl in Hlt.
      unfold identity_state, ParallelState_new.
      rewrite list_lookup_imap, lookup_replicate_2 by done. done.
Qed.

Lemma ParallelState_merge_dead_r N (ps : list Transition) :
  length ps = N -> in_range N ps ->
  ParallelState_merge ps (dead_state N) = Some (dead_state N).
Proof.
  intros Hl Hr. unfold dead_state.
  apply mapM_Some_2. apply Forall2_same_length_lookup_2.
  - by rewrite length_replicate.
  - intros s t y Hs Hy. apply lookup_replicate in Hy as [-> _].
    apply lookup_replicate_2. apply (Forall_lookup_1 _ _ _ _ Hr Hs).
Qed.

Lemma ParallelState_merge_dead_l N (ps : list Transition) :
  reject_slot ps ->
  ParallelState_merge (dead_state N) ps = Some (dead_state N).
Proof.
  intros Hrej. unfold dead_state.
  apply mapM_Some_2. apply Forall2_same_length_lookup_2; [done|].
  intros s t y Hs Hy. apply lookup_replicate in Hs as [-> _].
  apply lookup_replicate in Hy as [-> _]. exact Hrej.
Qed.

(** X5. The state whose slots are all rejected absorbs on both sides, each
    side under its own condition: merged after a state [ps] it is itself
    exactly when [ps] has its width and result states in range; merged
    before [ps] it is itself exactly when its width is zero or [ps] holds
    [(REJECT, false)] in its slot [REJECT]. *)
Theorem dead_state_absorbing N (ps : list Transition) :
  (ParallelState_merge ps (dead_state N) = Some (dead_state N) <->
   length ps = N /\ in_range N ps) /\
  (ParallelState_merge (dead_state N) ps = Some (dead_state N) <->
   N = 0 \/ reject_slot ps).
Proof.
  split; split.
  - intros E. apply mapM_Some_1 in E.
    pose proof (Forall2_length _ _ _ E) as Hl.
    unfold dead_state in Hl. rewrite length_replicate in Hl.
    split; [done|]. apply Forall_lookup_2. intros s t Hs.
    destruct (Forall2_lookup_l _ _ _ _ _ E Hs) as (y & _ & Hy).
    apply lookup_lt_Some in Hy. unfold dead_state in Hy.
    by rewrite length_replicate in Hy.
  - intros [Hl Hr]. by apply ParallelState_merge_dead_r.
  - intros E. destruct N as [|N]; [by left|]. right.
    apply mapM_Some_1 in E.
    apply (Forall2_lookup_lr _ _ _ 0 Transition_default Transition_default E);
      unfold dead_state; apply lookup_replicate_2; lia.
  - intros [->|Hrej]; [done|]. by apply ParallelState_merge_dead_l.
Qed.
(** X6. On a table that satisfies the class invariant, the offsets of the
    coordinates below [states()] lie inside the storage, and two different
    pairs of coordinates never share an offset. *)
Theorem MergeTable_index_injective t first second first' second' :
  MergeTable_wf t ->
  first < MergeTable_states t -> second < MergeTable_states t ->
  first' < MergeTable_states t -> second' < MergeTable_states t ->
  exists k k',
    MergeTable_index t first second = Some k /\
    MergeTable_index t first' second' = Some k' /\
    k < length (cells t) /\ k' < length (cells t) /\
    (k = k' -> first = first' /\ second = second').
Proof.
  unfold MergeTable_states. intros [Hc Hl] H1 H2 H3 H4.
  exists (first + second * capacity t), (first' + second' * capacity t).
  unfold MergeTable_index. rewrite !decide_True by lia.
  split; [done|]. split; [done|]. rewrite Hl.
  split; [nia|]. split; [nia|]. intros E.
  apply coord_inj in E; [done|lia..].
Qed.

(** X7. A write through [operator()] at coordinates below [states()] of a
    table that satisfies the class invariant succeeds; the cell then reads
    back the value written, every other cell of the logical table reads as
    before, and side, capacity and class invariant are kept. *)
Theorem MergeTable_set_get t i j v :
  MergeTable_wf t -> i < MergeTable_states t -> j < MergeTable_states t ->
  exists t',
    MergeTable_set t i j v = Some t' /\
    MergeTable_wf t' /\ MergeTable_states t' = MergeTable_states t /\
    capacity t' = capacity t /\
    MergeTable_get t' i j = Some v /\
    forall a b, a < MergeTable_states t -> b < MergeTable_states t ->
      (a, b) <> (i, j) -> MergeTable_get t' a b = MergeTable_get t a b.
Proof.
  unfold MergeTable_states. intros Hwf Hi Hj.
  assert (exists t', MergeTable_set t i j v = Some t') as [t' E].
  { destruct Hwf as [Hc Hl]. unfold MergeTable_set, MergeTable_index, store.
    rewrite !decide_True by lia. rewrite decide_True by (rewrite Hl; nia).
    eauto. }
  exists t'. split; [done|].
  destruct (MergeTable_set_spec _ _ _ _ _ Hwf Hi Hj E) as (Hwf' & Hn & Hg & Hf).
  destruct (MergeTable_set_states _ _ _ _ _ E) as (_ & Hcap & _).
  done.
Qed.

Lemma size_t_square_fits_size c : size_t_square_fits c -> is_size_t c.
Proof. unfold size_t_square_fits, is_size_t. nia. Qed.

Lemma grow_capacity_size_t_stuck fuel c n :
  c < n -> size_t_mul c GROW_FACTOR = c -> grow_capacity_size_t fuel c n = None.
Proof.
  intros Hlt Hfix. induction fuel as [|fuel IH]; simpl;
    rewrite decide_True by done; [done|]. by rewrite Hfix.
Qed.

Lemma size_t_mul_0_l b : size_t_mul 0 b = 0.
Proof. unfold size_t_mul, size_t_wrap. by rewrite N.mul_0_l, N.Div0.mod_0_l. Qed.

Lemma size_t_mul_0_r a : size_t_mul a 0 = 0.
Proof. unfold size_t_mul, size_t_wrap. by rewrite N.mul_0_r, N.Div0.mod_0_l. Qed.

(** When the products reach a multiple of [2 ^ 64] before they reach the
    new side, the capacity wraps to zero and the loop never ends. *)
Lemma grow_capacity_size_t_wraps k : forall c fuel n,
  is_size_t c -> is_size_t n -> 0 < n ->
  (forall k', k' < k -> c * GROW_FACTOR ^ k' < n) ->
  (N.of_nat (c * GROW_FACTOR ^ k) mod 2 ^ SIZE_BITS = 0)%N ->
  grow_capacity_size_t fuel c n = None.
Proof.
  induction k as [|k IH]; intros c fuel n Hc Hn Hpos Hlt Hz.
  - rewrite Nat.pow_0_r, Nat.mul_1_r in Hz.
    unfold is_size_t in Hc. rewrite N.mod_small in Hz by done.
    assert (c = 0) as -> by lia.
    apply grow_capacity_size_t_stuck; [done|apply size_t_mul_0_l].
  - pose proof (Hlt 0 ltac:(lia)) as H0. rewrite Nat.pow_0_r, Nat.mul_1_r in H0.
    destruct fuel as [|fuel]; simpl; rewrite decide_True by done; [done|].
    rewrite Nat.pow_succ_r', Nat.mul_assoc in Hz.
    destruct k as [|k].
    + rewrite Nat.pow_0_r, Nat.mul_1_r in Hz.
      replace (size_t_mul c GROW_FACTOR) with 0.
      { apply grow_capacity_size_t_stuck; [done|apply size_t_mul_0_l]. }
      unfold size_t_mul, size_t_wrap. rewrite <- Nat2N.inj_mul, Hz. done.
    + pose proof (Hlt 1 ltac:(lia)) as H1. rewrite Nat.pow_1_r in H1.
      assert (is_size_t (c * GROW_FACTOR)) as Hcg.
      { unfold is_size_t in *. lia. }
      rewrite size_t_mul_fits by (unfold is_size_t in Hcg; lia).
      apply IH; [done..| |done].
      intros k' Hk'. specialize (Hlt (S k') ltac:(lia)).
      by rewrite Nat.pow_succ_r', Nat.mul_assoc in Hlt.
Qed.

(** The loop in [size_t] ends only from a positive capacity and with a
    factor of at least two. *)
Lemma grow_capacity_size_t_ends fuel c n r :
  is_size_t c ->
  grow_capacity_size_t fuel c n = Some r -> c < n -> 0 < c /\ 1 < GROW_FACTOR.
Proof.
  intros Hc E Hlt.
  destruct (decide (c = 0)) as [->|Hc0].
  { rewrite grow_capacity_size_t_stuck in E by (lia || apply size_t_mul_0_l).
    discriminate. }
  destruct (decide (GROW_FACTOR = 0)) as [H0|H0].
  { destruct fuel; simpl in E; rewrite decide_True in E by done;
      [discriminate|].
    rewrite H0, size_t_mul_0_r in E.
    rewrite grow_capacity_size_t_stuck in E by (lia || apply size_t_mul_0_l).
    discriminate. }
  destruct (decide (GROW_FACTOR = 1)) as [H1|H1].
  { rewrite grow_capacity_size_t_stuck in E; [discriminate|done|].
    rewrite H1. rewrite size_t_mul_fits by (unfold is_size_t in Hc; lia). lia. }
  lia.
Qed.

(** While the new side times the factor is a value of [size_t], the loop
    in [size_t] is the loop over unbounded numbers. *)
Lemma grow_capacity_size_t_unbounded fuel : forall c n,
  is_size_t (n * GROW_FACTOR) ->
  grow_capacity_size_t fuel c n = grow_capacity fuel c n.
Proof.
  induction fuel as [|fuel IH]; intros c n Hn; simpl; case_decide; try done.
  rewrite size_t_mul_fits by (unfold is_size_t in Hn; nia). by apply IH.
Qed.

Lemma grow_capacity_fuel fuel c n :
  n <= fuel -> grow_capacity fuel c n = grow_capacity n c n.
Proof.
  intros Hle. destruct (grow_capacity n c n) as [r|] eqn:En.
  - by apply (grow_capacity_more_fuel n).
  - destruct (grow_capacity fuel c n) as [r|] eqn:Ef; [|done].
    apply grow_capacity_enough in Ef. congruence.
Qed.

Lemma grow_capacity_bound fuel : forall c n r,
  grow_capacity fuel c n = Some r -> r <= Nat.max c (n * GROW_FACTOR).
Proof.
  induction fuel as [|fuel IH]; intros c n r; simpl; case_decide;
    try discriminate; try (intros [= <-]; lia).
  intros E. apply IH in E. nia.
Qed.

(** On a table that satisfies the class invariant, [resize] in [size_t] is
    [resize] over unbounded numbers as long as the square of the larger of
    [max(MIN_SIZE, capacity)] and the new side times [GROW_FACTOR] fits. *)
Lemma MergeTable_resize_size_t_unbounded fuel t n :
  MergeTable_wf t ->
  size_t_square_fits
    (Nat.max (Nat.max MIN_SIZE (capacity t)) (n * GROW_FACTOR)) ->
  n <= fuel ->
  MergeTable_resize_size_t fuel t n = MergeTable_resize t n.
Proof.
  intros Hwf Hfit Hfuel. unfold MergeTable_resize_size_t, MergeTable_resize.
  case_decide as Hle; [done|].
  rewrite grow_capacity_size_t_unbounded, grow_capacity_fuel; [|done|].
  2:{ apply size_t_square_fits_size.
      eapply size_t_square_fits_le; [|exact Hfit]. lia. }
  destruct (grow_capacity n _ n) as [nc|] eqn:Eg; [|done].
  pose proof (grow_capacity_bound _ _ _ _ Eg) as Hb.
  pose proof (grow_capacity_result _ _ _ _ Eg) as Hn.
  pose proof (size_t_square_fits_le _ _ Hb Hfit) as Hnc.
  rewrite size_t_mul_fits by exact Hnc.
  rewrite (for_upto_ext _ _ (fun second =>
             for_upto (num_states t) (resize_copy t nc second))); [done|].
  intros second p' Hs. apply for_upto_ext. intros first p'' Hf.
  apply resize_copy_size_t_unbounded; (done || lia).
Qed.

Lemma MergeTable_resize_returns t n :
  MergeTable_wf t ->
  n <= Nat.max MIN_SIZE (capacity t) \/
  (0 < Nat.max MIN_SIZE (capacity t) /\ 1 < GROW_FACTOR) ->
  is_Some (MergeTable_resize t n).
Proof.
  intros Hwf Hside. destruct (decide (n <= capacity t)) as [Hle|Hgt].
  { unfold MergeTable_resize. rewrite decide_True by done. eauto. }
  assert (capacity t < n) as Hlt by lia.
  assert (exists nc,
             grow_capacity n (Nat.max MIN_SIZE (capacity t)) n = Some nc)
    as [nc Eg].
  { destruct Hside as [Hle|[Hc Hg]].
    - exists (Nat.max MIN_SIZE (capacity t)). apply grow_capacity_done. lia.
    - destruct (grow_capacity_spec n (Nat.max MIN_SIZE (capacity t)) n)
        as (k & Eg & _); [done|done|lia|]. eauto. }
  destruct (MergeTable_resize_realloc t n _ Hwf Hlt Eg) as (p & E & _).
  eauto.
Qed.

Lemma resize_copy_size_t_length t nc second first p p' :
  resize_copy_size_t t nc second first p = Some p' -> length p' = length p.
Proof.
  unfold resize_copy_size_t.
  destruct (MergeTable_get_size_t t first second); [|discriminate].
  intros E. apply store_Some in E as [_ ->]. by rewrite length_insert.
Qed.

Lemma resize_copy_loops_length t nc m w p p' :
  for_upto m (fun second => for_upto w (resize_copy_size_t t nc second)) p
  = Some p' ->
  length p' = length p.
Proof.
  apply (for_upto_preserves (fun q => length q = length p)); [|done].
  intros second q1 q2 Hq1.
  apply (for_upto_preserves (fun q => length q = length p)); [|done].
  intros first q3 q4 Hq3 E. by rewrite (resize_copy_size_t_length _ _ _ _ _ _ E).
Qed.

(** X8. What [resize], with its arithmetic in [size_t], returns on a
    table that satisfies the class invariant: the side is the new side, the
    capacity is at least the new side and never lower than before, and a
    resize within the capacity does not touch the cells.  After a
    reallocation the array has [capacity * capacity] cells modulo [2 ^ 64],
    so the class invariant is kept exactly when no reallocation happens or
    the square of the new capacity is a value of [size_t]. *)
Theorem MergeTable_resize_invariant fuel t n t' :
  MergeTable_wf t -> MergeTable_resize_size_t fuel t n = Some t' ->
  MergeTable_states t' = n /\ n <= capacity t' /\
  capacity t <= capacity t' /\
  (n <= capacity t -> capacity t' = capacity t /\ cells t' = cells t) /\
  (capacity t < n ->
   length (cells t') = size_t_mul (capacity t') (capacity t')) /\
  (MergeTable_wf t' <-> n <= capacity t \/ size_t_square_fits (capacity t')).
Proof.
  intros Hwf E. unfold MergeTable_resize_size_t in E.
  destruct (decide (n <= capacity t)) as [Hle|Hgt].
  - inversion E; subst; clear E. destruct Hwf as [Hc Hl]. simpl.
    split; [done|]. split; [done|]. split; [done|]. split; [done|].
    split; [lia|]. split; [by left|]. intros _. split; done.
  - destruct (grow_capacity_size_t fuel _ n) as [nc|] eqn:Eg; [|discriminate].
    destruct (for_upto _ _ _) as [p|] eqn:Ep; [|discriminate].
    inversion E; subst; clear E. simpl.
    pose proof (grow_capacity_size_t_result _ _ _ _ Eg) as Hn.
    apply resize_copy_loops_length in Ep as Hlp.
    rewrite length_replicate in Hlp.
    split; [done|]. split; [done|]. split; [lia|]. split; [lia|].
    split; [done|]. unfold MergeTable_wf, size_t_square_fits; simpl.
    rewrite Hlp. unfold size_t_mul, size_t_wrap. split.
    + intros [_ Hsq]. right.
      pose proof (N.mod_upper_bound (N.of_nat nc * N.of_nat nc)
                    (2 ^ SIZE_BITS)%N ltac:(unfold SIZE_BITS; lia)) as Hup.
      lia.
    + intros [Hle|Hfit]; [lia|]. split; [done|].
      rewrite N.mod_small by done. lia.
Qed.

(** X9. On a table that satisfies the class invariant.  While the square
    of the larger of [max(MIN_SIZE, capacity)] and the new side times
    [GROW_FACTOR] is a value of [size_t], [resize] returns exactly when the
    new side is at most [max(MIN_SIZE, capacity)], or that maximum is
    positive and [GROW_FACTOR] is at least two.  Beyond that range the
    product can wrap: when [max(MIN_SIZE, capacity) * GROW_FACTOR ^ k] is a
    multiple of [2 ^ 64] and the products before it are below the new side,
    the capacity becomes zero and the growth loop never ends, however long
    it runs. *)
Theorem MergeTable_resize_returns_iff t n :
  MergeTable_wf t ->
  (size_t_square_fits
     (Nat.max (Nat.max MIN_SIZE (capacity t)) (n * GROW_FACTOR)) ->
   ((exists fuel, is_Some (MergeTable_resize_size_t fuel t n)) <->
    n <= Nat.max MIN_SIZE (capacity t) \/
    (0 < Nat.max MIN_SIZE (capacity t) /\ 1 < GROW_FACTOR))) /\
  (forall k,
     capacity t < n ->
     is_size_t (Nat.max MIN_SIZE (capacity t)) -> is_size_t n ->
     (forall k', k' < k ->
        Nat.max MIN_SIZE (capacity t) * GROW_FACTOR ^ k' < n) ->
     (N.of_nat (Nat.max MIN_SIZE (capacity t) * GROW_FACTOR ^ k)
      mod 2 ^ SIZE_BITS = 0)%N ->
     forall fuel,
       grow_capacity_size_t fuel (Nat.max MIN_SIZE (capacity t)) n = None /\
       MergeTable_resize_size_t fuel t n = None).
Proof.
  intros Hwf. split.
  - intros Hfit. split.
    + intros [fuel [t' E]].
      destruct (decide (n <= Nat.max MIN_SIZE (capacity t))) as [Hle|Hgt];
        [by left|].
      right. unfold MergeTable_resize_size_t in E.
      rewrite decide_False in E by lia.
      destruct (grow_capacity_size_t fuel _ n) as [nc|] eqn:Eg; [|discriminate].
      assert (is_size_t (Nat.max MIN_SIZE (capacity t))) as Hc.
      { apply size_t_square_fits_size.
        eapply size_t_square_fits_le; [|exact Hfit]. lia. }
      apply (grow_capacity_size_t_ends _ _ _ _ Hc Eg). lia.
    + intros Hside. exists n.
      rewrite MergeTable_resize_size_t_unbounded by done.
      by apply MergeTable_resize_returns.
  - intros k Hlt Hc Hn Hbelow Hz fuel.
    assert (grow_capacity_size_t fuel (Nat.max MIN_SIZE (capacity t)) n = None)
      as Eg.
    { apply (grow_capacity_size_t_wraps k); [done|done|lia|done|done]. }
    split; [done|]. unfold MergeTable_resize_size_t.
    rewrite decide_False by lia. by rewrite Eg.
Qed.

End StateAndTableProperties.

(** ** Further properties of the interner and of the constructor *)

Section FurtherConstruction.

Context {consts : Constants} {Lexeme : Type}.
Implicit Types dfa : FiniteStateAutomaton Lexeme.
Implicit Types c : Construction Lexeme.

Lemma constructing_interner_inv c : constructing c -> interner_inv c.
Proof.
  induction 1 as [v|ps c k c' _ IH E|i j c c' _ IH E|c v _ IH|c k _ IH|c v _ IH];
    try exact IH.
  - apply interner_inv_start.
  - by destruct (enqueue_interner_inv _ _ _ _ IH E).
  - by eapply merge_interner_inv.
Qed.

(** X10. After [enqueue] of a state the map and the vector both hold it at
    the index returned, enqueueing it again returns the same index and
    changes nothing, and a state that was not interned before got the
    next index and was appended. *)
Theorem enqueue_round_trip (ps : list Transition) c k c' :
  interner_inv c -> enqueue ps c = Some (k, c') ->
  seen c' !! ps = Some k /\ states c' !! k = Some ps /\
  k < length (states c') /\ enqueue ps c' = Some (k, c') /\
  (seen c !! ps = None ->
   k = length (states c) /\ states c' = states c ++ [ps]).
Proof.
  intros Hinv E. destruct (enqueue_interner_inv _ _ _ _ Hinv E) as [Hinv' Hk].
  assert (seen c' !! ps = Some k) as Hseen by by apply Hinv'.
  split; [done|]. split; [done|]. split; [by eapply lookup_lt_Some|].
  split; [by apply enqueue_seen|].
  intros Hnone. by destruct (enqueue_fresh _ _ _ _ Hnone E) as (? & _ & ? & _).
Qed.

Lemma enqueue_keeps (ps : list Transition) c k c' :
  enqueue ps c = Some (k, c') ->
  (forall i ps0, states c !! i = Some ps0 -> states c' !! i = Some ps0) /\
  (forall ps0 i, seen c !! ps0 = Some i -> seen c' !! ps0 = Some i) /\
  length (states c') <= S (length (states c)) /\
  identity_state_index (this c') = identity_state_index (this c) /\
  initial_states (this c') = initial_states (this c) /\
  final_states (this c') = final_states (this c).
Proof.
  intros E. destruct (seen c !! ps) as [k0|] eqn:Hs.
  - rewrite (enqueue_seen _ _ _ Hs) in E. inversion E; subst.
    repeat split; auto.
  - destruct (enqueue_fresh _ _ _ _ Hs E)
      as (-> & Hseen & Hst & Hin & Hid & Hfin & _).
    rewrite Hseen, Hst. split; [|split; [|split]].
    + intros i ps0 Hi. rewrite lookup_app_l; [done|]. by eapply lookup_lt_Some.
    + intros ps0 i Hi. rewrite lookup_insert_ne; [done|]. congruence.
    + rewrite length_app. simpl. lia.
    + done.
Qed.

(** X11. A call of the lambda [merge] never moves an interned state: every
    state keeps its index in [states] and in [seen], at most one state is
    added, and the identity index and the other tables of the lexer are
    untouched. *)
Theorem merge_keeps_interned i j c c' :
  merge i j c = Some c' ->
  (forall k ps, states c !! k = Some ps -> states c' !! k = Some ps) /\
  (forall ps k, seen c !! ps = Some k -> seen c' !! ps = Some k) /\
  length (states c') <= S (length (states c)) /\
  identity_state_index (this c') = identity_state_index (this c) /\
  initial_states (this c') = initial_states (this c) /\
  final_states (this c') = final_states (this c).
Proof.
  intros E. apply merge_unfold in E
    as (result & c1 & sr & t & mt & Er & _ & _ & _ & ->). simpl.
  unfold merge_result in Er. repeat case_decide.
  - inversion Er; subst. repeat split; auto.
  - inversion Er; subst. repeat split; auto.
  - destruct (states c !! i) as [ps|]; [|discriminate].
    destruct (states c !! j) as [other|]; [|discriminate]. simpl in Er.
    destruct (ParallelState_merge ps other) as [ps'|]; [|discriminate].
    simpl in Er. by apply (enqueue_keeps _ _ _ _ Er).
Qed.

(** X12. In every state the construction goes through, the interned states
    are pairwise different, and the states in [states] are exactly the keys
    of [seen]. *)
Theorem interned_states_distinct c :
  constructing c ->
  NoDup (states c) /\
  forall ps : list Transition, ps ∈ states c <-> is_Some (seen c !! ps).
Proof.
  intros Hc. apply constructing_interner_inv in Hc as (_ & _ & Hbij). split.
  - apply NoDup_alt. intros i j ps Hi Hj. apply Hbij in Hi, Hj. congruence.
  - intros ps. rewrite list_elem_of_lookup. split.
    + intros [i Hi]. exists i. by apply Hbij.
    + intros [i Hi]. exists i. by apply Hbij.
Qed.

(** X13. On a completed artifact [initial_states] has one entry per byte;
    the entry of byte [b] holds an interned index and the START flag of the
    state interned there, and that state holds in slot [s] what the writes
    for the transitions of [dfa[s]] on [b] left: the last such transition,
    the default [(REJECT, false)] when there is none.  For a deterministic
    automaton the result state is the step of the automaton. *)
Theorem initial_states_spec fuel dfa c b :
  ParallelLexer_new fuel dfa = Some c -> b <= MAX_SYM ->
  length (initial_states (this c)) = MAX_SYM + 1 /\
  exists k ps t,
    initial_states (this c) !! b = Some (mkTransition k (produces_lexeme t)) /\
    k < length (states c) /\ states c !! k = Some ps /\
    ps !! START = Some t /\ length ps = length dfa /\
    (forall s, s < length dfa ->
       ps !! s
       = Some (seeded_slot (transitions_of dfa s) b Transition_default)) /\
    (deterministic dfa ->
     forall s, s < length dfa ->
       exists u, ps !! s = Some u /\ result_state u = dfa_step dfa s b).
Proof.
  intros E Hb. apply ParallelLexer_new_built in E as Hbuilt.
  pose proof Hbuilt as (_ & _ & _ & Hl & Hinit & _). split; [done|].
  destruct (Hinit b Hb) as (ps & t & k & Ht & Hk & Hps & Hslot).
  exists k, ps, t. split; [done|]. split; [by eapply lookup_lt_Some|].
  split; [done|]. split; [done|]. split; [by eapply built_width|].
  split; [done|]. intros Hdet s Hs. eexists. split; [by apply Hslot|].
  by apply seeded_slot_step.
Qed.

Lemma seed_transition_symbol src tr (initial initial' : list (list Transition)) :
  seed_transition src tr initial = Some initial' ->
  exists sym, maybe_sym tr = Some sym /\ sym < length initial.
Proof.
  unfold seed_transition.
  destruct (maybe_sym tr) as [sym|]; [|discriminate]. simpl.
  destruct (initial !! sym) as [ps|] eqn:Hps; [|discriminate]. intros _.
  exists sym. split; [done|]. by eapply lookup_lt_Some.
Qed.

Lemma seed_state_symbols N src trs : forall initial initial',
  uniform N initial ->
  for_each trs (seed_transition src) initial = Some initial' ->
  Forall (fun tr => exists sym, maybe_sym tr = Some sym /\ sym < length initial)
         trs.
Proof.
  induction trs as [|tr trs IH]; intros initial initial' Hu; simpl; [done|].
  destruct (seed_transition src tr initial) as [initial1|] eqn:E1;
    [|discriminate].
  destruct (seed_transition_spec _ _ _ _ _ Hu E1) as (Hl1 & Hu1 & _).
  intros E. apply Forall_cons. split; [by eapply seed_transition_symbol|].
  rewrite <- Hl1. by eapply IH.
Qed.

Lemma seed_rows_symbols dfa m : forall (initial0 initial : list (list Transition)),
  uniform (length dfa) initial0 ->
  for_upto m
    (fun src initial =>
       st ← dfa !! src;
       for_each (transitions st) (seed_transition src) initial)
    initial0 = Some initial ->
  forall s st, s < m -> dfa !! s = Some st ->
    Forall (fun tr => exists sym, maybe_sym tr = Some sym /\
                                  sym < length initial0)
           (transitions st).
Proof.
  induction m as [|m IH]; intros initial0 initial Hu; [intros; lia|].
  rewrite for_upto_S.
  destruct (for_upto m _ initial0) as [initial1|] eqn:E1; [|discriminate].
  destruct (dfa !! m) as [stm|] eqn:Hstm; [|discriminate]. simpl.
  intros E s st Hs Hst. destruct (decide (s = m)) as [->|Hne].
  - assert (m <= length dfa) as Hm.
    { apply lookup_lt_Some in Hstm. lia. }
    destruct (seed_rows_spec _ _ _ _ _ Hu Hm E1) as (Hl1 & Hu1 & _).
    rewrite <- Hl1. assert (st = stm) as -> by congruence.
    by eapply seed_state_symbols.
  - apply (IH initial0 initial1 Hu E1 s st); [lia|done].
Qed.

(** X14. A run of the constructor to its end in which the assertion on
    [sym] holds and every access to a vector stays within it (the runs for
    which [ParallelLexer_new] gives a value) needs an automaton whose START
    is a state, whose transitions all carry a symbol of the alphabet, and in
    which every state and byte lead to a state: when a transition is
    missing, [REJECT] has to be a state of the automaton. *)
Theorem ParallelLexer_new_requires fuel dfa c :
  ParallelLexer_new fuel dfa = Some c ->
  START < length dfa /\
  Forall (fun st =>
            Forall (fun tr => exists sym, maybe_sym tr = Some sym /\
                                          sym <= MAX_SYM)
                   (transitions st)) dfa /\
  forall b s, b <= MAX_SYM -> s < length dfa ->
    result_state (seeded_slot (transitions_of dfa s) b Transition_default)
    < length dfa.
Proof.
  intros E. apply ParallelLexer_new_built in E as Hbuilt.
  split; [by eapply built_START|]. split.
  - unfold ParallelLexer_new in E.
    destruct (seed_initial_states dfa) as [initial|] eqn:Eseed;
      [|discriminate].
    apply Forall_lookup_2. intros s st Hst.
    assert (uniform (length dfa)
              (replicate (MAX_SYM + 1) (ParallelState_new (length dfa)))) as Hu.
    { apply Forall_replicate. unfold ParallelState_new.
      by rewrite length_replicate. }
    pose proof (seed_rows_symbols _ _ _ _ Hu Eseed s st
                  (lookup_lt_Some _ _ _ Hst) Hst) as Hall.
    eapply Forall_impl; [exact Hall|]. intros tr (sym & Hsym & Hlt).
    rewrite length_replicate in Hlt. exists sym. split; [done|]. lia.
  - intros b s Hb Hs. pose proof Hbuilt as (_ & _ & _ & _ & Hinit & _).
    destruct (Hinit b Hb) as (ps & t & k & _ & _ & Hps & Hslot).
    apply (Forall_lookup_1 _ _ _ _ (built_in_range _ _ _ _ Hbuilt Hps)
             (Hslot s Hs)).
Qed.

Lemma length_bind_const {A B : Type} (f : A -> list B) (l : list A) k :
  (forall x, length (f x) = k) -> length (l ≫= f) = length l * k.
Proof.
  intros Hf. induction l as [|x l IH]; [done|].
  change ((x :: l) ≫= f) with (f x ++ (l ≫= f)).
  rewrite length_app, Hf, IH. simpl. lia.
Qed.

Lemma length_all_states M n : length (all_states M n) = (2 * M) ^ n.
Proof.
  induction n as [|n IH]; [done|].
  rewrite all_states_S.
  rewrite (length_bind_const _ _ ((2 * M) ^ n)).
  - unfold all_transitions. rewrite (length_bind_const _ _ 2) by done.
    rewrite length_seq, Nat.pow_succ_r'. lia.
  - intros t. rewrite (length_bind_const _ _ 1) by done. lia.
Qed.

(** X15. On a well-formed automaton of [N] states, with a positive
    [MIN_SIZE] and a [GROW_FACTOR] of at least two, the constructor returns:
    no assertion fails, no access leaves a vector, and the saturation ends
    within [2 * (2 N)^N + 1] rounds of either loop. *)
Theorem construction_completes dfa fuel :
  0 < MIN_SIZE -> 1 < GROW_FACTOR -> well_formed dfa ->
  2 * (2 * length dfa) ^ length dfa + 1 <= fuel ->
  exists c, ParallelLexer_new fuel dfa = Some c.
Proof.
  intros Hmin Hg Hwf Hfuel.
  destruct (ParallelLexer_new_completes Hmin Hg dfa Hwf) as [c E].
  exists c. eapply ParallelLexer_new_more_fuel; [exact E|].
  by rewrite length_all_states.
Qed.

(** X16. On a completed artifact for an automaton of [N] states every
    interned state has width [N] and result states below [N], the identity
    is interned, and there are at most [(2 N)^N] interned states. *)
Theorem interned_states_bounded fuel dfa c :
  ParallelLexer_new fuel dfa = Some c ->
  (forall i ps, states c !! i = Some ps ->
     length ps = length dfa /\
     Forall (fun t => result_state t < length dfa) ps) /\
  1 <= length (states c) /\
  length (states c) <= (2 * length dfa) ^ length dfa.
Proof.
  intros E. apply ParallelLexer_new_built in E as Hbuilt. split; [|split].
  - intros i ps Hi. split; [exact (built_width _ _ _ _ Hbuilt Hi)|].
    exact (built_in_range _ _ _ _ Hbuilt Hi).
  - pose proof (built_identity_interned _ _ Hbuilt). lia.
  - rewrite <- length_all_states. destruct Hbuilt as (Hb & Hrest).
    apply states_bounded; [done|]. apply Forall_lookup_2. intros i ps Hi.
    eapply built_in_range; [|exact Hi]. by split.
Qed.

(** X17. When the reject state is a state of the automaton and has no
    outgoing transition, every state interned by a completed construction
    holds [(REJECT, false)] in its slot [REJECT]: the rejected slots stay
    rejected through every merge of the constructor. *)
Theorem reject_absorbing fuel dfa c :
  REJECT < length dfa -> transitions_of dfa REJECT = [] ->
  ParallelLexer_new fuel dfa = Some c ->
  forall i ps, states c !! i = Some ps ->
    ps !! REJECT = Some Transition_default.
Proof.
  intros Hrej Hnone E i ps Hi.
  pose proof (reject_slot_throughout _ _ _ Hrej Hnone E) as Hall.
  apply (Forall_lookup_1 _ _ _ _ Hall Hi).
Qed.

Lemma dfa_run_app dfa s w1 w2 :
  dfa_run dfa s (w1 ++ w2) = dfa_run dfa (dfa_run dfa s w1) w2.
Proof. unfold dfa_run. by rewrite foldl_app. Qed.

Lemma initial_entry_tracks dfa c b :
  built dfa c -> deterministic dfa -> b <= MAX_SYM ->
  exists k ps,
    result_state <$> initial_states (this c) !! b = Some k /\
    states c !! k = Some ps /\
    forall s, s < length dfa ->
      exists t, ps !! s = Some t /\ result_state t = dfa_run dfa s [b].
Proof.
  intros Hbuilt Hdet Hb. pose proof Hbuilt as (_ & _ & _ & _ & Hinit & _).
  destruct (Hinit b Hb) as (ps & t & k & _ & Hk & Hps & Hslot).
  exists k, ps. rewrite Hk. split; [done|]. split; [done|].
  intros s Hs. eexists. split; [by apply Hslot|]. by apply seeded_slot_step.
Qed.

Lemma scan_bracketed_tracks dfa c (t : Bracketing) :
  built dfa c -> deterministic dfa ->
  Forall (fun b => b <= MAX_SYM) (bracket_bytes t) ->
  exists r ps,
    scan_bracketed (this c) t = Some r /\ states c !! r = Some ps /\
    forall s, s < length dfa ->
      exists u, ps !! s = Some u /\
                result_state u = dfa_run dfa s (bracket_bytes t).
Proof.
  intros Hbuilt Hdet. induction t as [b|l IHl r IHr]; simpl; intros Hbytes.
  - apply Forall_inv in Hbytes. by apply initial_entry_tracks.
  - apply Forall_app in Hbytes as [Hbl Hbr].
    destruct (IHl Hbl) as (i & pi & Ei & Hpi & Hti).
    destruct (IHr Hbr) as (j & pj & Ej & Hpj & Htj).
    rewrite Ei, Ej. simpl.
    pose proof (lookup_lt_Some _ _ _ Hpi) as Hi.
    pose proof (lookup_lt_Some _ _ _ Hpj) as Hj.
    pose proof Hbuilt as (_ & Hid & _).
    destruct (built_cell _ _ _ _ Hbuilt Hi Hj)
      as (m & sr & tm & Hg & Hsr & _ & _ & Hl1 & Hl2 & Hl3).
    exists (result_state m), sr. rewrite Hg. split; [done|]. split; [done|].
    intros s Hs. rewrite dfa_run_app.
    destruct (Hti s Hs) as (u & Hu & Hrun). rewrite <- Hrun.
    assert (result_state u < length dfa) as Hlt
      by apply (Forall_lookup_1 _ _ _ _ (built_in_range _ _ _ _ Hbuilt Hpi) Hu).
    destruct (decide (i = identity_state_index (this c))) as [Hi'|Hi'].
    { rewrite (Hl1 Hi') in Hsr. assert (sr = pj) as -> by congruence.
      rewrite Hi', Hid in Hpi. inversion Hpi; subst pi.
      rewrite identity_state_lookup in Hu by done. inversion Hu; subst u.
      simpl. by apply Htj. }
    destruct (decide (j = identity_state_index (this c))) as [Hj'|Hj'].
    { rewrite (Hl2 Hj') in Hsr. assert (sr = pi) as -> by congruence.
      exists u. split; [done|].
      rewrite Hj', Hid in Hpj. inversion Hpj; subst pj.
      destruct (Htj _ Hlt) as (v & Hv & <-).
      rewrite identity_state_lookup in Hv by done. by inversion Hv. }
    destruct (Hl3 ltac:(by right)) as (p1 & p2 & ps' & H1 & H2 & Em & H3).
    assert (p1 = pi) as -> by congruence.
    assert (p2 = pj) as -> by congruence.
    assert (ps' = sr) as -> by congruence.
    rewrite (ParallelState_merge_lookup _ _ _ s Em), Hu. simpl.
    by apply Htj.
Qed.

(** X19. On a completed artifact for a deterministic automaton a scan may
    merge in any order: along every bracketing of the bytes the tables give
    an index whose [final_states] entry is the lexeme of the state that the
    sequential automaton reaches from START, although indices along
    different bracketings may differ. *)
Theorem scan_bracketed_sound fuel dfa c (t : Bracketing) :
  ParallelLexer_new fuel dfa = Some c ->
  deterministic dfa ->
  Forall (fun b => b <= MAX_SYM) (bracket_bytes t) ->
  exists r,
    scan_bracketed (this c) t = Some r /\
    final_states (this c) !! r
    = Some (lexeme_at dfa (dfa_run dfa START (bracket_bytes t))).
Proof.
  intros E Hdet Hbytes. apply ParallelLexer_new_built in E as Hbuilt.
  destruct (scan_bracketed_tracks _ _ _ Hbuilt Hdet Hbytes)
    as (r & ps & Hscan & Hps & Htrack).
  exists r. split; [done|].
  destruct (Htrack START (built_START _ _ Hbuilt)) as (u & Hu & <-).
  destruct Hbuilt as (_ & _ & _ & _ & _ & _ & Hfin).
  destruct (Hfin _ _ Hps) as (u' & st & Hu' & Hst & Hf).
  assert (u' = u) as -> by congruence.
  unfold lexeme_at. by rewrite Hst.
Qed.

Lemma dead_byte_state dfa c b :
  built dfa c -> b <= MAX_SYM ->
  (forall s st, dfa !! s = Some st ->
     Forall (fun tr => maybe_sym tr <> Some b) (transitions st)) ->
  exists k,
    initial_states (this c) !! b = Some (mkTransition k false) /\
    states c !! k = Some (dead_state (length dfa)).
Proof.
  intros Hbuilt Hb Hdead. pose proof Hbuilt as (_ & _ & _ & _ & Hinit & _).
  destruct (Hinit b Hb) as (ps & t & k & Ht & Hk & Hps & Hslot).
  assert (ps = dead_state (length dfa)) as ->.
  { apply list_eq_same_length with (length dfa);
      [apply length_replicate|exact (built_width _ _ _ _ Hbuilt Hps)|].
    intros s x y Hs Hx Hy. rewrite Hslot in Hx by done.
    unfold dead_state in Hy. apply lookup_replicate in Hy as [-> _].
    inversion Hx; subst. apply seeded_slot_absent.
    unfold transitions_of. destruct (dfa !! s) as [st|] eqn:Hst; [|done].
    by eapply Hdead. }
  exists k. split; [|done]. rewrite Hk. f_equal.
  unfold dead_state in Ht. apply lookup_replicate in Ht as [-> _]. done.
Qed.

(** X20. A byte on which no state has a transition gets the state with
    every slot rejected: its entry in [initial_states] carries no lexeme
    flag, and the [final_states] entry of its index is whatever lexeme the
    automaton attaches to the state [REJECT]. *)
Theorem dead_byte fuel dfa c b :
  ParallelLexer_new fuel dfa = Some c -> b <= MAX_SYM ->
  (forall s st, dfa !! s = Some st ->
     Forall (fun tr => maybe_sym tr <> Some b) (transitions st)) ->
  exists k,
    initial_states (this c) !! b = Some (mkTransition k false) /\
    states c !! k = Some (dead_state (length dfa)) /\
    final_states (this c) !! k = Some (lexeme_at dfa REJECT).
Proof.
  intros E Hb Hdead. apply ParallelLexer_new_built in E as Hbuilt.
  destruct (dead_byte_state _ _ _ Hbuilt Hb Hdead) as (k & Hk & Hps).
  exists k. split; [done|]. split; [done|].
  pose proof (built_START _ _ Hbuilt) as HS.
  destruct Hbuilt as (_ & _ & _ & _ & _ & _ & Hfin).
  destruct (Hfin _ _ Hps) as (t & st & Ht & Hst & Hf).
  unfold dead_state in Ht. apply lookup_replicate in Ht as [-> _].
  simpl in Hst. unfold lexeme_at. by rewrite Hst.
Qed.

(** X21. When the reject state is a state of the automaton without
    outgoing transitions, the index of the all-rejected state, if it is
    interned and is not the identity index, absorbs in the merge table:
    the entries of its row and of its column are that index. *)
Theorem dead_state_absorbs_in_table fuel dfa c k j :
  ParallelLexer_new fuel dfa = Some c ->
  REJECT < length dfa -> transitions_of dfa REJECT = [] ->
  states c !! k = Some (dead_state (length dfa)) ->
  k <> identity_state_index (this c) ->
  j < length (states c) ->
  table_merge c k j = Some k /\ table_merge c j k = Some k.
Proof.
  intros E Hrej Hnone Hk Hkid Hj.
  apply ParallelLexer_new_built in E as Hbuilt.
  pose proof (reject_slot_throughout _ _ _ Hrej Hnone E) as Hslots.
  pose proof (lookup_lt_Some _ _ _ Hk) as Hkl.
  destruct (table_merge_spec _ _ _ _ Hbuilt Hkl Hj)
    as (r1 & E1 & _ & _ & H12 & H13).
  destruct (table_merge_spec _ _ _ _ Hbuilt Hj Hkl)
    as (r2 & E2 & _ & H21 & _ & H23).
  rewrite E1, E2.
  destruct (decide (j = identity_state_index (this c))) as [Hjid|Hjid].
  { by rewrite (H12 Hjid), (H21 Hjid). }
  destruct (H13 ltac:(by right)) as (p1 & p2 & ps' & Hp1 & Hp2 & Em & Hr).
  assert (p1 = dead_state (length dfa)) as -> by congruence.
  rewrite (ParallelState_merge_dead_l _ p2) in Em
    by apply (Forall_lookup_1 _ _ _ _ Hslots Hp2).
  inversion Em; subst ps'.
  destruct (H23 ltac:(by right)) as (q1 & q2 & qs' & Hq1 & Hq2 & Em' & Hr').
  assert (q2 = dead_state (length dfa)) as -> by congruence.
  rewrite (ParallelState_merge_dead_r _ q1) in Em';
    [|exact (built_width _ _ _ _ Hbuilt Hq1)
     |exact (built_in_range _ _ _ _ Hbuilt Hq1)].
  inversion Em'; subst qs'.
  split; f_equal; by eapply built_injective.
Qed.

(** X22. On a completed artifact [dump_sizes] reports [MAX_SYM + 1] initial
    states, a merge table of side [K] with [K * K] elements, and [K] final
    states, [K] being the number of interned states. *)
Theorem dump_sizes_spec fuel dfa c :
  ParallelLexer_new fuel dfa = Some c ->
  dump_sizes (this c)
  = ("Initial states table: " +:+ pretty (MAX_SYM + 1) +:+ " element
")
    +:+ ("Merge table: " +:+ pretty (length (states c))
         +:+ "² elements = "
         +:+ pretty (length (states c) * length (states c))
         +:+ " elements
")
    +:+ ("Final states table: " +:+ pretty (length (states c))
         +:+ " elements
").
Proof.
  intros E. apply ParallelLexer_new_built in E as Hbuilt.
  destruct Hbuilt as (((_ & Hmt & _) & _) & _ & _ & Hl & _ & Hf & _).
  unfold dump_sizes. by rewrite Hl, Hf, <- Hmt.
Qed.

End FurtherConstruction.

(** ** The theorems at concrete inputs *)

Lemma accept_dfa_deterministic : deterministic accept_dfa.
Proof. unfold deterministic. apply (bool_decide_unpack _). vm_compute. exact I. Qed.

Lemma swap_dfa_deterministic : deterministic swap_dfa.
Proof. unfold deterministic. apply (bool_decide_unpack _). vm_compute. exact I. Qed.

Lemma accept_dfa_well_formed :
  well_formed (consts := small_constants) accept_dfa.
Proof.
  split; [simpl; lia|]. split; [simpl; lia|].
  repeat constructor; simpl; eauto with lia.
Qed.

Lemma swap_dfa_well_formed :
  well_formed (consts := two_byte_constants) swap_dfa.
Proof.
  split; [simpl; lia|]. split; [simpl; lia|].
  repeat constructor; simpl; eauto with lia.
Qed.

(** C9 on a table of one state: the coordinate 1 passes the assertions, the
    read returns a cell outside the logical table and the write changes one. *)
Lemma MergeTable_access_outside_logical_table :
  exists t : MergeTable,
    MergeTable_resize (consts := small_constants) MergeTable_new 1 = Some t /\
    MergeTable_states t = 1 /\
    MergeTable_get t 1 0 = Some (mkTransition 1 false) /\
    exists t', MergeTable_set t 1 1 (mkTransition 0 true) = Some t' /\
               cells t' !! 9 = Some (mkTransition 0 true).
Proof.
  eexists. split; [vm_compute; reflexivity|]. split; [reflexivity|].
  split; [reflexivity|]. eexists. split; reflexivity.
Qed.

(** C1 on the swapping automaton and the input [1; 0; 0; 0]. *)
Lemma scan_sound_witness :
  exists c,
    ParallelLexer_new (consts := two_byte_constants) 40 swap_dfa = Some c /\
    deterministic swap_dfa /\
    Forall (fun b => b <= 1) [1; 0; 0; 0] /\
    dfa_run (consts := two_byte_constants) swap_dfa 0 [1; 0; 0; 0] = 2 /\
    exists r,
      scan (this c) [1; 0; 0; 0] = Some r /\
      final_states (this c) !! r
      = Some (lexeme_at swap_dfa
                (dfa_run (consts := two_byte_constants) swap_dfa 0
                         [1; 0; 0; 0])).
Proof.
  eexists. split; [vm_compute; reflexivity|].
  split; [exact swap_dfa_deterministic|].
  split; [repeat constructor|].
  split; [reflexivity|].
  apply (scan_sound (consts := two_byte_constants) 40 swap_dfa _ [1; 0; 0; 0]).
  - vm_compute. reflexivity.
  - exact swap_dfa_deterministic.
  - repeat constructor.
Defined.

(** C2, as amended, on the accepting automaton at the pair [(0, 0)]. *)
Lemma merge_table_closed_witness :
  exists c,
    ParallelLexer_new (consts := small_constants) 20 accept_dfa = Some c /\
    0 < length (states c) /\
    MergeTable_states (merge_table (this c)) = length (states c) /\
    exists r,
      table_merge c 0 0 = Some r /\ r < length (states c) /\
      (0 = identity_state_index (this c) -> r = 0) /\
      (0 = identity_state_index (this c) \/
       0 <> identity_state_index (this c) ->
       exists ps other ps',
         states c !! 0 = Some ps /\ states c !! 0 = Some other /\
         ParallelState_merge ps other = Some ps' /\ states c !! r = Some ps').
Proof.
  eexists. split; [vm_compute; reflexivity|].
  split; [vm_compute; lia|].
  apply (merge_table_closed (consts := small_constants) 20 accept_dfa _ 0 0).
  - vm_compute. reflexivity.
  - vm_compute. lia.
  - vm_compute. lia.
Defined.

(** C2 as stated fails on the accepting automaton: the table sends the
    pair of state 0 and the identity (index 1) to 0, while the composition
    of the two states, which drops the flag of state 0, is interned at no
    index. *)
Lemma closure_fails_next_to_identity :
  exists c,
    ParallelLexer_new (consts := small_constants) 20 accept_dfa = Some c /\
    length (states c) = 3 /\ identity_state_index (this c) = 1 /\
    table_merge c 0 1 = Some 0 /\
    exists ps other ps',
      states c !! 0 = Some ps /\ states c !! 1 = Some other /\
      ParallelState_merge ps other = Some ps' /\
      forall r, states c !! r <> Some ps'.
Proof.
  eexists. split; [vm_compute; reflexivity|].
  split; [reflexivity|]. split; [reflexivity|]. split; [reflexivity|].
  eexists _, _, _. split; [reflexivity|]. split; [reflexivity|].
  split; [reflexivity|].
  intros [|[|[|r]]]; discriminate.
Qed.

(** C3, as amended, on two states of width two with the reject slot 1. *)
Lemma ParallelState_merge_reject_witness :
  Forall (fun t => result_state t < 2)
         [mkTransition 1 false; mkTransition 0 false] /\
  [mkTransition 0 true; mkTransition 1 false] !! 1
  = Some (mkTransition 1 false) /\
  exists r,
    ParallelState_merge [mkTransition 1 false; mkTransition 0 false]
                        [mkTransition 0 true; mkTransition 1 false] = Some r /\
    forall s t,
      [mkTransition 1 false; mkTransition 0 false] !! s = Some t ->
      result_state t = 1 -> r !! s = Some (mkTransition 1 false).
Proof.
  split; [repeat constructor|]. split; [reflexivity|].
  apply (ParallelState_merge_reject (consts := small_constants)
           [mkTransition 1 false; mkTransition 0 false]
           [mkTransition 0 true; mkTransition 1 false]).
  - repeat constructor.
  - reflexivity.
Defined.

(** C4 on the accepting automaton. *)
Lemma identity_unit_witness :
  exists c,
    ParallelLexer_new (consts := small_constants) 20 accept_dfa = Some c /\
    (forall i, i < length (states c) ->
       table_merge c (identity_state_index (this c)) i = Some i /\
       table_merge c i (identity_state_index (this c)) = Some i) /\
    exists I,
      states c !! identity_state_index (this c) = Some I /\
      length I = length accept_dfa /\
      forall s, s < length accept_dfa -> I !! s = Some (mkTransition s false).
Proof.
  eexists. split; [vm_compute; reflexivity|].
  apply (identity_unit (consts := small_constants) 20 accept_dfa).
  vm_compute. reflexivity.
Defined.

(** C5, as amended, on the swapping automaton at [(1, 0, 1)]: the entry
    [(0, 1)] is not the identity. *)
Lemma merge_table_assoc_witness :
  exists c,
    ParallelLexer_new (consts := two_byte_constants) 20 swap_dfa = Some c /\
    table_merge c 0 1 <> Some (identity_state_index (this c)) /\
    exists a b r,
      table_merge c 1 0 = Some a /\ table_merge c 0 1 = Some b /\
      table_merge c a 1 = Some r /\ table_merge c 1 b = Some r.
Proof.
  eexists. split; [vm_compute; reflexivity|].
  split; [vm_compute; discriminate|].
  apply (merge_table_assoc (consts := two_byte_constants) 20 swap_dfa _ 1 0 1).
  - vm_compute. reflexivity.
  - vm_compute. lia.
  - vm_compute. lia.
  - vm_compute. lia.
  - right. right. right. left. vm_compute. discriminate.
Defined.

(** C5 as stated fails on the swapping automaton at [(1, 0, 0)]: state 0
    composed with itself is the identity (index 2), so the right side is the
    entry [(1, 2)], which is 1, while the left side is the entry [(0, 0)],
    which is 2. *)
Lemma associativity_fails_through_identity :
  exists c,
    ParallelLexer_new (consts := two_byte_constants) 20 swap_dfa = Some c /\
    length (states c) = 4 /\
    exists a b l r,
      table_merge c 1 0 = Some a /\ table_merge c 0 0 = Some b /\
      table_merge c a 0 = Some l /\ table_merge c 1 b = Some r /\
      l <> r.
Proof.
  eexists. split; [vm_compute; reflexivity|]. split; [reflexivity|].
  exists 0, 2, 2, 1. repeat split; discriminate.
Qed.

(** C6 on the accepting automaton at the pair of state 0 and the identity. *)
Lemma produces_lexeme_consistent_witness :
  exists c,
    ParallelLexer_new (consts := small_constants) 20 accept_dfa = Some c /\
    exists m,
      MergeTable_get (merge_table (this c)) 0 1 = Some m /\
      (exists sr t,
          states c !! result_state m = Some sr /\
          sr !! (START (Constants := small_constants)) = Some t /\
          produces_lexeme m = produces_lexeme t) /\
      (0 = identity_state_index (this c) ->
       exists sj t,
         states c !! 1 = Some sj /\
         sj !! (START (Constants := small_constants)) = Some t /\
         produces_lexeme m = produces_lexeme t) /\
      (1 = identity_state_index (this c) ->
       exists si t,
         states c !! 0 = Some si /\
         si !! (START (Constants := small_constants)) = Some t /\
         produces_lexeme m = produces_lexeme t).
Proof.
  eexists. split; [vm_compute; reflexivity|].
  apply (produces_lexeme_consistent (consts := small_constants)
           20 accept_dfa _ 0 1).
  - vm_compute. reflexivity.
  - vm_compute. lia.
  - vm_compute. lia.
Defined.

(** C7 on the accepting automaton. *)
Lemma final_states_spec_witness :
  exists c,
    ParallelLexer_new (consts := small_constants) 20 accept_dfa = Some c /\
    length (final_states (this c)) = length (states c) /\
    forall i, i < length (states c) ->
      exists ps t,
        states c !! i = Some ps /\
        ps !! (START (Constants := small_constants)) = Some t /\
        final_states (this c) !! i
        = Some (lexeme_at accept_dfa (result_state t)).
Proof.
  eexists. split; [vm_compute; reflexivity|].
  apply (final_states_spec (consts := small_constants) 20 accept_dfa).
  vm_compute. reflexivity.
Defined.





(** C10 on the interner after one state has been enqueued. *)
Lemma interner_consistent_witness :
  exists c : Construction nat,
    enqueue (consts := small_constants) [mkTransition 0 false]
      (mkConstruction (mkParallelLexer [] MergeTable_new 0 []) ∅ [])
    = Some (0, c) /\
    (size (seen c) = length (states c) /\
     length (states c) = MergeTable_states (merge_table (this c)) /\
     forall ps k, seen c !! ps = Some k <-> states c !! k = Some ps) /\
    forall ps k, states c !! k = Some ps ->
      enqueue (consts := small_constants) ps c = Some (k, c).
Proof.
  eexists. split; [vm_compute; reflexivity|].
  apply (interner_consistent (consts := small_constants)).
  apply (constructing_enqueue (consts := small_constants)
           [mkTransition 0 false]
           (mkConstruction (mkParallelLexer [] MergeTable_new 0 []) ∅ []) 0).
  - apply constructing_start.
  - vm_compute. reflexivity.
Defined.

(** ** The further properties at concrete inputs *)

(** X3 on three states of width two. *)
Lemma ParallelState_merge_associative_witness :
  exists pq qr,
    ParallelState_merge [mkTransition 1 true; mkTransition 0 false]
                        [mkTransition 0 false; mkTransition 1 true] = Some pq /\
    ParallelState_merge [mkTransition 0 false; mkTransition 1 true]
                        [mkTransition 1 false; mkTransition 1 true] = Some qr /\
    ParallelState_merge pq [mkTransition 1 false; mkTransition 1 true]
    = ParallelState_merge [mkTransition 1 true; mkTransition 0 false] qr.
Proof.
  eexists _, _. split; [reflexivity|]. split; [reflexivity|].
  apply (ParallelState_merge_associative
           [mkTransition 1 true; mkTransition 0 false]
           [mkTransition 0 false; mkTransition 1 true]
           [mkTransition 1 false; mkTransition 1 true]); reflexivity.
Defined.

(** X4 on a state of width two with a flag. *)
Lemma ParallelState_merge_identity_witness :
  ParallelState_merge (identity_state (consts := small_constants) 2)
                      [mkTransition 1 true; mkTransition 1 false]
  = Some [mkTransition 1 true; mkTransition 1 false] /\
  ParallelState_merge [mkTransition 1 true; mkTransition 1 false]
                      (identity_state (consts := small_constants) 2)
  = Some (clear_flags [mkTransition 1 true; mkTransition 1 false]).
Proof.
  apply (ParallelState_merge_identity (consts := small_constants) 2
           [mkTransition 1 true; mkTransition 1 false]).
  - reflexivity.
  - repeat constructor.
Defined.

(** X5 on states of width two, with the reject slot 1: both sides where the
    conditions hold, and each side where its condition fails. *)
Lemma dead_state_absorbing_witness :
  ParallelState_merge [mkTransition 0 true; mkTransition 1 false]
                      (dead_state (consts := small_constants) 2)
  = Some (dead_state (consts := small_constants) 2) /\
  ParallelState_merge (dead_state (consts := small_constants) 2)
                      [mkTransition 0 true; mkTransition 1 false]
  = Some (dead_state (consts := small_constants) 2) /\
  ParallelState_merge (dead_state (consts := small_constants) 2)
                      [mkTransition 0 true; mkTransition 0 false]
  <> Some (dead_state (consts := small_constants) 2) /\
  ParallelState_merge [mkTransition 0 true; mkTransition 2 false]
                      (dead_state (consts := small_constants) 2)
  <> Some (dead_state (consts := small_constants) 2).
Proof.
  pose proof (dead_state_absorbing (consts := small_constants) 2
                [mkTransition 0 true; mkTransition 1 false]) as [Hr Hl].
  pose proof (dead_state_absorbing (consts := small_constants) 2
                [mkTransition 0 true; mkTransition 0 false]) as [_ Hl'].
  pose proof (dead_state_absorbing (consts := small_constants) 2
                [mkTransition 0 true; mkTransition 2 false]) as [Hr' _].
  split; [|split; [|split]].
  - apply Hr. split; [reflexivity|]. repeat constructor.
  - apply Hl. right. reflexivity.
  - intros E. apply Hl' in E. destruct E as [E|E]; discriminate.
  - intros E. apply Hr' in E. destruct E as [_ E].
    apply Forall_cons in E as [_ E]. apply Forall_cons in E as [E _].
    simpl in E. lia.
Defined.

(** X6 on a table of side and capacity two, at [(0, 1)] and [(1, 0)]. *)
Lemma MergeTable_index_injective_witness :
  exists k k',
    MergeTable_index (mkMergeTable 2 2 (replicate 4 (mkTransition 1 false)))
                     0 1 = Some k /\
    MergeTable_index (mkMergeTable 2 2 (replicate 4 (mkTransition 1 false)))
                     1 0 = Some k' /\
    k < 4 /\ k' < 4 /\ (k = k' -> 0 = 1 /\ 1 = 0).
Proof.
  apply (MergeTable_index_injective
           (mkMergeTable 2 2 (replicate 4 (mkTransition 1 false))) 0 1 1 0).
  - split; [simpl; lia|reflexivity].
  - simpl. lia.
  - simpl. lia.
  - simpl. lia.
  - simpl. lia.
Defined.

(** X7 on the same table, written at [(1, 0)]. *)
Lemma MergeTable_set_get_witness :
  exists t',
    MergeTable_set (mkMergeTable 2 2 (replicate 4 (mkTransition 1 false)))
                   1 0 (mkTransition 0 true) = Some t' /\
    MergeTable_wf t' /\ MergeTable_states t' = 2 /\ capacity t' = 2 /\
    MergeTable_get t' 1 0 = Some (mkTransition 0 true) /\
    forall a b, a < 2 -> b < 2 -> (a, b) <> (1, 0) ->
      MergeTable_get t' a b
      = MergeTable_get
          (mkMergeTable 2 2 (replicate 4 (mkTransition 1 false))) a b.
Proof.
  apply (MergeTable_set_get
           (mkMergeTable 2 2 (replicate 4 (mkTransition 1 false)))
           1 0 (mkTransition 0 true)).
  - split; [simpl; lia|reflexivity].
  - simpl. lia.
  - simpl. lia.
Defined.

(** X8 on the table of capacity two resized to nine states. *)
Lemma MergeTable_resize_invariant_witness :
  exists t',
    MergeTable_resize_size_t (consts := small_constants) 1 small_table 9
    = Some t' /\
    MergeTable_states t' = 9 /\ 9 <= capacity t' /\
    capacity small_table <= capacity t' /\
    (9 <= capacity small_table ->
     capacity t' = capacity small_table /\ cells t' = cells small_table) /\
    (capacity small_table < 9 ->
     length (cells t') = size_t_mul (capacity t') (capacity t')) /\
    (MergeTable_wf t' <->
     9 <= capacity small_table \/ size_t_square_fits (capacity t')).
Proof.
  eexists. split; [vm_compute; reflexivity|].
  apply (MergeTable_resize_invariant (consts := small_constants)
           1 small_table 9).
  - split; [simpl; lia|reflexivity].
  - vm_compute. reflexivity.
Defined.

(** X9 with [MIN_SIZE = 8] and [GROW_FACTOR = 2]: the table of capacity two
    resized to nine states, and the empty table resized to [2 ^ 63 + 1]
    states, where the capacity wraps to zero after 61 multiplications. *)
Lemma MergeTable_resize_returns_iff_witness :
  ((exists fuel,
       is_Some (MergeTable_resize_size_t (consts := small_constants)
                  fuel small_table 9)) <->
   9 <= Nat.max 8 2 \/ (0 < Nat.max 8 2 /\ 1 < 2)) /\
  forall fuel,
    grow_capacity_size_t (consts := small_constants) fuel 8 (2 ^ 63 + 1)
    = None /\
    MergeTable_resize_size_t (consts := small_constants) fuel MergeTable_new
                             (2 ^ 63 + 1) = None.
Proof.
  split.
  - apply (MergeTable_resize_returns_iff (consts := small_constants)
             small_table 9).
    + split; [simpl; lia|reflexivity].
    + vm_compute. reflexivity.
  - assert (capacity MergeTable_new < 2 ^ 63 + 1) as Hlt.
    { change (capacity MergeTable_new) with 0. lia. }
    assert (is_size_t (2 ^ 63 + 1)) as Hn.
    { unfold is_size_t, SIZE_BITS. lia. }
    assert (forall k', k' < 61 -> 8 * 2 ^ k' < 2 ^ 63 + 1) as Hbelow.
    { intros k' Hk'.
      assert (2 ^ k' <= 2 ^ 60) by (apply Nat.pow_le_mono_r; lia). lia. }
    assert ((N.of_nat (8 * 2 ^ 61) mod 2 ^ SIZE_BITS)%N = 0%N) as Hz.
    { rewrite Nat2N.inj_mul, Nat2N.inj_pow. vm_compute. reflexivity. }
    assert (is_size_t 8) as Hc by (vm_compute; reflexivity).
    destruct (MergeTable_resize_returns_iff (consts := small_constants)
                MergeTable_new (2 ^ 63 + 1)) as [_ Hloop];
      [split; reflexivity|].
    exact (Hloop 61 Hlt Hc Hn Hbelow Hz).
Defined.

(** X10 on the empty interner. *)
Lemma enqueue_round_trip_witness :
  exists c : Construction nat,
    enqueue (consts := small_constants) [mkTransition 0 false]
      (mkConstruction (mkParallelLexer [] MergeTable_new 0 []) ∅ [])
    = Some (0, c) /\
    seen c !! [mkTransition 0 false] = Some 0 /\
    states c !! 0 = Some [mkTransition 0 false] /\
    0 < length (states c) /\
    enqueue (consts := small_constants) [mkTransition 0 false] c
    = Some (0, c) /\
    ((∅ : gmap (list Transition) nat) !! [mkTransition 0 false] = None ->
     0 = 0 /\ states c = [] ++ [[mkTransition 0 false]]).
Proof.
  eexists. split; [vm_compute; reflexivity|].
  apply (enqueue_round_trip (consts := small_constants) (Lexeme := nat)
           [mkTransition 0 false]
           (mkConstruction (mkParallelLexer [] MergeTable_new 0 []) ∅ []) 0).
  - apply interner_inv_start.
  - vm_compute. reflexivity.
Defined.

(** X11 on the accepting automaton: a further merge of state 0 with
    itself. *)
Lemma merge_keeps_interned_witness :
  exists c c',
    ParallelLexer_new (consts := small_constants) 20 accept_dfa = Some c /\
    merge (consts := small_constants) 0 0 c = Some c' /\
    (forall k ps, states c !! k = Some ps -> states c' !! k = Some ps) /\
    (forall ps k, seen c !! ps = Some k -> seen c' !! ps = Some k) /\
    length (states c') <= S (length (states c)) /\
    identity_state_index (this c') = identity_state_index (this c) /\
    initial_states (this c') = initial_states (this c) /\
    final_states (this c') = final_states (this c).
Proof.
  eexists _, _. split; [vm_compute; reflexivity|].
  split; [vm_compute; reflexivity|].
  apply (merge_keeps_interned (consts := small_constants) 0 0).
  vm_compute. reflexivity.
Defined.

(** X12 on the completed construction for the accepting automaton, which
    holds three states. *)
Lemma interned_states_distinct_witness :
  exists c,
    ParallelLexer_new (consts := small_constants) 20 accept_dfa = Some c /\
    length (states c) = 3 /\
    NoDup (states c) /\
    forall ps : list Transition, ps ∈ states c <-> is_Some (seen c !! ps).
Proof.
  eexists. split; [vm_compute; reflexivity|]. split; [reflexivity|].
  apply (interned_states_distinct (consts := small_constants)).
  apply (ParallelLexer_new_constructing (consts := small_constants)
           20 accept_dfa).
  vm_compute. reflexivity.
Defined.

(** X13 on the accepting automaton and byte 0. *)
Lemma initial_states_spec_witness :
  exists c,
    ParallelLexer_new (consts := small_constants) 20 accept_dfa = Some c /\
    length (initial_states (this c)) = 1 /\
    exists k ps t,
      initial_states (this c) !! 0
      = Some (mkTransition k (produces_lexeme t)) /\
      k < length (states c) /\ states c !! k = Some ps /\
      ps !! 0 = Some t /\ length ps = 3 /\
      (forall s, s < 3 ->
         ps !! s
         = Some (seeded_slot (transitions_of accept_dfa s) 0
                             (mkTransition 1 false))) /\
      (deterministic accept_dfa ->
       forall s, s < 3 ->
         exists u, ps !! s = Some u /\
                   result_state u
                   = dfa_step (consts := small_constants) accept_dfa s 0).
Proof.
  eexists. split; [vm_compute; reflexivity|].
  apply (initial_states_spec (consts := small_constants) 20 accept_dfa _ 0).
  - vm_compute. reflexivity.
  - simpl. lia.
Defined.

(** X14 on the accepting automaton. *)
Lemma ParallelLexer_new_requires_witness :
  exists c,
    ParallelLexer_new (consts := small_constants) 20 accept_dfa = Some c /\
    0 < length accept_dfa /\
    Forall (fun st =>
              Forall (fun tr => exists sym, maybe_sym tr = Some sym /\ sym <= 0)
                     (transitions st)) accept_dfa /\
    forall b s, b <= 0 -> s < length accept_dfa ->
      result_state (seeded_slot (transitions_of accept_dfa s) b
                                (mkTransition 1 false))
      < length accept_dfa.
Proof.
  eexists. split; [vm_compute; reflexivity|].
  eapply (ParallelLexer_new_requires (consts := small_constants) 20 accept_dfa).
  vm_compute. reflexivity.
Defined.

(** X15 on the accepting automaton: three states, hence 433 rounds. *)
Lemma construction_completes_witness :
  well_formed (consts := small_constants) accept_dfa /\
  exists c,
    ParallelLexer_new (consts := small_constants) 433 accept_dfa = Some c.
Proof.
  split; [exact accept_dfa_well_formed|].
  apply (construction_completes (consts := small_constants) accept_dfa 433).
  - simpl. lia.
  - simpl. lia.
  - exact accept_dfa_well_formed.
  - vm_compute. lia.
Defined.

(** X16 on the accepting automaton. *)
Lemma interned_states_bounded_witness :
  exists c,
    ParallelLexer_new (consts := small_constants) 20 accept_dfa = Some c /\
    (forall i ps, states c !! i = Some ps ->
       length ps = 3 /\ Forall (fun t => result_state t < 3) ps) /\
    1 <= length (states c) /\ length (states c) <= (2 * 3) ^ 3.
Proof.
  eexists. split; [vm_compute; reflexivity|].
  apply (interned_states_bounded (consts := small_constants) 20 accept_dfa).
  vm_compute. reflexivity.
Defined.

(** X17 on the accepting automaton, whose reject state is state 1. *)
Lemma reject_absorbing_witness :
  exists c,
    ParallelLexer_new (consts := small_constants) 20 accept_dfa = Some c /\
    forall i ps, states c !! i = Some ps ->
      ps !! 1 = Some (mkTransition 1 false).
Proof.
  eexists. split; [vm_compute; reflexivity|].
  apply (reject_absorbing (consts := small_constants) 20 accept_dfa).
  - simpl. lia.
  - reflexivity.
  - vm_compute. reflexivity.
Defined.

(** X18 on the swapping automaton at [(1, 0, 0)]. *)
Lemma merge_table_not_assoc_witness :
  exists c,
    ParallelLexer_new (consts := two_byte_constants) 20 swap_dfa = Some c /\
    table_merge c 0 0 = Some (identity_state_index (this c)) /\
    exists a l,
      table_merge c 1 0 = Some a /\ table_merge c a 0 = Some l /\
      table_merge c 1 (identity_state_index (this c)) = Some 1 /\ l <> 1.
Proof.
  eexists. split; [vm_compute; reflexivity|]. split; [reflexivity|].
  apply (merge_table_not_assoc (consts := two_byte_constants) 20 swap_dfa _
           1 0 0
           [mkTransition 0 true; mkTransition 1 false; mkTransition 2 false]).
  - vm_compute. reflexivity.
  - vm_compute. lia.
  - vm_compute. lia.
  - vm_compute. lia.
  - vm_compute. lia.
  - vm_compute. lia.
  - vm_compute. lia.
  - reflexivity.
  - reflexivity.
  - intros H. apply Forall_inv in H. discriminate.
Defined.

(** X19 on the swapping automaton, along the bracketing 1 (0 0), whose
    index differs from that of the left fold. *)
Lemma scan_bracketed_sound_witness :
  exists c,
    ParallelLexer_new (consts := two_byte_constants) 20 swap_dfa = Some c /\
    exists r,
      scan_bracketed (this c)
        (bracket_merge (bracket_byte 1)
                       (bracket_merge (bracket_byte 0) (bracket_byte 0)))
      = Some r /\
      final_states (this c) !! r
      = Some (lexeme_at swap_dfa
                (dfa_run (consts := two_byte_constants) swap_dfa 0 [1; 0; 0])).
Proof.
  eexists. split; [vm_compute; reflexivity|].
  apply (scan_bracketed_sound (consts := two_byte_constants) 20 swap_dfa _
           (bracket_merge (bracket_byte 1)
                          (bracket_merge (bracket_byte 0) (bracket_byte 0)))).
  - vm_compute. reflexivity.
  - exact swap_dfa_deterministic.
  - repeat constructor.
Defined.

Lemma accept_dfa_dead_byte s (st : FsaState nat) :
  accept_dfa !! s = Some st ->
  Forall (fun tr => maybe_sym tr <> Some 1) (transitions st).
Proof.
  destruct s as [|[|[|s]]]; simpl; intros [= <-]; simpl.
  - apply Forall_cons. split; [discriminate|apply Forall_nil_2].
  - apply Forall_nil_2.
  - apply Forall_nil_2.
Qed.

(** X20 on the accepting automaton read over two bytes: byte 1 has no
    transition. *)
Lemma dead_byte_witness :
  exists c,
    ParallelLexer_new (consts := two_byte_constants) 20 accept_dfa = Some c /\
    exists k,
      initial_states (this c) !! 1 = Some (mkTransition k false) /\
      states c !! k = Some (dead_state (consts := two_byte_constants) 3) /\
      final_states (this c) !! k = Some (lexeme_at accept_dfa 1).
Proof.
  eexists. split; [vm_compute; reflexivity|].
  apply (dead_byte (consts := two_byte_constants) 20 accept_dfa _ 1).
  - vm_compute. reflexivity.
  - simpl. lia.
  - exact accept_dfa_dead_byte.
Defined.

(** X21 on the same construction: the all-rejected state is interned at
    index 1, the identity at index 2. *)
Lemma dead_state_absorbs_in_table_witness :
  exists c,
    ParallelLexer_new (consts := two_byte_constants) 20 accept_dfa = Some c /\
    states c !! 1 = Some (dead_state (consts := two_byte_constants) 3) /\
    1 <> identity_state_index (this c) /\
    table_merge c 1 0 = Some 1 /\ table_merge c 0 1 = Some 1.
Proof.
  eexists. split; [vm_compute; reflexivity|]. split; [reflexivity|].
  split; [vm_compute; discriminate|].
  apply (dead_state_absorbs_in_table (consts := two_byte_constants)
           20 accept_dfa _ 1 0).
  - vm_compute. reflexivity.
  - simpl. lia.
  - reflexivity.
  - reflexivity.
  - vm_compute. discriminate.
  - vm_compute. lia.
Defined.

(** X22 on the accepting automaton. *)
Lemma dump_sizes_spec_witness :
  exists c,
    ParallelLexer_new (consts := small_constants) 20 accept_dfa = Some c /\
    dump_sizes (this c)
    = "Initial states table: 1 element
Merge table: 3² elements = 9 elements
Final states table: 3 elements
".
Proof.
  eexists. split; [vm_compute; reflexivity|].
  rewrite (dump_sizes_spec (consts := small_constants) 20 accept_dfa).
  - vm_compute. reflexivity.
  - vm_compute. reflexivity.
Defined.
